(** * Huly transactor: session manager, backup protocol and blob tiering

    A shallow embedding of the parts of the transactor server that the
    specification talks about, followed by the theorems that relate the
    specification to the code.

    - [Js]             the few JavaScript primitives the code relies on
    - [Backup]         server/backup/src/backup.ts
    - [BackupClientOps] server/core/src/storage.ts
    - [SessionManager] server/ws/src/server.ts
    - [Send]           server/ws/src/utils.ts
    - [MoveFiles]      the tool's storage module (moveFiles, processAdapter)

    Text is modelled as [string] (one [ascii] per code unit), JavaScript
    [Map]s whose iteration order is observed as association lists in
    insertion order, and [Map]s that are only looked up as [gmap]. *)

From Stdlib Require Import ZArith String Ascii List Lia Bool.
From stdpp Require Import gmap strings list fin_maps.


(* ===================================================================== *)
(** ** JavaScript primitives                                              *)
(* ===================================================================== *)

Module Js.

(** The line feed character and the one-character string ['\n']. *)
Definition LF : ascii := ascii_of_nat 10.
Definition newline : string := String LF EmptyString.

(** [s.split(sep)] for a one-character separator: every occurrence of
    the separator cuts; the empty string yields one empty piece. *)
Fixpoint split (sep : ascii) (s : string) : list string :=
  match s with
  | EmptyString => [EmptyString]
  | String c rest =>
      if Ascii.eqb c sep then EmptyString :: split sep rest
      else match split sep rest with
           | [] => [String c EmptyString]
           | p :: ps => String c p :: ps
           end
  end.

(** [s.includes(c)] for a one-character needle. *)
Fixpoint contains (c : ascii) (s : string) : bool :=
  match s with
  | EmptyString => false
  | String x rest => Ascii.eqb x c || contains c rest
  end.

(** [arr.shift() ?? dflt]: removes and returns the first element. *)
Definition shiftOr {A} (dflt : A) (arr : list A) : A * list A :=
  match arr with
  | [] => (dflt, [])
  | x :: rest => (x, rest)
  end.

(** A JavaScript number that is an integer or NaN ([None]). *)
Definition number := option Z.

(** [arr.splice(0, count)]: the removed prefix and what is left.  The
    delete count goes through ToIntegerOrInfinity (NaN becomes 0) and is
    clamped to [0, arr.length]. *)
Definition splice0 {A} (count : number) (arr : list A) : list A * list A :=
  let n := match count with
           | None => 0%nat
           | Some z => Z.to_nat (Z.max 0 z)
           end in
  (take n arr, drop n arr).

(** White space skipped by [parseInt] (code units below 256). *)
Definition isWhiteSpace (c : ascii) : bool :=
  let n := nat_of_ascii c in
  ((9 <=? n) && (n <=? 13)) || (n =? 32) || (n =? 160).

Fixpoint trimStart (s : string) : string :=
  match s with
  | String c rest => if isWhiteSpace c then trimStart rest else s
  | EmptyString => EmptyString
  end.

(** Value of a digit character, for radix up to 16. *)
Definition digitValue (c : ascii) : option Z :=
  let n := nat_of_ascii c in
  if (48 <=? n) && (n <=? 57) then Some (Z.of_nat n - 48)%Z
  else if (97 <=? n) && (n <=? 102) then Some (Z.of_nat n - 87)%Z
  else if (65 <=? n) && (n <=? 70) then Some (Z.of_nat n - 55)%Z
  else None.

(** The longest prefix of digits of the radix, accumulated left to
    right; [seen] records whether one digit was consumed. *)
Fixpoint parseDigits (radix : Z) (seen : bool) (acc : Z) (s : string) : number :=
  match s with
  | EmptyString => if seen then Some acc else None
  | String c rest =>
      match digitValue c with
      | Some d =>
          if (d <? radix)%Z then parseDigits radix true (acc * radix + d)%Z rest
          else if seen then Some acc else None
      | None => if seen then Some acc else None
      end
  end.

(** [parseInt(s)] without a radix argument: leading white space, an
    optional sign, an optional [0x]/[0X] prefix selecting radix 16, then
    the digits; NaN when there is no digit. *)
Definition parseInt (s : string) : number :=
  let s1 := trimStart s in
  let '(neg, s2) :=
    match s1 with
    | String "-" r => (true, r)
    | String "+" r => (false, r)
    | _ => (false, s1)
    end in
  let '(radix, s3) :=
    match s2 with
    | String "0" (String "x" r) => (16%Z, r)
    | String "0" (String "X" r) => (16%Z, r)
    | _ => (10%Z, s2)
    end in
  match parseDigits radix false 0 s3 with
  | Some v => Some (if neg then (- v)%Z else v)
  | None => None
  end.

Definition digitChar (d : nat) : ascii := ascii_of_nat (48 + d).

Fixpoint digitsAux (fuel n : nat) (acc : string) : string :=
  match fuel with
  | O => acc
  | S f =>
      let acc' := String (digitChar (n mod 10)) acc in
      if (n / 10 =? 0)%nat then acc' else digitsAux f (n / 10) acc'
  end.

(** [`${n}`] for a non-negative integer: its decimal digits. *)
Definition numberToString (n : nat) : string := digitsAux (S n) n EmptyString.

(** [Math.round(a / b)] for integers [a >= 0], [b > 0]: halves round up. *)
Definition roundDiv (a b : Z) : Z := ((2 * a + b) / (2 * b))%Z.

End Js.

(* ===================================================================== *)
(** ** server/backup/src/backup.ts                                        *)
(* ===================================================================== *)

Module Backup.

(** A content hash as held in a digest; [None] is JavaScript's
    [undefined], which a digest line without [;] produces. *)
Definition Hash := option string.

(** [Snapshot]: the two maps in insertion order, and the removed ids. *)
Record Snapshot := {
  added : list (string * string);
  updated : list (string * string);
  removed : list string
}.

(** [SnapshotV6] after [Object.entries]. *)
Record SnapshotV6 := {
  added6 : list (string * string);
  updated6 : list (string * string);
  removed6 : list string
}.

Record DomainData := {
  snapshot : option string;
  snapshots : option (list string);
  storage : option (list string);
  dAdded : nat;
  dUpdated : nat;
  dRemoved : nat
}.

Record BackupSnapshot := {
  domains : gmap string DomainData;
  date : Z
}.

Record BackupInfo := {
  workspace : string;
  version : string;
  bSnapshots : list BackupSnapshot;
  snapshotsIndex : option nat;
  lastTxId : option string
}.

(** What [loadDigest] reads: [loadFile name] is the text
    [gunzipSync(await storage.loadFile(name)).toString()], [None] when
    loading or unzipping throws; [parseV6] is [JSON.parse] at type
    [SnapshotV6], [None] when it (or reading its fields) throws. *)
Record DigestStorage := {
  loadFile : string -> option string;
  parseV6 : string -> option SnapshotV6
}.

(** A line as [loadDigest] destructures it: [const [k, v] = it.split(';')]. *)
Definition splitEntry (it : string) : string * Hash :=
  match Js.split ";" it with
  | [] => (EmptyString, None)
  | [k] => (k, None)
  | k :: v :: _ => (k, Some v)
  end.

Definition setAll (entries : list (string * Hash)) (result : gmap string Hash)
  : gmap string Hash :=
  foldl (fun r kv => <[kv.1 := kv.2]> r) result entries.

Definition deleteAll (ids : list string) (result : gmap string Hash)
  : gmap string Hash :=
  foldl (fun r k => delete k r) result ids.

(** The body of the [try] block of [loadDigest] for one snapshot file,
    once the file has been read and split in lines. *)
Definition applySnapshotLines (dataBlob : list string) (result : gmap string Hash)
  : gmap string Hash :=
  let '(l1, dataBlob) := Js.shiftOr "0" dataBlob in
  let addedCount := Js.parseInt l1 in
  let '(added, dataBlob) := Js.splice0 addedCount dataBlob in
  let result := setAll (map splitEntry added) result in
  let '(l2, dataBlob) := Js.shiftOr "0" dataBlob in
  let updatedCount := Js.parseInt l2 in
  let '(updated, dataBlob) := Js.splice0 updatedCount dataBlob in
  let result := setAll (map splitEntry updated) result in
  let '(l3, dataBlob) := Js.shiftOr "0" dataBlob in
  let removedCount := Js.parseInt l3 in
  let '(removed, dataBlob) := Js.splice0 removedCount dataBlob in
  deleteAll removed result.

(** One iteration of [for (const snapshot of d?.snapshots ?? [])]: a
    file that cannot be read is reported and skipped. *)
Definition applySnapshotFile (st : DigestStorage) (result : gmap string Hash)
    (snapshot : string) : gmap string Hash :=
  match loadFile st snapshot with
  | Some text => applySnapshotLines (Js.split Js.LF text) result
  | None => result
  end.

Definition withHash (e : string * string) : string * Hash := (e.1, Some e.2).

(** The legacy JSON snapshot; reading it is not guarded, so a failure
    propagates out of [loadDigest] ([None]). *)
Definition applyLegacy (st : DigestStorage) (d : option DomainData)
    (result : gmap string Hash) : option (gmap string Hash) :=
  match d ≫= snapshot with
  | None => Some result
  | Some name =>
      match loadFile st name ≫= parseV6 st with
      | None => None
      | Some dChanges =>
          let result := setAll (map withHash (added6 dChanges)) result in
          let result := setAll (map withHash (updated6 dChanges)) result in
          Some (deleteAll (removed6 dChanges) result)
      end
  end.

Definition snapshotFiles (d : option DomainData) : list string :=
  default [] (d ≫= snapshots).

(** The loop [for (const s of snapshots)] of [loadDigest], with the
    [break] on the target date. *)
Fixpoint loadDigestLoop (st : DigestStorage) (domain : string) (date : option Z)
    (ss : list BackupSnapshot) (result : gmap string Hash)
    : option (gmap string Hash) :=
  match ss with
  | [] => Some result
  | s :: rest =>
      let d := domains s !! domain in
      match applyLegacy st d result with
      | None => None
      | Some result =>
          let result := foldl (applySnapshotFile st) result (snapshotFiles d) in
          match date with
          | Some dt => if (dt =? Backup.date s)%Z then Some result
                       else loadDigestLoop st domain date rest result
          | None => loadDigestLoop st domain date rest result
          end
      end
  end.

Definition loadDigest (st : DigestStorage) (ss : list BackupSnapshot)
    (domain : string) (date : option Z) : option (gmap string Hash) :=
  loadDigestLoop st domain date ss ∅.

(** [writeChanges]: the text handed to the gzip stream, chunk by chunk. *)
Definition entryLine (kv : string * string) : string :=
  kv.1 +:+ ";" +:+ kv.2 +:+ Js.newline.

Definition idLine (k : string) : string := k +:+ Js.newline.

Definition concatLines (ls : list string) : string :=
  foldr String.append EmptyString ls.

Definition writeChanges (changes : Snapshot) : string :=
  Js.numberToString (length (added changes)) +:+ Js.newline
  +:+ concatLines (map entryLine (added changes))
  +:+ Js.numberToString (length (updated changes)) +:+ Js.newline
  +:+ concatLines (map entryLine (updated changes))
  +:+ Js.numberToString (length (removed changes)) +:+ Js.newline
  +:+ concatLines (map idLine (removed changes)).

(** The three groups of lines [loadDigest] takes from a snapshot file,
    before they are applied to the digest. *)
Record ParsedSnapshot := {
  pAdded : list (string * Hash);
  pUpdated : list (string * Hash);
  pRemoved : list string
}.

Definition parseSnapshotLines (dataBlob : list string) : ParsedSnapshot :=
  let '(l1, dataBlob) := Js.shiftOr "0" dataBlob in
  let '(added, dataBlob) := Js.splice0 (Js.parseInt l1) dataBlob in
  let '(l2, dataBlob) := Js.shiftOr "0" dataBlob in
  let '(updated, dataBlob) := Js.splice0 (Js.parseInt l2) dataBlob in
  let '(l3, dataBlob) := Js.shiftOr "0" dataBlob in
  let '(removed, dataBlob) := Js.splice0 (Js.parseInt l3) dataBlob in
  {| pAdded := map splitEntry added;
     pUpdated := map splitEntry updated;
     pRemoved := removed |}.

Definition parseSnapshotFile (text : string) : ParsedSnapshot :=
  parseSnapshotLines (Js.split Js.LF text).

(** Ids and hashes that survive the line format: no separator and no
    line feed inside an [id;hash] line, no line feed inside a bare id. *)
Definition plainField (s : string) : bool :=
  negb (Js.contains ";" s) && negb (Js.contains Js.LF s).

Definition plainEntry (kv : string * string) : bool :=
  plainField kv.1 && plainField kv.2.

Definition plainChanges (changes : Snapshot) : bool :=
  forallb plainEntry (added changes)
  && forallb plainEntry (updated changes)
  && forallb (fun k => negb (Js.contains Js.LF k)) (removed changes).

(** **** The backup run *)

(** Domain names of [@hcengineering/core]. *)
Definition DOMAIN_TRANSIENT : string := "transient".
Definition DOMAIN_MODEL : string := "model".
Definition DOMAIN_BLOB : string := "blob".
Definition DOMAIN_DOC_INDEX_STATE : string := "doc-index-state".
Definition DOMAIN_FULLTEXT_BLOB : string := "fulltext-blob".

Definition infoFile : string := "backup.json.gz".

(** The backup storage as a run sees it: the decoded [backup.json.gz]
    when it exists, and the names of the snapshot and data files written
    so far. *)
Record Storage := {
  info : option BackupInfo;
  written : list string
}.

(** What [processDomain] does for one domain, as far as the run state
    goes: the [DomainData] it leaves in [snapshot.domains[domain]] (when
    something changed), the one that was in place when it last wrote
    [backup.json.gz] (when it did), the other files it wrote, whether the
    timeout fired meanwhile, and whether it threw. *)
Record DomainEffect := {
  inMemory : option DomainData;
  flushed : option DomainData;
  filesWritten : list string;
  canceledDuring : bool;
  threw : bool
}.

Record Env := {
  workspaceName : string;
  lastTx : option string;
  hierarchyDomains : list string;
  now : Z;
  canceledAtStart : bool;
  domainRun : string -> DomainEffect
}.

Record Options := {
  force : bool;
  skipDomains : list string;
  include : option (list string)
}.

Inductive Outcome := Skipped | Completed | Canceled | Failed.

Record RunResult := {
  outcome : Outcome;
  processed : list string;
  storageAfter : Storage
}.

Definition inList (x : string) (l : list string) : bool :=
  bool_decide (x ∈ l).

Definition domainsForDump (env : Env) (options : Options) : list string :=
  List.filter (fun it =>
                 bool_decide (it ≠ DOMAIN_TRANSIENT)
                 && bool_decide (it ≠ DOMAIN_MODEL)
                 && bool_decide (it ≠ "fulltext-blob")
                 && negb (inList it (skipDomains options))
                 && match include options with
                    | None => true
                    | Some inc => inList it inc
                    end)
              (hierarchyDomains env).

Definition setDomain (domain : string) (d : option DomainData) (s : BackupSnapshot)
  : BackupSnapshot :=
  match d with
  | Some d => {| domains := <[domain := d]> (domains s); date := date s |}
  | None => s
  end.

(** [backupInfo] with the snapshot of this run as its last snapshot. *)
Definition withSnapshot (bi : BackupInfo) (s : BackupSnapshot) : BackupInfo :=
  {| workspace := workspace bi; version := version bi;
     bSnapshots := bSnapshots bi ++ [s];
     snapshotsIndex := snapshotsIndex bi; lastTxId := lastTxId bi |}.

(** The loop [for (const domain of domains)]: [bi] is [backupInfo]
    without the snapshot of this run, [s] that snapshot. *)
Fixpoint processDomains (env : Env) (ds : list string) (canceled : bool)
    (bi : BackupInfo) (s : BackupSnapshot) (st : Storage) (done : list string)
    : bool * bool * BackupSnapshot * Storage * list string :=
  match ds with
  | [] => (canceled, false, s, st, done)
  | domain :: rest =>
      if canceled then (canceled, false, s, st, done)
      else
        let e := domainRun env domain in
        let st := {| info := match flushed e with
                             | Some d => Some (withSnapshot bi (setDomain domain (Some d) s))
                             | None => info st
                             end;
                     written := written st ++ filesWritten e |} in
        let s := setDomain domain (inMemory e) s in
        if threw e then (canceledDuring e, true, s, st, done ++ [domain])
        else processDomains env rest (canceledDuring e) bi s st (done ++ [domain])
  end.

Definition backup (env : Env) (storage : Storage) (options : Options) : RunResult :=
  let domains := domainsForDump env options in
  let backupInfo :=
    match info storage with
    | Some bi => bi
    | None => {| workspace := workspaceName env; version := "0.6.2";
                 bSnapshots := []; snapshotsIndex := None; lastTxId := None |}
    end in
  let backupInfo :=
    {| workspace := workspaceName env; version := "0.6.2";
       bSnapshots := bSnapshots backupInfo;
       snapshotsIndex := snapshotsIndex backupInfo;
       lastTxId := lastTxId backupInfo |} in
  let skip :=
    match lastTx env with
    | Some id => bool_decide (Some id = lastTxId backupInfo) && negb (force options)
    | None => false
    end in
  if skip then {| outcome := Skipped; processed := []; storageAfter := storage |}
  else
    (* backupInfo.lastTxId = '' *)
    let backupInfo :=
      {| workspace := workspace backupInfo; version := version backupInfo;
         bSnapshots := bSnapshots backupInfo;
         snapshotsIndex := snapshotsIndex backupInfo;
         lastTxId := Some "" |} in
    let snapshot := {| domains := ∅; date := now env |} in
    let '(canceled, failed, snapshot, st, done) :=
      processDomains env domains (canceledAtStart env) backupInfo snapshot storage [] in
    if failed then {| outcome := Failed; processed := done; storageAfter := st |}
    else if canceled then {| outcome := Canceled; processed := done; storageAfter := st |}
    else
      let final :=
        {| workspace := workspace backupInfo; version := version backupInfo;
           bSnapshots := bSnapshots backupInfo ++ [snapshot];
           snapshotsIndex := Some (length (bSnapshots backupInfo ++ [snapshot]));
           lastTxId := Some (default "0" (lastTx env)) |} in
      {| outcome := Completed; processed := done;
         storageAfter := {| info := Some final; written := written st |} |}.

(** **** Restore: the removal pass of [processDomain] *)

(** One call [connection.clean(domain, ids)] and whether it went through. *)
Record CleanCall := {
  cleanDomain : string;
  cleanIds : list string;
  cleanOk : bool
}.

(** [performCleanOfDomain]: batches of 10000 ids, a failed batch is pushed
    back at the end of the queue.  [clean i] tells whether the call number
    [i] of [connection.clean] goes through.  The loop runs as long as ids
    are queued and has no bound of its own: [fuel] bounds its turns, and
    [None] is a loop that is still running when the fuel is used up.  The
    result gives the calls made and the number of the next call. *)
Fixpoint performCleanOfDomain (fuel : nat) (clean : nat -> bool) (i : nat)
    (docsToRemove : list string) (c : string) : option (list CleanCall * nat) :=
  if 0 <? length docsToRemove then
    match fuel with
    | O => None
    | S fuel' =>
        let '(part, docsToRemove) := Js.splice0 (Some 10000%Z) docsToRemove in
        let ok := clean i in
        let docsToRemove := if ok then docsToRemove else docsToRemove ++ part in
        match performCleanOfDomain fuel' clean (S i) docsToRemove c with
        | Some (calls, next) =>
            Some ({| cleanDomain := c; cleanIds := part; cleanOk := ok |} :: calls, next)
        | None => None
        end
    end
  else Some ([], i).

(** [docsToRemove]: the ids the server holds and the target digest lacks. *)
Definition docsToRemoveOf (serverIds : list string) (changeset : gmap string Hash)
  : list string :=
  List.filter (fun it => bool_decide (changeset !! it = None)) serverIds.

(** The end of [processDomain]: the calls to [connection.clean] it makes,
    [None] when one of its loops is still running at the end of the fuel.
    [merge] is [opt.merge], [None] when it is not given. *)
Definition removalPass (fuel : nat) (merge : option bool) (c : string)
    (docsToRemove : list string) (clean : nat -> bool) : option (list CleanCall) :=
  if bool_decide (c ≠ DOMAIN_BLOB) then
    if (0 <? length docsToRemove) && bool_decide (merge ≠ Some true) then
      match (if bool_decide (c = DOMAIN_DOC_INDEX_STATE)
             then performCleanOfDomain fuel clean 0 docsToRemove DOMAIN_FULLTEXT_BLOB
             else Some ([], 0)) with
      | None => None
      | Some (calls1, next) =>
          match performCleanOfDomain fuel clean next docsToRemove c with
          | None => None
          | Some (calls2, _) => Some (calls1 ++ calls2)
          end
      end
    else Some []
  else Some [].

(** The ids of the calls that went through, in order. *)
Definition cleaned (calls : list CleanCall) : list string :=
  concat (map cleanIds (List.filter cleanOk calls)).

End Backup.

(* ===================================================================== *)
(** ** server/core/src/storage.ts                                         *)
(* ===================================================================== *)

Module BackupClientOps.

Definition chunkSize : Z := 2 * 1024 * 1024.

Section WithPipeline.
(** [DocInfo], the size estimate of [./utils] and the documents that
    the iterator returned by [pipeline.storage.find(ctx, domain,
    recheck)] yields, in order. *)
Context {DocInfo : Type}.
Variable estimateDocSize : DocInfo -> Z.
Variable find : string -> bool -> list DocInfo.

(** A [StorageIterator]: what it has still to yield, and how many
    times [next] was called on it. *)
Record StorageIterator := {
  pending : list DocInfo;
  nextCalls : nat
}.

(** [iterator.next(ctx)]: [None] is [undefined]. *)
Definition next (it : StorageIterator) : option DocInfo * StorageIterator :=
  match pending it with
  | [] => (None, {| pending := []; nextCalls := S (nextCalls it) |})
  | doc :: rest => (Some doc, {| pending := rest; nextCalls := S (nextCalls it) |})
  end.

Record ChunkInfo := {
  idx : nat;
  index : nat;
  finished : bool;
  iterator : StorageIterator
}.

Record State := {
  idIndex : nat;
  chunkInfo : gmap nat ChunkInfo
}.

Record LoadResult := {
  rIdx : nat;
  rDocs : list DocInfo;
  rFinished : bool
}.

(** The loop [while (size < chunkSize)]: the documents collected, the
    iterator afterwards and whether [chunk.finished] was set.  The
    recursion follows what the iterator has left. *)
Fixpoint fill (left : list DocInfo) (calls : nat) (size : Z) (docs : list DocInfo)
  : list DocInfo * StorageIterator * bool :=
  if (size <? chunkSize)%Z then
    match left with
    | [] => (docs, {| pending := []; nextCalls := S calls |}, true)
    | doc :: rest => fill rest (S calls) (size + estimateDocSize doc)%Z (docs ++ [doc])
    end
  else (docs, {| pending := left; nextCalls := calls |}, false).

Definition loadChunk (st : State) (domain : string) (idxArg : option nat)
    (recheck : bool) : State * LoadResult :=
  (* idx = idx ?? this.idIndex++ *)
  let '(i, st) :=
    match idxArg with
    | Some i => (i, st)
    | None => (idIndex st, {| idIndex := S (idIndex st); chunkInfo := chunkInfo st |})
    end in
  let run (chunk : ChunkInfo) : State * LoadResult :=
    let '(docs, it, fin) :=
      fill (pending (iterator chunk)) (nextCalls (iterator chunk)) 0 [] in
    let chunk := {| idx := idx chunk; index := index chunk;
                    finished := finished chunk || fin; iterator := it |} in
    ({| idIndex := idIndex st; chunkInfo := <[i := chunk]> (chunkInfo st) |},
     {| rIdx := i; rDocs := docs; rFinished := finished chunk |}) in
  match chunkInfo st !! i with
  | Some chunk =>
      (* chunk.index++ *)
      let chunk := {| idx := idx chunk; index := S (index chunk);
                      finished := finished chunk; iterator := iterator chunk |} in
      if finished chunk then
        ({| idIndex := idIndex st; chunkInfo := <[i := chunk]> (chunkInfo st) |},
         {| rIdx := i; rDocs := []; rFinished := true |})
      else run chunk
  | None =>
      run {| idx := i;
             index := 0;
             finished := false;
             iterator := {| pending := find domain recheck; nextCalls := 0 |} |}
  end.

(** [closeChunk]: forgets the cursor. *)
Definition closeChunk (st : State) (idx : nat) : State :=
  {| idIndex := idIndex st; chunkInfo := delete idx (chunkInfo st) |}.

(** [n] successive calls [loadChunk(domain, idx, recheck)]: the state
    afterwards and the results, first call first. *)
Fixpoint loadChunks (n : nat) (st : State) (domain : string) (idx : nat)
    (recheck : bool) : State * list LoadResult :=
  match n with
  | O => (st, [])
  | S m =>
      let '(st1, r) := loadChunk st domain (Some idx) recheck in
      let '(st2, rs) := loadChunks m st1 domain idx recheck in
      (st2, r :: rs)
  end.

(** A cursor that can still be read: not opened yet, or not finished. *)
Definition unfinished (st : State) (idx : nat) : Prop :=
  match chunkInfo st !! idx with
  | Some chunk => finished chunk = false
  | None => True
  end.

(** What a cursor has still to deliver. *)
Definition remaining (st : State) (domain : string) (idx : nat) (recheck : bool)
  : list DocInfo :=
  match chunkInfo st !! idx with
  | Some chunk => pending (iterator chunk)
  | None => find domain recheck
  end.

End WithPipeline.

Arguments StorageIterator : clear implicits.
Arguments ChunkInfo : clear implicits.
Arguments State : clear implicits.
Arguments LoadResult : clear implicits.

End BackupClientOps.

(* ===================================================================== *)
(** ** server/ws/src/server.ts                                            *)
(* ===================================================================== *)

Module SessionManager.

(** A [Session] as the manager reads it: [user] is [getUser()],
    [requests] the start times of the requests in flight, then the
    current and the trailing five-minute counters. *)
Record Session := {
  sessionId : string;
  user : string;
  lastRequest : Z;
  requests : list Z;
  currentFind : nat;
  currentTx : nat;
  mins5Find : nat;
  mins5Tx : nat
}.

(** An entry [{ session, socket }]; a socket is known by its [id]. *)
Record SessionRef := {
  session : Session;
  socket : string
}.

(** [closing] is [true] when [workspace.closing] holds a promise. *)
Record Workspace := {
  id : string;
  wsSessions : gmap string SessionRef;
  softShutdown : Z;
  closing : bool;
  upgrade : bool;
  backup : bool
}.

(** What the manager does to the outside: log lines and socket calls. *)
Inductive Event :=
| WarnSessionHang (wsId user : string)
| SocketClosed (socketId : string)
| SentPing (socketId : string)
| SentUpgrade (socketId : string)
| WarnRequestHang (wsId user : string)
| WarnClosingWorkspace (wsId : string)
| CloseCheckStarted (wsId wsUID : string)
| WarnVersionMismatch (version workspaceVersion : string)
| PipelineCreated (wsId : string) (upgradeMode : bool).

(** [TSessionManager]: the live workspaces, the sessions by socket id, the
    tick counter, [MODEL_VERSION], and the events so far. *)
Record Manager := {
  workspaces : gmap string Workspace;
  sessions : gmap string SessionRef;
  ticks : nat;
  modelVersion : string;
  events : list Event
}.

Definition setWorkspaces (m : Manager) (ws : gmap string Workspace) : Manager :=
  {| workspaces := ws; sessions := sessions m; ticks := ticks m;
     modelVersion := modelVersion m; events := events m |}.

Definition setSessions (m : Manager) (ss : gmap string SessionRef) : Manager :=
  {| workspaces := workspaces m; sessions := ss; ticks := ticks m;
     modelVersion := modelVersion m; events := events m |}.

Definition emit (m : Manager) (e : Event) : Manager :=
  {| workspaces := workspaces m; sessions := sessions m; ticks := ticks m;
     modelVersion := modelVersion m; events := events m ++ [e] |}.

Definition setWsSessions (w : Workspace) (ss : gmap string SessionRef) : Workspace :=
  {| id := id w; wsSessions := ss; softShutdown := softShutdown w;
     closing := closing w; upgrade := upgrade w; backup := backup w |}.

Definition setSoftShutdown (w : Workspace) (n : Z) : Workspace :=
  {| id := id w; wsSessions := wsSessions w; softShutdown := n;
     closing := closing w; upgrade := upgrade w; backup := backup w |}.

Definition setClosing (w : Workspace) : Workspace :=
  {| id := id w; wsSessions := wsSessions w; softShutdown := softShutdown w;
     closing := true; upgrade := upgrade w; backup := backup w |}.

(** [close(ctx, ws, wsid)]: it has no [await], so it runs to its end when
    called.  The reconnect timer it sets is left out. *)
Definition close (m : Manager) (socketId : string) (wsid : string) : Manager :=
  match sessions m !! socketId with
  | None => m
  | Some sessionRef =>
      let m := setSessions m (delete socketId (sessions m)) in
      let m :=
        match workspaces m !! wsid with
        | Some workspace =>
            setWorkspaces m
              (<[wsid := setWsSessions workspace
                           (delete (sessionId (session sessionRef)) (wsSessions workspace))]>
                 (workspaces m))
        | None => m
        end in
      emit m (SocketClosed (socket sessionRef))
  end.

(** The five-minute roll of the counters. *)
Definition rollCounters (s : Session) : Session :=
  {| sessionId := sessionId s; user := user s; lastRequest := lastRequest s;
     requests := requests s;
     currentFind := 0; currentTx := 0;
     mins5Find := currentFind s; mins5Tx := currentTx s |}.

Definition rollEntry (wsId sid : string) (m : Manager) : Manager :=
  match workspaces m !! wsId with
  | Some workspace =>
      match wsSessions workspace !! sid with
      | Some s =>
          setWorkspaces m
            (<[wsId := setWsSessions workspace
                         (<[sid := {| session := rollCounters (session s);
                                      socket := socket s |}]> (wsSessions workspace))]>
               (workspaces m))
      | None => m
      end
  | None => m
  end.

(** The countdown at the end of a workspace's turn in [handleInterval]:
    the workspace afterwards, and whether the close check is started. *)
Definition closeCountdown (w : Workspace) : Workspace * bool :=
  if (size (wsSessions w) =? 0) && negb (closing w) then
    let w := setSoftShutdown w (softShutdown w - 1) in
    if (softShutdown w <=? 0)%Z then (setClosing w, true) else (w, false)
  else (setSoftShutdown w 3, false).

(** How [performWorkspaceCloseCheck] ends once it has waited for the
    pipeline and closed it, or caught an error on the way. *)
Inductive CloseOutcome := PipelineClosed | PipelineThrew.

Definition finishWorkspaceClose (m : Manager) (wsid wsUID : string) (o : CloseOutcome)
  : Manager :=
  match o with
  | PipelineClosed =>
      if decide (id <$> workspaces m !! wsid = Some wsUID)
      then setWorkspaces m (delete wsid (workspaces m))
      else m
  | PipelineThrew => setWorkspaces m (delete wsid (workspaces m))
  end.

(** The countdown of one workspace over successive ticks.  Between two
    ticks the rest of the manager may change the workspace's sessions and
    may set [closing] (an upgrade switch, a forced close); nothing but the
    tick writes [softShutdown], and nothing clears [closing].  Each trace
    entry gives the sessions the tick finds once its session pass is done
    and whether [closing] was set from outside; the result lists, per
    tick, whether the close check was started. *)
Definition betweenTicks (w : Workspace) (move : gmap string SessionRef * bool) : Workspace :=
  {| id := id w; wsSessions := move.1; softShutdown := softShutdown w;
     closing := closing w || move.2; upgrade := upgrade w; backup := backup w |}.

Fixpoint runCountdown (w : Workspace) (trace : list (gmap string SessionRef * bool))
  : Workspace * list bool :=
  match trace with
  | [] => (w, [])
  | move :: rest =>
      let '(w1, started) := closeCountdown (betweenTicks w move) in
      let '(w2, flags) := runCountdown w1 rest in
      (w2, started :: flags)
  end.

Section WithCore.

(** Of [@hcengineering/core]: the e-mail of the system account. *)
Variable systemAccountEmail : string.

Definition hangTimeout (user : string) : Z :=
  let timeout := 60000%Z in
  if decide (user = systemAccountEmail) then (timeout * 10)%Z else timeout.

(** The body of [for (const s of workspace.sessions)] for one entry; an
    entry deleted since the loop started is not visited.  [now] is the
    clock reading of the tick. *)
Definition sessionStep (now : Z) (wsId : string) (m : Manager)
    (entry : string * SessionRef) : Manager :=
  match workspaces m !! wsId ≫= (fun w => wsSessions w !! entry.1) with
  | None => m
  | Some s =>
      let m := if ticks m mod (5 * 60) =? 0 then rollEntry wsId entry.1 m else m in
      let diff := (now - lastRequest (session s))%Z in
      let timeout := hangTimeout (user (session s)) in
      if (timeout <? diff)%Z && (ticks m mod 10 =? 0) then
        close (emit m (WarnSessionHang wsId (user (session s)))) (socket s) wsId
      else
        let m :=
          if (20000 <? diff)%Z && (diff <? 60000)%Z && (ticks m mod 10 =? 0)
          then emit m (SentPing (socket s)) else m in
        foldl (fun m start =>
                 if (30000 <? now - start)%Z
                 then emit m (WarnRequestHang wsId (user (session s))) else m)
              m (requests (session s))
  end.

(** The end of a workspace's turn: the countdown, and the close check it
    may start ([performWorkspaceCloseCheck] captures [workspace.id] and
    waits for the pipeline; see [finishWorkspaceClose]). *)
Definition countdownStep (m : Manager) (wsId : string) : Manager :=
  match workspaces m !! wsId with
  | None => m
  | Some workspace =>
      let '(w, started) := closeCountdown workspace in
      let m := setWorkspaces m (<[wsId := w]> (workspaces m)) in
      if started
      then emit (emit m (WarnClosingWorkspace wsId)) (CloseCheckStarted wsId (id w))
      else m
  end.

(** One workspace's turn in [handleInterval]. *)
Definition workspaceStep (now : Z) (m : Manager) (entry : string * Workspace) : Manager :=
  let wsId := entry.1 in
  match workspaces m !! wsId with
  | None => m
  | Some workspace =>
      let m := foldl (sessionStep now wsId) m (map_to_list (wsSessions workspace)) in
      countdownStep m wsId
  end.

Definition handleInterval (now : Z) (m : Manager) : Manager :=
  let m := foldl (workspaceStep now) m (map_to_list (workspaces m)) in
  {| workspaces := workspaces m; sessions := sessions m; ticks := S (ticks m);
     modelVersion := modelVersion m; events := events m |}.

(** Successive ticks, one clock reading each. *)
Definition runTicks (nows : list Z) (m : Manager) : Manager :=
  foldl (fun m now => handleInterval now m) m nows.

(** **** addSession *)

(** [token.extra]: the claims the manager reads. *)
Record TokenExtra := {
  admin : option string;
  model : option string;
  mode : option string
}.

(** [workspace] is [toWorkspaceString(token.workspace, '@')]. *)
Record Token := {
  email : string;
  workspace : string;
  extra : option TokenExtra
}.

Definition extraModel (token : Token) : option string := extra token ≫= model.
Definition extraMode (token : Token) : option string := extra token ≫= mode.
Definition extraAdmin (token : Token) : option string := extra token ≫= admin.

Record Version := {
  major : nat;
  minor : nat;
  patch : nat
}.

Record UpgradeInfo := {
  toProcess : nat;
  total : nat;
  elapsed : nat;
  eta : nat
}.

(** [WorkspaceLoginInfo]; [infoUpgrade] is its field [upgrade]. *)
Record WorkspaceLoginInfo := {
  creating : option bool;
  version : option Version;
  infoUpgrade : option UpgradeInfo;
  workspaceId : string;
  workspaceUrl : option string;
  workspaceName : option string
}.

(** One call of [getWorkspaceInfo]: it throws, or answers. *)
Inductive Fetch :=
| FetchThrows (err : string)
| FetchOk (info : option WorkspaceLoginInfo).

(** What [addSession] gets from outside: the accounts service, attempt by
    attempt; what the manager has become once a close in flight has been
    waited for; whether waiting for the pipeline throws; the session the
    factory builds; the ids [generateId] hands out. *)
Record AddSessionEnv := {
  accountsUrl : string;
  fetch : nat -> Fetch;
  awaitClosing : Manager -> Manager;
  pipelineThrows : option string;
  sessionFactory : Token -> Session;
  newWorkspaceId : string;
  newSessionId : string
}.

Inductive AddSessionResult :=
| Throws (err : string)
| ErrorResult (message : string)
| UpgradeResult (upgradeInfo : option UpgradeInfo)
| SessionResult (s : Session) (workspaceId : string).

(** Of [@hcengineering/core]: how a version is printed. *)
Variable versionToString : Version -> string.

Definition wsFromToken (token : Token) : WorkspaceLoginInfo :=
  {| creating := Some false; version := None; infoUpgrade := None;
     workspaceId := workspace token;
     workspaceUrl := Some (workspace token);
     workspaceName := Some (workspace token) |}.

(** The loop [for (let i = 0; i < 5; i++)]; [n] counts the turns left. *)
Fixpoint resolveInfo (env : AddSessionEnv) (token : Token) (n i : nat) : Fetch :=
  match n with
  | O => FetchOk None
  | S n' =>
      match (if bool_decide (accountsUrl env ≠ "") then fetch env i
             else FetchOk (Some (wsFromToken token))) with
      | FetchOk info => FetchOk info
      | FetchThrows err =>
          if i =? 4 then FetchThrows err else resolveInfo env token n' (S i)
      end
  end.

(** [closeAll(wsString, workspace, 0, 'upgrade')], as far as the manager's
    own state goes: the workspace forgets its sessions, every socket is
    sent the upgrade notice and closed. *)
Definition closeAllForUpgrade (m : Manager) (wsId : string) (w : Workspace) : Manager :=
  let m := setWorkspaces m (<[wsId := setWsSessions w ∅]> (workspaces m)) in
  foldl (fun m entry => emit (emit m (SentUpgrade (socket entry.2)))
                             (SocketClosed (socket entry.2)))
        m (map_to_list (wsSessions w)).

(** [addSession] past the version gate. *)
Definition enterWorkspace (m : Manager) (env : AddSessionEnv) (socketId : string)
    (token : Token) (sessionIdArg : option string) : Manager * AddSessionResult :=
  let wsString := workspace token in
  let m :=
    match workspaces m !! wsString with
    | Some w => if closing w then awaitClosing env m else m
    | None => m
    end in
  let oldSession :=
    sessionIdArg ≫= (fun sid => workspaces m !! wsString ≫= (fun w => wsSessions w !! sid)) in
  let m :=
    match oldSession with
    | Some old => close m (socket old) wsString
    | None => m
    end in
  let upgradeToken := bool_decide (extraModel token = Some "upgrade") in
  let backupToken := bool_decide (extraMode token = Some "backup") in
  let '(m, w) :=
    match workspaces m !! wsString with
    | Some w => (m, w)
    | None =>
        let w := {| id := newWorkspaceId env; wsSessions := ∅; softShutdown := 3;
                    closing := false; upgrade := upgradeToken; backup := backupToken |} in
        (emit (setWorkspaces m (<[wsString := w]> (workspaces m)))
              (PipelineCreated wsString upgradeToken), w)
    end in
  let entered : option (Manager * Workspace) :=
    if upgradeToken then
      if upgrade w then Some (m, w)
      else
        (* switchToUpgradeSession *)
        let w := {| id := id w; wsSessions := wsSessions w; softShutdown := softShutdown w;
                    closing := true; upgrade := true; backup := backupToken |} in
        let m := closeAllForUpgrade m wsString w in
        Some (emit m (PipelineCreated wsString true), setWsSessions w ∅)
    else
      if upgrade w then None else Some (m, w) in
  match entered with
  | None => (m, UpgradeResult None)
  | Some (m, w) =>
      match pipelineThrows env with
      | Some err => (m, Throws err)
      | None =>
          let s := sessionFactory env token in
          let sid :=
            match sessionIdArg with
            | Some sid => if bool_decide (Js.trimStart sid ≠ "") then sid else newSessionId env
            | None => newSessionId env
            end in
          let s := {| sessionId := sid; user := user s; lastRequest := lastRequest s;
                      requests := requests s;
                      currentFind := currentFind s; currentTx := currentTx s;
                      mins5Find := mins5Find s; mins5Tx := mins5Tx s |} in
          let ref := {| session := s; socket := socketId |} in
          let m := setSessions m (<[socketId := ref]> (sessions m)) in
          let m := setWorkspaces m
                     (<[wsString := setWsSessions w (<[sid := ref]> (wsSessions w))]>
                        (workspaces m)) in
          (m, SessionResult s wsString)
      end
  end.

Definition addSession (m : Manager) (env : AddSessionEnv) (socketId : string)
    (token : Token) (sessionIdArg : option string) : Manager * AddSessionResult :=
  match resolveInfo env token 5 0 with
  | FetchThrows err => (m, Throws err)
  | FetchOk workspaceInfo =>
      if bool_decide ((workspaceInfo ≫= creating) = Some true)
         && bool_decide (email token ≠ systemAccountEmail)
      then (m, ErrorResult ("Workspace during creation phase " +:+ email token
                            +:+ " " +:+ workspace token))
      else if bool_decide (workspaceInfo = None)
              && bool_decide (extraAdmin token ≠ Some "true")
      then (m, ErrorResult ("No access to workspace for token " +:+ email token
                            +:+ " " +:+ workspace token))
      else
        let workspaceInfo := default (wsFromToken token) workspaceInfo in
        match version workspaceInfo with
        | Some v =>
            if bool_decide (modelVersion m ≠ "")
               && bool_decide (modelVersion m ≠ versionToString v)
               && bool_decide (extraModel token ≠ Some "upgrade")
               && bool_decide (extraMode token ≠ Some "backup")
            then
              (emit m (WarnVersionMismatch (modelVersion m) (versionToString v)),
               UpgradeResult (infoUpgrade workspaceInfo))
            else enterWorkspace m env socketId token sessionIdArg
        | None => enterWorkspace m env socketId token sessionIdArg
        end
  end.

End WithCore.

End SessionManager.

(* ===================================================================== *)
(** ** server/ws/src/utils.ts                                             *)
(* ===================================================================== *)

Module Send.

Section WithItems.
(** The documents of a result, the lookup map of a [FindResult], and the
    length of [JSON.stringify] of one document. *)
Context {Doc LookupMap : Type}.
Variable jsonLength : Doc -> nat.

(** A [FindResult]: the array with its two extra fields; [None] is
    [undefined]. *)
Record FindResult := {
  docs : list Doc;
  total : option Z;
  lookupMap : option LookupMap
}.

(** Of [@hcengineering/core]: wraps an array as a [FindResult]. *)
Variable toFindResult : list Doc -> FindResult.

(** [msg.result]: an array (with the fields of a [FindResult] when it is
    one), or anything else, of which only the JSON text matters here. *)
Inductive ResultValue :=
| ArrayResult (r : FindResult)
| OtherResult (text : string).

Record Response := {
  id : option Z;
  result : ResultValue
}.

(** What [ws.send] is given: the message with its result replaced, and the
    [chunk] field when the result is sent in pieces. *)
Record Frame := {
  frameId : option Z;
  frameResult : ResultValue;
  frameChunk : option (nat * bool)
}.

(** [JSON.stringify(data).length] for an array: the brackets, the items
    and the commas between them. *)
Definition jsonArrayLength (data : list Doc) : nat :=
  2 + list_sum (map jsonLength data) + (length data - 1).

(** [Math.round(dataSize / data.length)] and
    [Math.round(chunkLimit / avg) + 1]. *)
Definition avgSize (data : list Doc) : Z :=
  Js.roundDiv (Z.of_nat (jsonArrayLength data)) (Z.of_nat (length data)).

Definition itemChunkOf (data : list Doc) (chunkLimit : Z) : Z :=
  (Js.roundDiv chunkLimit (avgSize data) + 1)%Z.

(** The loop [while (data.length > 0 && !ws.isClosed)].  [isClosed k] is
    what [ws.isClosed] reads once [k] frames have been sent; [cid] is the
    index of the next frame.  Every turn sends at least one item, so the
    turns are bounded by [fuel], the number of items at the start. *)
Fixpoint sendChunks (fuel : nat) (isClosed : nat -> bool) (msg : Response)
    (orig : FindResult) (itemChunk : Z) (data : list Doc) (cid : nat) : list Frame :=
  match fuel with
  | O => []
  | S fuel' =>
      if (0 <? length data) && negb (isClosed (cid - 1)) then
        let itemChunkCurrent :=
          if (2 * (Z.of_nat (length data) - itemChunk) <? itemChunk)%Z
          then Z.of_nat (length data) else itemChunk in
        let '(part, data) := Js.splice0 (Some itemChunkCurrent) data in
        let chunk := toFindResult part in
        let chunk :=
          if length data =? 0
          then {| docs := docs chunk;
                  total := Some (default 0%Z (total orig));
                  lookupMap := lookupMap orig |}
          else chunk in
        {| frameId := id msg;
           frameResult := ArrayResult chunk;
           frameChunk := Some (cid, length data =? 0) |}
        :: sendChunks fuel' isClosed msg orig itemChunk data (S cid)
      else []
  end.

(** [handleSend]: the frames handed to [ws.send], in order. *)
Definition handleSend (isClosed : nat -> bool) (msg : Response) (chunkLimit : Z)
  : list Frame :=
  match result msg with
  | ArrayResult orig =>
      if (1 <? length (docs orig)) && (0 <? chunkLimit)%Z then
        let data := docs orig in
        sendChunks (length data) isClosed msg orig (itemChunkOf data chunkLimit) data 1
      else [{| frameId := id msg; frameResult := result msg; frameChunk := None |}]
  | OtherResult _ =>
      [{| frameId := id msg; frameResult := result msg; frameChunk := None |}]
  end.

(** The documents a frame carries, and the JSON length of its array. *)
Definition frameDocs (f : Frame) : list Doc :=
  match frameResult f with
  | ArrayResult r => docs r
  | OtherResult _ => []
  end.

Definition frameSize (f : Frame) : nat := jsonArrayLength (frameDocs f).

End WithItems.

Arguments FindResult : clear implicits.
Arguments ResultValue : clear implicits.
Arguments Response : clear implicits.
Arguments Frame : clear implicits.

End Send.

(* ===================================================================== *)
(** ** The tool's storage module: moveFiles, processAdapter               *)
(* ===================================================================== *)

Module MoveFiles.

(** A [Blob] or [ListBlobResult], as far as [processAdapter] reads it. *)
Record Blob := {
  _id : string;
  size : nat;
  provider : string
}.

(** An awaited call: its value, or an exception. *)
Inductive Outcome (A : Type) :=
| Returned (a : A)
| Thrown.
Arguments Returned {A} a.
Arguments Thrown {A}.

(** What the adapters answer while one listed blob is processed:
    [exAdapter.stat], [exAdapter.syncBlobFromStorage] for a blob the
    target already has, [source.stat], and each attempt to copy the blob
    ([processFile] followed by [syncBlobFromStorage]). *)
Record Calls := {
  aggrStat : Outcome (option Blob);
  syncExisting : Outcome Blob;
  sourceStat : Outcome (option Blob);
  copyAttempt : nat -> Outcome Blob
}.

Inductive Event :=
| TargetExists (id : string)
| BlobNotFound (id : string)
| AttemptFailed (id : string) (retriesLeft : nat)
| FailedToProcess (id : string).

Record State := {
  toRemove : list string;
  processedCnt : nat;
  movedCnt : nat;
  events : list Event
}.

Definition emit (st : State) (e : Event) : State :=
  {| toRemove := toRemove st; processedCnt := processedCnt st;
     movedCnt := movedCnt st; events := events st ++ [e] |}.

Definition push (st : State) (id : string) : State :=
  {| toRemove := toRemove st ++ [id]; processedCnt := processedCnt st;
     movedCnt := movedCnt st; events := events st |}.

Definition countProcessed (st : State) : State :=
  {| toRemove := toRemove st; processedCnt := S (processedCnt st);
     movedCnt := movedCnt st; events := events st |}.

Definition countMoved (st : State) : State :=
  {| toRemove := toRemove st; processedCnt := processedCnt st;
     movedCnt := S (movedCnt st); events := events st |}.

(** [retryOnFailure(ctx, retries, op, delay)]: [attempt] numbers the calls
    of [op]; every failure is logged with the retries left. *)
Fixpoint retryOnFailure (retries : nat) (op : nat -> Outcome Blob) (id : string)
    (attempt : nat) (st : State) : State * Outcome Blob :=
  match retries with
  | O => (st, Thrown)
  | S retries' =>
      match op attempt with
      | Returned result => (st, Returned result)
      | Thrown =>
          retryOnFailure retries' op id (S attempt) (emit st (AttemptFailed id retries'))
      end
  end.

(** The body of [for (const data of dataBulk)]; the second component is
    [false] when a call outside the copy threw, which ends the run. *)
Definition processBlob (targetBlobs : gmap string Blob) (calls : Calls) (st : State)
    (data : Blob) : State * bool :=
  match targetBlobs !! _id data with
  | Some targetBlob =>
      let st := emit st (TargetExists (_id targetBlob)) in
      match aggrStat calls with
      | Thrown => (st, false)
      | Returned aggrBlob =>
          let stale :=
            match aggrBlob with
            | None => true
            | Some b => bool_decide (provider b ≠ provider targetBlob)
            end in
          match (if stale then syncExisting calls else Returned targetBlob) with
          | Thrown => (st, false)
          | Returned _ => (countProcessed (push st (_id data)), true)
          end
      end
  | None =>
      match sourceStat calls with
      | Thrown => (st, false)
      | Returned None => (emit st (BlobNotFound (_id data)), true)
      | Returned (Some sourceBlob) =>
          match retryOnFailure 5 (copyAttempt calls) (_id data) 0 st with
          | (st, Returned _) =>
              (countProcessed (push (countMoved st) (_id sourceBlob)), true)
          | (st, Thrown) =>
              (countProcessed (emit st (FailedToProcess (_id data))), true)
          end
      end
  end.

(** The blobs of the source listing, numbered in the order the loop meets
    them; [calls k] is what the adapters answer for the [k]-th. *)
Fixpoint processBlobs (targetBlobs : gmap string Blob) (calls : nat -> Calls)
    (k : nat) (st : State) (items : list Blob) : State * bool :=
  match items with
  | [] => (st, true)
  | data :: rest =>
      match processBlob targetBlobs (calls k) st data with
      | (st, true) => processBlobs targetBlobs calls (S k) st rest
      | (st, false) => (st, false)
      end
  end.

(** A stream listing: bulks until the first empty one. *)
Fixpoint listed (bulks : list (list Blob)) : list Blob :=
  match bulks with
  | [] => []
  | bulk :: rest => if length bulk =? 0 then [] else bulk ++ listed rest
  end.

Definition targetMap (bulks : list (list Blob)) : gmap string Blob :=
  foldl (fun m p => <[_id p := p]> m) ∅ (listed bulks).

(** The loop [while (toRemove.length > 0)] of the deletion: the batches
    handed to [source.remove], and whether all of them went through.
    [removeOk i] tells whether the [i]-th call does. *)
Fixpoint removeBatches (fuel : nat) (removeOk : nat -> bool) (i : nat)
    (toRemove : list string) : list (list string) * bool :=
  match fuel with
  | O => ([], true)
  | S fuel' =>
      if 0 <? length toRemove then
        let '(part, toRemove) := Js.splice0 (Some 500%Z) toRemove in
        if removeOk i then
          let '(parts, ok) := removeBatches fuel' removeOk (S i) toRemove in
          (part :: parts, ok)
        else ([part], false)
      else ([], true)
  end.

Record Result := {
  completed : bool;
  final : State;
  removeCalls : list (list string)
}.

Definition initial : State :=
  {| toRemove := []; processedCnt := 0; movedCnt := 0; events := [] |}.

(** [processAdapter]; [sameAdapter] is [source === target], [move] is
    [params.move]. *)
Definition processAdapter (sameAdapter move : bool)
    (sourceListing targetListing : list (list Blob))
    (calls : nat -> Calls) (removeOk : nat -> bool) : Result :=
  if sameAdapter then {| completed := true; final := initial; removeCalls := [] |}
  else
    let targetBlobs := targetMap targetListing in
    match processBlobs targetBlobs calls 0 initial (listed sourceListing) with
    | (st, false) => {| completed := false; final := st; removeCalls := [] |}
    | (st, true) =>
        if (0 <? length (toRemove st)) && move then
          let '(parts, ok) := removeBatches (length (toRemove st)) removeOk 0 (toRemove st) in
          {| completed := ok; final := st; removeCalls := parts |}
        else {| completed := true; final := st; removeCalls := [] |}
    end.

(** The source provider once the batches have been removed from it. *)
Definition removeAll (source : gmap string Blob) (parts : list (list string))
  : gmap string Blob :=
  foldl (fun s part => foldl (fun s id => delete id s) s part) source parts.

End MoveFiles.

(* ===================================================================== *)
(** ** server/backup/src/backup.ts: the walk of a domain in [backup]      *)
(* ===================================================================== *)

Module BackupDomain.

Definition retrieveChunkSize : Z := 2 * 1024 * 1024.

(** A [DocInfo] as the walk destructures it: [{ id, hash, size }]. *)
Record DocInfo := {
  id : string;
  hash : string;
  size : Z
}.

(** What [connection.loadChunk] answers: a chunk, or an exception. *)
Record Chunk := {
  idx : nat;
  docs : list DocInfo;
  finished : bool
}.

Inductive Answer :=
| ChunkThrows
| ChunkLoaded (c : Chunk).

(** What [loadChangesFromServer] works on: the digest (it is mutated),
    [changes.added] and [changes.updated], the counter [changed], the
    chunks of ids to retrieve, and the cursors it has closed. *)
Record State := {
  digest : gmap string Backup.Hash;
  added : gmap string string;
  updated : gmap string string;
  changed : nat;
  needRetrieveChunks : list (list string);
  closed : list nat
}.

Definition initial (digest : gmap string Backup.Hash) : State :=
  {| digest := digest; added := ∅; updated := ∅; changed := 0;
     needRetrieveChunks := []; closed := [] |}.

(** The body of [for (const { id, hash, size } of currentChunk.docs)];
    the state goes with [needRetrieve] and [currentNeedRetrieveSize]. *)
Definition docStep (acc : State * list string * Z) (d : DocInfo)
  : State * list string * Z :=
  let '(st, needRetrieve, currentNeedRetrieveSize) := acc in
  let '(st, needRetrieve, currentNeedRetrieveSize) :=
    match digest st !! id d with
    | Some (Some kHash) =>
        (* digest.delete(id) *)
        let st := {| digest := delete (id d) (digest st); added := added st;
                     updated := updated st; changed := changed st;
                     needRetrieveChunks := needRetrieveChunks st;
                     closed := closed st |} in
        if bool_decide (kHash ≠ hash d) then
          ({| digest := digest st; added := added st;
              updated := <[id d := hash d]> (updated st); changed := S (changed st);
              needRetrieveChunks := needRetrieveChunks st; closed := closed st |},
           needRetrieve ++ [id d], (currentNeedRetrieveSize + size d)%Z)
        else (st, needRetrieve, currentNeedRetrieveSize)
    | _ =>
        ({| digest := digest st; added := <[id d := hash d]> (added st);
            updated := updated st; changed := S (changed st);
            needRetrieveChunks := needRetrieveChunks st; closed := closed st |},
         needRetrieve ++ [id d], (currentNeedRetrieveSize + size d)%Z)
    end in
  if (retrieveChunkSize <? currentNeedRetrieveSize)%Z then
    ({| digest := digest st; added := added st; updated := updated st;
        changed := changed st;
        needRetrieveChunks := needRetrieveChunks st ++ [needRetrieve];
        closed := closed st |}, [], 0%Z)
  else (st, needRetrieve, currentNeedRetrieveSize).

(** One chunk: its documents, then the ids still to be retrieved. *)
Definition chunkStep (st : State) (c : Chunk) : State :=
  let '(st, needRetrieve, _) := foldl docStep (st, [], 0%Z) (docs c) in
  if 0 <? length needRetrieve then
    {| digest := digest st; added := added st; updated := updated st;
       changed := changed st;
       needRetrieveChunks := needRetrieveChunks st ++ [needRetrieve];
       closed := closed st |}
  else st.

Definition closeChunk (st : State) (i : nat) : State :=
  {| digest := digest st; added := added st; updated := updated st;
     changed := changed st; needRetrieveChunks := needRetrieveChunks st;
     closed := closed st ++ [i] |}.

(** The loop [while (true)] of [loadChangesFromServer]: [answers] are the
    answers of [connection.loadChunk], call after call; [idx] is the
    cursor in use.  After an exception the cursor is closed and the walk
    starts again with what has been collected so far.  [None]: the answers
    run out before a chunk comes with [finished]. *)
Fixpoint loadChangesLoop (answers : list Answer) (idx : option nat) (st : State)
  : option State :=
  match answers with
  | [] => None
  | ChunkThrows :: rest =>
      let st := match idx with
                | Some i => closeChunk st i
                | None => st
                end in
      loadChangesLoop rest None st
  | ChunkLoaded currentChunk :: rest =>
      let st := chunkStep st currentChunk in
      if finished currentChunk then Some (closeChunk st (BackupDomain.idx currentChunk))
      else loadChangesLoop rest (Some (BackupDomain.idx currentChunk)) st
  end.

Definition loadChangesFromServer (answers : list Answer) (digest : gmap string Backup.Hash)
  : option State :=
  loadChangesLoop answers None (initial digest).

(** The documents of the chunks that were loaded, up to the first chunk
    that comes with [finished]. *)
Fixpoint loaded (answers : list Answer) : list DocInfo :=
  match answers with
  | [] => []
  | ChunkThrows :: rest => loaded rest
  | ChunkLoaded c :: rest => docs c ++ (if finished c then [] else loaded rest)
  end.

End BackupDomain.

(* ===================================================================== *)
(** ** server/backup/src/backup.ts: restore                               *)
(* ===================================================================== *)

(** A JavaScript [Map] with string keys whose iteration order is
    observed: the entries in insertion order. *)
Module JsMap.

Section WithValues.
Context {V : Type}.

(** [m.set(k, v)]: an existing key keeps its place. *)
Fixpoint set (k : string) (v : V) (m : list (string * V)) : list (string * V) :=
  match m with
  | [] => [(k, v)]
  | e :: rest => if bool_decide (e.1 = k) then (k, v) :: rest else e :: set k v rest
  end.

(** [m.get(k)]; [None] is [undefined]. *)
Fixpoint get (k : string) (m : list (string * V)) : option V :=
  match m with
  | [] => None
  | e :: rest => if bool_decide (e.1 = k) then Some e.2 else get k rest
  end.

(** [Array.from(m.keys())]. *)
Definition keys (m : list (string * V)) : list string := m.*1.

End WithValues.

End JsMap.

Module Restore.

Definition dataUploadSize : Z := 2 * 1024 * 1024.

(** How the choice of the snapshots ends: the snapshots to restore from
    and the date passed on to [loadDigest], or one of the two exceptions
    (no snapshot with the date asked for; with [-1] and no snapshot at
    all, reading [date] of [undefined]). *)
Inductive Selection :=
| Selected (snapshots : list Backup.BackupSnapshot) (date : Z)
| SnapshotMissing
| NoSnapshot.

(** [backupInfo.snapshots.findIndex((it) => it.date === opt.date)];
    [None] is [-1]. *)
Fixpoint findIndex (date : Z) (snapshots : list Backup.BackupSnapshot) : option nat :=
  match snapshots with
  | [] => None
  | s :: rest => if (Backup.date s =? date)%Z then Some 0 else S <$> findIndex date rest
  end.

Definition selectSnapshots (snapshots : list Backup.BackupSnapshot) (date : Z)
  : Selection :=
  if bool_decide (date ≠ (-1)%Z) then
    match findIndex date snapshots with
    | None => SnapshotMissing
    | Some bk => Selected (take (bk + 1) snapshots) date
    end
  else
    match last snapshots with
    | None => NoSnapshot
    | Some s => Selected snapshots (Backup.date s)
    end.

(** The walk of the server in [processDomain]: [serverChangeset] once
    every chunk has been read, [docs] being the documents of the chunks
    in order. *)
Definition serverChangesetOf (docs : list BackupDomain.DocInfo)
  : list (string * string) :=
  foldl (fun m d => JsMap.set (BackupDomain.id d) (BackupDomain.hash d) m) [] docs.

(** The test of the [filter] that builds [docsToAdd]: the server lacks
    the document, or holds it with another hash. *)
Definition toAdd (serverChangeset : list (string * string)) (it : string)
    (hash : Backup.Hash) : bool :=
  match JsMap.get it serverChangeset with
  | None => true
  | Some h => bool_decide (Some h ≠ hash)
  end.

Definition docsToAdd (serverChangeset : list (string * string))
    (changeset : gmap string Backup.Hash) : gmap string Backup.Hash :=
  filter (fun e => toAdd serverChangeset e.1 e.2 = true) changeset.

Definition docsToRemove (serverChangeset : list (string * string))
    (changeset : gmap string Backup.Hash) : list string :=
  Backup.docsToRemoveOf (JsMap.keys serverChangeset) changeset.

Section WithDocs.
(** The documents read from the backup files; [docId] is [doc._id],
    [clearHash] deletes the field [%hash%]. *)
Context {Doc : Type}.
Variable docId : Doc -> string.
Variable clearHash : Doc -> Doc.

(** What [sendChunk] works on: [docsToAdd], the documents waiting, their
    size, and the calls [connection.upload(c, docs)] made so far. *)
Record Sender := {
  pendingAdd : gmap string Backup.Hash;
  docs : list Doc;
  sendSize : Z;
  uploads : list (list Doc)
}.

(** [sendChunk(doc, len)] when [connection.upload] goes through. *)
Definition sendChunk (recheck : bool) (doc : option Doc) (len : Z) (st : Sender)
  : Sender :=
  let st :=
    match doc with
    | Some d =>
        {| pendingAdd := delete (docId d) (pendingAdd st);
           docs := docs st ++ [if recheck then clearHash d else d];
           sendSize := sendSize st; uploads := uploads st |}
    | None => st
    end in
  let sendSize := (sendSize st + len)%Z in
  if (dataUploadSize <? sendSize)%Z
     || match doc with
        | None => 0 <? length (docs st)
        | Some _ => false
        end then
    {| pendingAdd := pendingAdd st; docs := []; sendSize := 0;
       uploads := uploads st ++ [docs st] |}
  else
    {| pendingAdd := pendingAdd st; docs := docs st; sendSize := sendSize;
       uploads := uploads st |}.

(** The documents found in the backup files, each sent with its length,
    then the closing [sendChunk(undefined, 0)]. *)
Definition sendAll (recheck : bool) (found : list (Doc * Z)) (st : Sender) : Sender :=
  sendChunk recheck None 0
    (foldl (fun st e => sendChunk recheck (Some e.1) e.2 st) st found).

End WithDocs.

Arguments Sender : clear implicits.

(** The loop [while (retry > 0)] around [processDomain]: [attempt k]
    tells whether the call number [k] goes through.  The result gives the
    number of calls made, the cool-downs (in seconds) waited in between,
    and whether the domain was restored. *)
Fixpoint retryLoop (retry : nat) (delay : nat) (attempt : nat -> bool) (k : nat)
  : nat * list nat * bool :=
  match retry with
  | O => (0, [], false)
  | S retry' =>
      if attempt k then (1, [], true)
      else
        let '(calls, waits, ok) :=
          retryLoop retry' (if retry' =? 0 then delay else S delay) attempt (S k) in
        (S calls, (if retry' =? 0 then [] else [delay]) ++ waits, ok)
  end.

Definition processWithRetry (attempt : nat -> bool) : nat * list nat * bool :=
  retryLoop 5 1 attempt 0.

(** The domains [restore] goes through: those of the snapshots it
    restores from and those of the hierarchy, without the fulltext domain,
    then what [opt.include] and [opt.skip] leave.  The order in which the
    [Set] is gone through is not kept. *)
Definition domainsOf (snapshots : list Backup.BackupSnapshot) (allDomains : list string)
  : gset string :=
  ((⋃ ((fun s => dom (Backup.domains s)) <$> snapshots)) ∪ list_to_set allDomains)
  ∖ {[ Backup.DOMAIN_FULLTEXT_BLOB ]}.

(** The two [continue] tests of the loop over the domains. *)
Definition allowed (include skip : option (gset string)) (c : string) : bool :=
  match include with
  | Some inc => bool_decide (c ∈ inc)
  | None => true
  end
  && match skip with
     | Some sk => negb (bool_decide (c ∈ sk))
     | None => true
     end.

Definition domainsToProcess (snapshots : list Backup.BackupSnapshot)
    (allDomains : list string) (include skip : option (gset string)) : gset string :=
  filter (fun c => allowed include skip c = true) (domainsOf snapshots allDomains).

End Restore.

(* ===================================================================== *)
(** ** server/backup/src/backup.ts: cleanDomain, over a live cursor       *)
(* ===================================================================== *)

Module Clone.

Section WithServer.
(** The server the connection talks to is a [BackupClientOps]; [docId] is
    the [id] of a [DocInfo]; [recheck] is what the server's [find] is
    given for the argument [cleanDomain] leaves out. *)
Context {DocInfo : Type}.
Variable estimateDocSize : DocInfo -> Z.
Variable find : string -> bool -> list DocInfo.
Variable docId : DocInfo -> string.
Variable recheck : bool.

(** The first loop of [cleanDomain].  [throws call] tells whether the
    call number [call] of [connection.loadChunk] throws; the cursor is
    closed then, and the loop goes on with the same [idx].  [fuel] bounds
    the turns of the loop. *)
Fixpoint loadAll (fuel : nat) (throws : nat -> bool) (call : nat)
    (st : BackupClientOps.State DocInfo) (domain : string) (idx : option nat)
    (ids : list string) : option (BackupClientOps.State DocInfo * list string) :=
  match fuel with
  | O => None
  | S fuel' =>
      if throws call then
        let st := match idx with
                  | Some i => BackupClientOps.closeChunk st i
                  | None => st
                  end in
        loadAll fuel' throws (S call) st domain idx ids
      else
        let '(st, it) := BackupClientOps.loadChunk estimateDocSize find st domain idx recheck in
        let ids := ids ++ map docId (BackupClientOps.rDocs it) in
        if BackupClientOps.rFinished it then Some (st, ids)
        else loadAll fuel' throws (S call) st domain (Some (BackupClientOps.rIdx it)) ids
  end.

(** The second loop: the batches handed to [connection.clean], and
    whether all the calls went through ([cleanOk i] tells whether the
    [i]-th does; an exception ends [cleanDomain]). *)
Fixpoint cleanBatches (fuel : nat) (cleanOk : nat -> bool) (i : nat) (ids : list string)
  : list (list string) * bool :=
  match fuel with
  | O => ([], true)
  | S fuel' =>
      if 0 <? length ids then
        let '(part, ids) := Js.splice0 (Some 5000%Z) ids in
        if cleanOk i then
          let '(parts, ok) := cleanBatches fuel' cleanOk (S i) ids in
          (part :: parts, ok)
        else ([part], false)
      else ([], true)
  end.

Definition cleanDomain (fuel : nat) (throws cleanOk : nat -> bool)
    (st : BackupClientOps.State DocInfo) (domain : string)
  : option (BackupClientOps.State DocInfo * list (list string) * bool) :=
  match loadAll fuel throws 0 st domain None [] with
  | None => None
  | Some (st, ids) =>
      let '(parts, ok) := cleanBatches (length ids) cleanOk 0 ids in
      Some (st, parts, ok)
  end.

End WithServer.

End Clone.

(* ===================================================================== *)
(** ** server/ws/src/server.ts: maintenance warnings                      *)
(* ===================================================================== *)

Module Maintenance.
Import SessionManager.

(** The [target] argument of [broadcastAll]: one user or an array. *)
Inductive Target :=
| One (user : string)
| Many (users : list string).

(** [broadcastAll(workspace, tx, target, exclude)]: the sessions the
    transactions are sent to, one [sendResponse] each.  The sessions are
    walked in the order of the finite map. *)
Definition broadcastAll (w : Workspace) (target : option Target)
    (exclude : option (list string)) : list SessionRef :=
  if upgrade w then []
  else
    let target :=
      match target with
      | Some (One u) => Some [u]
      | Some (Many l) => Some l
      | None => None
      end in
    List.filter
      (fun it =>
         let tt := user (session it) in
         (bool_decide (target = None) && negb (bool_decide (tt ∈ default [] exclude)))
         || match target with
            | Some l => bool_decide (tt ∈ l)
            | None => false
            end)
      ((map_to_list (wsSessions w)).*2).

(** What the countdown does that can be seen: a timer fires after the
    delay it was set with; a maintenance notification with
    [params.timeMinutes] is sent to a session. *)
Inductive Event :=
| Timeout (delay : Z)
| Sent (to : SessionRef) (minutes : Z).

(** [timeMinutes], the pending [maintenanceTimer] (by its delay), and the
    events so far. *)
Record State := {
  timeMinutes : Z;
  maintenanceTimer : option Z;
  trace : list Event
}.

Definition push (st : State) (e : Event) : State :=
  {| timeMinutes := timeMinutes st; maintenanceTimer := maintenanceTimer st;
     trace := trace st ++ [e] |}.

Definition setMinutes (st : State) (n : Z) : State :=
  {| timeMinutes := n; maintenanceTimer := maintenanceTimer st; trace := trace st |}.

Definition setTimer (st : State) (t : option Z) : State :=
  {| timeMinutes := timeMinutes st; maintenanceTimer := t; trace := trace st |}.

Definition sendMaintenanceWarning (workspaces : gmap string Workspace) (st : State) : State :=
  if bool_decide (timeMinutes st = 0%Z) then st
  else
    foldl (fun st w =>
             foldl (fun st r => push st (Sent r (timeMinutes st))) st
                   (broadcastAll w None None))
          st ((map_to_list workspaces).*2).

Definition nextTime (st : State) : Z :=
  if (1 <? timeMinutes st)%Z then (60 * 1000)%Z else (timeMinutes st * 60 * 1000)%Z.

(** The timer's callback, run against the workspaces of that moment. *)
Definition showMaintenance (workspaces : gmap string Workspace) (st : State) : State :=
  let st :=
    if (1 <? timeMinutes st)%Z then
      let st := setMinutes st (timeMinutes st - 1) in
      setTimer st (Some (nextTime st))
    else setMinutes st 0 in
  sendMaintenanceWarning workspaces st.

Definition scheduleMaintenance (workspaces : gmap string Workspace) (minutes : Z)
    (st : State) : State :=
  let st := setMinutes st minutes in
  let st := sendMaintenanceWarning workspaces st in
  setTimer st (Some (nextTime st)).

(** The timers that fire, one after the other; [wss] gives the
    workspaces the manager holds at each firing. *)
Fixpoint run (wss : list (gmap string Workspace)) (st : State) : State :=
  match maintenanceTimer st, wss with
  | Some delay, ws :: rest =>
      run rest (showMaintenance ws (push (setTimer st None) (Timeout delay)))
  | _, _ => st
  end.

End Maintenance.

(* ===================================================================== *)
(** ** Specification-side definitions                                     *)
(* ===================================================================== *)

(** A decimal numeral: only digit characters, at least one. *)
Fixpoint allDigits (s : string) : Prop :=
  match s with
  | EmptyString => True
  | String c rest => (exists d, d < 10 /\ c = Js.digitChar d) /\ allDigits rest
  end.

(** The text of an [id;hash] line and of a whole file as a list of lines. *)
Definition entryText (kv : string * string) : string := kv.1 +:+ ";" +:+ kv.2.

Definition joinLines (ls : list string) : string :=
  Backup.concatLines (map (fun l => l +:+ Js.newline) ls).

Definition snapshotLines (changes : Backup.Snapshot) : list string :=
  Js.numberToString (length (Backup.added changes))
  :: map entryText (Backup.added changes)
  ++ Js.numberToString (length (Backup.updated changes))
  :: map entryText (Backup.updated changes)
  ++ Js.numberToString (length (Backup.removed changes))
  :: Backup.removed changes.

(** The digest as the specification describes it: the chain of change
    sets is folded in order, each one applied as added, then updated, then
    removed. *)
Module DigestSpec.
Import Backup.

Definition applyChanges (digest : gmap string Hash) (c : ParsedSnapshot)
  : gmap string Hash :=
  deleteAll (pRemoved c) (setAll (pUpdated c) (setAll (pAdded c) digest)).

Definition foldDigest (chain : list ParsedSnapshot) : gmap string Hash :=
  foldl applyChanges ∅ chain.

(** The snapshots up to and including the first one taken at the target
    date; all of them when there is no target date. *)
Fixpoint upTo (target : option Z) (ss : list BackupSnapshot) : list BackupSnapshot :=
  match ss with
  | [] => []
  | s :: rest =>
      s :: (if decide (target = Some (date s)) then [] else upTo target rest)
  end.

Definition ofV6 (v : SnapshotV6) : ParsedSnapshot :=
  {| pAdded := map withHash (added6 v);
     pUpdated := map withHash (updated6 v);
     pRemoved := removed6 v |}.

(** The change sets one backup snapshot holds for a domain: the legacy
    JSON snapshot when there is one, then every readable snapshot file.
    [None] when the legacy snapshot cannot be read. *)
Definition changesOf (st : DigestStorage) (domain : string) (s : BackupSnapshot)
  : option (list ParsedSnapshot) :=
  let d := domains s !! domain in
  legacy ← match d ≫= snapshot with
           | None => Some []
           | Some name => (fun v => [ofV6 v]) <$> (loadFile st name ≫= parseV6 st)
           end;
  Some (legacy ++ omap (fun f => parseSnapshotFile <$> loadFile st f) (snapshotFiles d)).

Fixpoint chain (st : DigestStorage) (domain : string) (ss : list BackupSnapshot)
  : option (list ParsedSnapshot) :=
  match ss with
  | [] => Some []
  | s :: rest =>
      cs ← changesOf st domain s;
      r ← chain st domain rest;
      Some (cs ++ r)
  end.

(** What a digest holds for the id [k] once one change set has been
    applied, [before] being what it held: nothing when the id is among
    the removed ones; otherwise the hash of the last entry for [k], the
    updated entries coming after the added ones; otherwise what it held. *)
Definition lookupAfter (c : ParsedSnapshot) (before : option Hash) (k : string)
  : option Hash :=
  if bool_decide (k ∈ pRemoved c) then None
  else match last (filter (fun e => e.1 = k) (pAdded c ++ pUpdated c)) with
       | Some e => Some e.2
       | None => before
       end.

(** What the digest of a chain of change sets holds for [k]: the change
    sets one after the other, from an empty digest. *)
Definition digestAt (chain : list ParsedSnapshot) (k : string) : option Hash :=
  foldl (fun before c => lookupAfter c before k) None chain.

End DigestSpec.

(** Sample data for the worked instances below. *)
Definition sampleChanges : Backup.Snapshot :=
  {| Backup.added := [("doc1", "h1"); ("doc2", "h2")];
     Backup.updated := [("doc3", "h3")];
     Backup.removed := ["doc4"; "doc5"] |}.

Definition sampleEffect : Backup.DomainEffect :=
  {| Backup.inMemory := None; Backup.flushed := None; Backup.filesWritten := [];
     Backup.canceledDuring := false; Backup.threw := false |}.

Definition sampleEnv : Backup.Env :=
  {| Backup.workspaceName := "ws1";
     Backup.lastTx := Some "tx1";
     Backup.hierarchyDomains := ["tx"; "model"; "blob"; "fulltext-blob"];
     Backup.now := 1700000000000;
     Backup.canceledAtStart := false;
     Backup.domainRun := fun _ => sampleEffect |}.

Definition sampleOptions : Backup.Options :=
  {| Backup.force := false; Backup.skipDomains := []; Backup.include := None |}.

Definition emptyStorage : Backup.Storage :=
  {| Backup.info := None; Backup.written := [] |}.

(** **** The session manager's bookkeeping *)

Module ManagerSpec.
Import SessionManager.

(** The workspace [wsId] is live and holds [r] under the session id [sid]. *)
Definition hasSession (m : Manager) (wsId sid : string) (r : SessionRef) : Prop :=
  exists w, workspaces m !! wsId = Some w /\ wsSessions w !! sid = Some r.

(** What [addSession] establishes and [close] keeps: the socket of every
    session a workspace holds is registered in the manager's own map, under
    an entry with that session id, and no two sessions share a socket. *)
Definition Registered (m : Manager) : Prop :=
  forall wsId sid r, hasSession m wsId sid r ->
    exists r', sessions m !! socket r = Some r'
      /\ sessionId (session r') = sid /\ socket r' = socket r.

Definition SocketsUnique (m : Manager) : Prop :=
  forall wsId1 sid1 r1 wsId2 sid2 r2,
    hasSession m wsId1 sid1 r1 -> hasSession m wsId2 sid2 r2 ->
    socket r1 = socket r2 -> wsId1 = wsId2 /\ sid1 = sid2.

Definition Consistent (m : Manager) : Prop := Registered m /\ SocketsUnique m.

(** The session [sid] of [wsId] has been closed: the workspace no longer
    holds it, its socket is no longer registered, and the socket was told
    to close. *)
Definition sessionClosed (m : Manager) (wsId sid socketId : string) : Prop :=
  (forall w, workspaces m !! wsId = Some w -> wsSessions w !! sid = None)
  /\ sessions m !! socketId = None
  /\ SocketClosed socketId ∈ events m.

(** The session is still held, on the same socket, with the same user and
    the same last request. *)
Definition sessionKept (m : Manager) (wsId sid : string) (r : SessionRef) : Prop :=
  exists r', hasSession m wsId sid r'
    /\ socket r' = socket r
    /\ user (session r') = user (session r)
    /\ lastRequest (session r') = lastRequest (session r).

(** [w1] is [w] up to its sessions, of which it holds no more. *)
Definition sameBut (w w1 : Workspace) : Prop :=
  id w1 = id w
  /\ softShutdown w1 = softShutdown w
  /\ closing w1 = closing w
  /\ upgrade w1 = upgrade w
  /\ backup w1 = backup w
  /\ dom (wsSessions w1) ⊆ dom (wsSessions w).

(** [w1] is [w] with the same sessions, up to their counters. *)
Definition sameDom (w w1 : Workspace) : Prop :=
  sameBut w w1 /\ dom (wsSessions w) ⊆ dom (wsSessions w1).

(** What a step that works on the workspace [wsId] does to the
    workspaces: any other one is untouched, and [wsId] itself changes
    within [rel]. *)
Definition evolves (rel : Workspace -> Workspace -> Prop) (m m' : Manager)
    (wsId : string) : Prop :=
  (forall x, x <> wsId -> workspaces m' !! x = workspaces m !! x)
  /\ (forall w, workspaces m !! wsId = Some w ->
        exists w1, workspaces m' !! wsId = Some w1 /\ rel w w1)
  /\ (workspaces m !! wsId = None -> workspaces m' !! wsId = None).

(** The ids captured by the close checks started for [wsId], oldest first. *)
Definition closeChecks (wsId : string) (es : list Event) : list string :=
  omap (fun e => match e with
                 | CloseCheckStarted x uid => if decide (x = wsId) then Some uid else None
                 | _ => None
                 end) es.

(** Two entries for the same connection: the counters may differ. *)
Definition sameRef (r r' : SessionRef) : Prop :=
  socket r = socket r'
  /\ user (session r) = user (session r')
  /\ lastRequest (session r) = lastRequest (session r').

(** The followed session [S] of [W] is held and registered. *)
Definition alive (W S : string) (R : SessionRef) (m : Manager) : Prop :=
  (exists r, hasSession m W S r /\ sameRef r R)
  /\ exists r', sessions m !! socket R = Some r'
       /\ sessionId (session r') = S /\ socket r' = socket R.

(** No other session can be mistaken for the followed one. *)
Definition apart (W S : string) (R : SessionRef) (m : Manager) : Prop :=
  forall wsId sid r, hasSession m wsId sid r -> (wsId <> W \/ sid <> S) ->
    socket r <> socket R
    /\ (wsId = W -> forall r'', sessions m !! socket r = Some r'' ->
                     sessionId (session r'') <> S).

(** [m'] holds no session, registration or event that [m] did not
    announce: sessions and registrations only go away, events only add. *)
Definition shrinks (m m' : Manager) : Prop :=
  (forall wsId sid r', hasSession m' wsId sid r' ->
     exists r, hasSession m wsId sid r /\ sameRef r r')
  /\ (forall k r, sessions m' !! k = Some r -> sessions m !! k = Some r)
  /\ (forall e, e ∈ events m -> e ∈ events m')
  /\ ticks m' = ticks m.

End ManagerSpec.

Definition sampleSystemEmail : string := "system@example.org".

Definition sampleSession (u : string) : SessionManager.Session :=
  {| SessionManager.sessionId := "s1"; SessionManager.user := u;
     SessionManager.lastRequest := 0; SessionManager.requests := [];
     SessionManager.currentFind := 0; SessionManager.currentTx := 0;
     SessionManager.mins5Find := 0; SessionManager.mins5Tx := 0 |}.

Definition sampleRef (u : string) : SessionManager.SessionRef :=
  {| SessionManager.session := sampleSession u; SessionManager.socket := "sock1" |}.

Definition sampleWorkspace (u : string) : SessionManager.Workspace :=
  {| SessionManager.id := "uid1";
     SessionManager.wsSessions := {[ "s1" := sampleRef u ]};
     SessionManager.softShutdown := 3;
     SessionManager.closing := false;
     SessionManager.upgrade := false;
     SessionManager.backup := false |}.

(** One live workspace with one session of user [u], registered. *)
Definition sampleManager (u : string) : SessionManager.Manager :=
  {| SessionManager.workspaces := {[ "ws1" := sampleWorkspace u ]};
     SessionManager.sessions := {[ "sock1" := sampleRef u ]};
     SessionManager.ticks := 0;
     SessionManager.modelVersion := "0.6.1";
     SessionManager.events := [] |}.

(** A workspace without sessions whose close is already in flight. *)
Definition closingManager : SessionManager.Manager :=
  {| SessionManager.workspaces :=
       {[ "ws1" := {| SessionManager.id := "uid1";
                      SessionManager.wsSessions := ∅;
                      SessionManager.softShutdown := 0;
                      SessionManager.closing := true;
                      SessionManager.upgrade := false;
                      SessionManager.backup := false |} ]};
     SessionManager.sessions := ∅;
     SessionManager.ticks := 4;
     SessionManager.modelVersion := "0.6.1";
     SessionManager.events := [] |}.

(** A tick that finds no session and no close in flight. *)
Definition quietMove (move : gmap string SessionManager.SessionRef * bool) : Prop :=
  size move.1 = 0 /\ move.2 = false.

Definition sampleVersionToString (v : SessionManager.Version) : string :=
  Js.numberToString (SessionManager.major v) +:+ "."
  +:+ Js.numberToString (SessionManager.minor v) +:+ "."
  +:+ Js.numberToString (SessionManager.patch v).

(** A workspace at version 0.6.0, reported by the accounts service. *)
Definition sampleInfo (isCreating : bool) : SessionManager.WorkspaceLoginInfo :=
  {| SessionManager.creating := Some isCreating;
     SessionManager.version :=
       Some {| SessionManager.major := 0; SessionManager.minor := 6;
               SessionManager.patch := 0 |};
     SessionManager.infoUpgrade := None;
     SessionManager.workspaceId := "ws1";
     SessionManager.workspaceUrl := Some "ws1";
     SessionManager.workspaceName := Some "ws1" |}.

Definition sampleAddEnv (isCreating : bool) : SessionManager.AddSessionEnv :=
  {| SessionManager.accountsUrl := "http://accounts";
     SessionManager.fetch := fun _ => SessionManager.FetchOk (Some (sampleInfo isCreating));
     SessionManager.awaitClosing := fun m => m;
     SessionManager.pipelineThrows := None;
     SessionManager.sessionFactory := fun token => sampleSession (SessionManager.email token);
     SessionManager.newWorkspaceId := "uid2";
     SessionManager.newSessionId := "s2" |}.

Definition sampleToken (claims : option SessionManager.TokenExtra) : SessionManager.Token :=
  {| SessionManager.email := "user@example.org";
     SessionManager.workspace := "ws1";
     SessionManager.extra := claims |}.

Definition backupClaim : SessionManager.TokenExtra :=
  {| SessionManager.admin := None; SessionManager.model := None;
     SessionManager.mode := Some "backup" |}.

(** Four documents of 200 characters each, as a [FindResult] with its
    total and no lookup map; [toFindResult] as it wraps an array. *)
Definition sampleToFindResult (l : list nat) : Send.FindResult nat unit :=
  {| Send.docs := l; Send.total := Some (Z.of_nat (length l)); Send.lookupMap := None |}.

Definition sampleResponse : Send.Response nat unit :=
  {| Send.id := Some 7%Z;
     Send.result :=
       Send.ArrayResult
         {| Send.docs := [200; 200; 200; 200];
            Send.total := Some 4%Z;
            Send.lookupMap := Some tt |} |}.

Module MoveSpec.

(** No call outside the copy throws while the blob is processed. *)
Definition quiet (c : MoveFiles.Calls) : Prop :=
  MoveFiles.aggrStat c <> MoveFiles.Thrown
  /\ MoveFiles.syncExisting c <> MoveFiles.Thrown
  /\ MoveFiles.sourceStat c <> MoveFiles.Thrown.

(** One of the five attempts to copy the blob goes through. *)
Definition copied (c : MoveFiles.Calls) : Prop :=
  exists attempt b, attempt < 5 /\ MoveFiles.copyAttempt c attempt = MoveFiles.Returned b.

(** The copy fails after the per-blob retries. *)
Definition copyFails (c : MoveFiles.Calls) : Prop :=
  forall attempt, attempt < 5 -> MoveFiles.copyAttempt c attempt = MoveFiles.Thrown.

(** The blob is on the target: it was listed there, or it has been copied. *)
Definition onTarget (targetBlobs : gmap string MoveFiles.Blob) (c : MoveFiles.Calls)
    (data : MoveFiles.Blob) : Prop :=
  is_Some (targetBlobs !! MoveFiles._id data)
  \/ (targetBlobs !! MoveFiles._id data = None /\ copied c).

(** [source.stat] answers with the blob it was asked for. *)
Definition statFaithful (c : MoveFiles.Calls) (data : MoveFiles.Blob) : Prop :=
  forall sb, MoveFiles.sourceStat c = MoveFiles.Returned (Some sb) ->
             MoveFiles._id sb = MoveFiles._id data.

(** The blob is on the target once it has been processed: the target
    listed it, or the source has it and one of the five attempts to copy
    it goes through. *)
Definition settled (targetBlobs : gmap string MoveFiles.Blob) (c : MoveFiles.Calls)
    (data : MoveFiles.Blob) : Prop :=
  is_Some (targetBlobs !! MoveFiles._id data)
  \/ (targetBlobs !! MoveFiles._id data = None
      /\ (exists sb, MoveFiles.sourceStat c = MoveFiles.Returned (Some sb))
      /\ copied c).

(** The blob has been dealt with: queued, reported missing, or reported
    failed. *)
Definition visited (st : MoveFiles.State) (data : MoveFiles.Blob) : Prop :=
  In (MoveFiles._id data) (MoveFiles.toRemove st)
  \/ In (MoveFiles.BlobNotFound (MoveFiles._id data)) (MoveFiles.events st)
  \/ In (MoveFiles.FailedToProcess (MoveFiles._id data)) (MoveFiles.events st).

End MoveSpec.

Definition sampleBlob (id : string) : MoveFiles.Blob :=
  {| MoveFiles._id := id; MoveFiles.size := 10; MoveFiles.provider := "minio" |}.

(** The copy of blob number 1 never goes through; every other call does. *)
Definition sampleCalls (k : nat) : MoveFiles.Calls :=
  {| MoveFiles.aggrStat := MoveFiles.Returned None;
     MoveFiles.syncExisting := MoveFiles.Returned (sampleBlob "t");
     MoveFiles.sourceStat :=
       MoveFiles.Returned (Some (sampleBlob (nth k ["a"; "b"; "c"] "a")));
     MoveFiles.copyAttempt := fun _ =>
       if k =? 1 then MoveFiles.Thrown
       else MoveFiles.Returned (sampleBlob (nth k ["a"; "b"; "c"] "a")) |}.

Definition sampleListing : list (list MoveFiles.Blob) :=
  [[sampleBlob "a"; sampleBlob "b"]; [sampleBlob "c"]; []].

Definition sampleSource : gmap string MoveFiles.Blob :=
  <["a" := sampleBlob "a"]> (<["b" := sampleBlob "b"]> (<["c" := sampleBlob "c"]> ∅)).

(** **** Cursors of [BackupClientOps] *)

Module CursorSpec.

(** The size estimate of a list of documents. *)
Definition sizeOf {DocInfo} (estimateDocSize : DocInfo -> Z) (docs : list DocInfo) : Z :=
  foldr (fun doc s => (estimateDocSize doc + s)%Z) 0%Z docs.

(** Every cursor in use was handed out by the counter: callers only pass
    an index that an earlier call returned. *)
Definition allocated {DocInfo} (st : BackupClientOps.State DocInfo) : Prop :=
  forall k, is_Some (BackupClientOps.chunkInfo st !! k) -> k < BackupClientOps.idIndex st.

End CursorSpec.

(** **** The changes a walk of a domain collects *)

Module ChangesSpec.

(** What replaying a walk's result does to the digest the walk started
    from: the entries of [changes.added], then those of [changes.updated],
    then the ids left in the digest as removed. *)
Definition replay (digest0 : gmap string Backup.Hash) (st : BackupDomain.State)
  : gmap string Backup.Hash :=
  DigestSpec.applyChanges digest0
    {| Backup.pAdded := Backup.withHash <$> map_to_list (BackupDomain.added st);
       Backup.pUpdated := Backup.withHash <$> map_to_list (BackupDomain.updated st);
       Backup.pRemoved := (map_to_list (BackupDomain.digest st)).*1 |}.

(** The server's documents as a digest. *)
Definition serverDigest (server : gmap string string) : gmap string Backup.Hash :=
  Some <$> server.

(** Every hash the digest holds is defined. *)
Definition hashesDefined (digest : gmap string Backup.Hash) : Prop :=
  forall k, digest !! k <> Some None.

(** The chunks that were loaded show documents of the server, as they
    are, and every document of the server is in one of them. *)
Definition walkOf (server : gmap string string) (answers : list BackupDomain.Answer)
  : Prop :=
  (forall d, d ∈ BackupDomain.loaded answers ->
             server !! BackupDomain.id d = Some (BackupDomain.hash d))
  /\ (forall k, is_Some (server !! k) ->
                exists d, d ∈ BackupDomain.loaded answers /\ BackupDomain.id d = k).

(** What holds of the three maps all along a walk: the changes are
    documents of the server, the digest only loses entries, and an entry it
    has lost is a document of the server that is accounted for. *)
Definition accounted (digest0 : gmap string Backup.Hash) (server : gmap string string)
    (st : BackupDomain.State) : Prop :=
  (forall k h, BackupDomain.added st !! k = Some h -> server !! k = Some h)
  /\ (forall k h, BackupDomain.updated st !! k = Some h -> server !! k = Some h)
  /\ (forall k v, BackupDomain.digest st !! k = Some v -> digest0 !! k = Some v)
  /\ (forall k v, digest0 !! k = Some v -> BackupDomain.digest st !! k = None ->
        exists h, server !! k = Some h
                  /\ (BackupDomain.added st !! k = Some h
                      \/ BackupDomain.updated st !! k = Some h
                      \/ v = Some h)).

(** The document [k] with hash [h] has been met by the walk. *)
Definition seen (digest0 : gmap string Backup.Hash) (st : BackupDomain.State)
    (k h : string) : Prop :=
  BackupDomain.digest st !! k = None
  /\ (BackupDomain.added st !! k = Some h
      \/ BackupDomain.updated st !! k = Some h
      \/ digest0 !! k = Some (Some h)).

(** The ids to retrieve, those already in a chunk and those pending, are
    the ids of the changes, one for each counted change. *)
Definition queued (st : BackupDomain.State) (needRetrieve : list string) : Prop :=
  BackupDomain.changed st
  = length (concat (BackupDomain.needRetrieveChunks st) ++ needRetrieve)
  /\ Forall (fun chunk => chunk <> []) (BackupDomain.needRetrieveChunks st)
  /\ forall k, (is_Some (BackupDomain.added st !! k)
                \/ is_Some (BackupDomain.updated st !! k))
               <-> k ∈ concat (BackupDomain.needRetrieveChunks st) ++ needRetrieve.

End ChangesSpec.

Definition sampleDoc (id hash : string) : BackupDomain.DocInfo :=
  {| BackupDomain.id := id; BackupDomain.hash := hash; BackupDomain.size := 100 |}.

(** A walk that fails after its first chunk and is started again. *)
Definition sampleAnswers : list BackupDomain.Answer :=
  [ BackupDomain.ChunkLoaded
      {| BackupDomain.idx := 0; BackupDomain.docs := [sampleDoc "a" "h1"];
         BackupDomain.finished := false |};
    BackupDomain.ChunkThrows;
    BackupDomain.ChunkLoaded
      {| BackupDomain.idx := 1;
         BackupDomain.docs := [sampleDoc "a" "h1"; sampleDoc "b" "h2"];
         BackupDomain.finished := true |} ].

Definition sampleDigest : gmap string Backup.Hash :=
  <["a" := Some "h1"]> (<["c" := Some "h3"]> ∅).

Definition sampleServer : gmap string string :=
  <["a" := "h1"]> (<["b" := "h2"]> ∅).

(** **** The uploads of [restore] *)

Module UploadSpec.

(** The lengths of a run of documents, added up. *)
Definition total {Doc} (part : list (Doc * Z)) : Z :=
  foldr (fun e s => (e.2 + s)%Z) 0%Z part.

(** A batch holds a document, and stays within the upload size up to
    its last document. *)
Definition bounded {Doc} (part : list (Doc * Z)) : Prop :=
  part <> [] /\ (total (removelast part) <= Restore.dataUploadSize)%Z.

(** What [sendChunk] keeps from call to call: [parts] are the batches
    uploaded, [cur] the documents waiting. *)
Definition sending {Doc} (prep : Doc * Z -> Doc) (st : Restore.Sender Doc)
    (parts : list (list (Doc * Z))) (cur : list (Doc * Z)) : Prop :=
  Restore.uploads st = map (map prep) parts
  /\ Restore.docs st = map prep cur
  /\ Restore.sendSize st = total cur
  /\ (total cur <= Restore.dataUploadSize)%Z
  /\ (cur = [] \/ bounded cur)
  /\ Forall bounded parts.

End UploadSpec.

(** A backup storage in which no file can be read. *)
Definition unreadable : Backup.DigestStorage :=
  {| Backup.loadFile := fun _ => None; Backup.parseV6 := fun _ => None |}.

(** **** The consistency of the manager's two maps *)

Module InvariantSpec.
Import SessionManager ManagerSpec.

(** The socket [k] is not in use: it is not registered, and no session a
    workspace holds is on it. *)
Definition freshSocket (m : Manager) (k : string) : Prop :=
  sessions m !! k = None
  /\ forall wsId sid r, hasSession m wsId sid r -> socket r <> k.

(** A session on the socket [k] can only be one of the workspace
    [wsid]: [close] is called with the workspace the socket was added
    to. *)
Definition ownedBy (m : Manager) (k wsid : string) : Prop :=
  forall wsId sid r, hasSession m wsId sid r -> socket r = k -> wsId = wsid.

End InvariantSpec.

Module MaintenanceSpec.
Import SessionManager Maintenance.

(** Every session of every workspace that is not being upgraded. *)
Definition everyone (workspaces : gmap string Workspace) : list SessionRef :=
  mjoin ((fun w => if upgrade w then [] else (map_to_list (wsSessions w)).*2)
           <$> (map_to_list workspaces).*2).

(** Everyone is told that [n] minutes are left. *)
Definition announce (n : Z) (workspaces : gmap string Workspace) : list Event :=
  (fun r => Sent r n) <$> everyone workspaces.

(** A minute passes and the minutes left, one fewer each time, are
    announced: [k] times, starting below [n]. *)
Fixpoint countdown (k : nat) (n : Z) (wss : list (gmap string Workspace)) : list Event :=
  match k, wss with
  | S k', ws :: rest =>
      Timeout 60000 :: announce (n - 1) ws ++ countdown k' (n - 1) rest
  | _, _ => []
  end.

End MaintenanceSpec.

Definition idle : Maintenance.State :=
  {| Maintenance.timeMinutes := 0; Maintenance.maintenanceTimer := None;
     Maintenance.trace := [] |}.

(** A backup of two snapshots of the domain [tx], one snapshot file each:
    the second one updates [doc1], adds [doc4] again and removes [doc2]. *)
Definition laterChanges : Backup.Snapshot :=
  {| Backup.added := [("doc4", "h4")];
     Backup.updated := [("doc1", "h9")];
     Backup.removed := ["doc2"] |}.

Definition sampleStore : Backup.DigestStorage :=
  {| Backup.loadFile := fun name =>
       if bool_decide (name = "f1") then Some (Backup.writeChanges sampleChanges)
       else if bool_decide (name = "f2") then Some (Backup.writeChanges laterChanges)
       else None;
     Backup.parseV6 := fun _ => None |}.

Definition sampleSnapshot (file : string) (date : Z) : Backup.BackupSnapshot :=
  {| Backup.domains :=
       {[ "tx" := {| Backup.snapshot := None; Backup.snapshots := Some [file];
                     Backup.storage := None; Backup.dAdded := 0;
                     Backup.dUpdated := 0; Backup.dRemoved := 0 |} ]};
     Backup.date := date |}.

Definition sampleChain : list Backup.BackupSnapshot :=
  [sampleSnapshot "f1" 1; sampleSnapshot "f2" 2].

(* SPECDEFS *)

(* ===================================================================== *)
(** * Theorems                                                            *)
(* ===================================================================== *)


(** *** JavaScript primitives *)

Lemma string_app_cons x (a b : string) : String x a +:+ b = String x (a +:+ b).
Proof. reflexivity. Qed.

Lemma string_app_nil (b : string) : "" +:+ b = b.
Proof. reflexivity. Qed.

Lemma string_app_assoc (a b c : string) : (a +:+ b) +:+ c = a +:+ (b +:+ c).
Proof.
  induction a as [|x a IH]; [reflexivity|].
  rewrite !string_app_cons. by rewrite IH.
Qed.

Lemma split_not_nil sep s : Js.split sep s <> [].
Proof.
  destruct s as [|c s]; simpl; [done|].
  destruct (Ascii.eqb c sep); [done|]. by destruct (Js.split sep s).
Qed.

Lemma split_plain sep s : Js.contains sep s = false -> Js.split sep s = [s].
Proof.
  induction s as [|c s IH]; simpl; [done|].
  destruct (Ascii.eqb c sep); simpl; [done|].
  intros H. by rewrite (IH H).
Qed.

Lemma split_app_sep sep s t :
  Js.contains sep s = false ->
  Js.split sep (s +:+ String sep t) = s :: Js.split sep t.
Proof.
  induction s as [|c s IH].
  - rewrite string_app_nil. simpl. by rewrite Ascii.eqb_refl.
  - rewrite string_app_cons. simpl.
    destruct (Ascii.eqb c sep); simpl; [done|].
    intros H. by rewrite (IH H).
Qed.

Lemma digitValue_digitChar d : d < 10 -> Js.digitValue (Js.digitChar d) = Some (Z.of_nat d).
Proof.
  intros H. do 10 (destruct d as [|d]; [reflexivity|]). lia.
Qed.

Lemma parseDigits_digit seen v d rest : d < 10 ->
  Js.parseDigits 10 seen v (String (Js.digitChar d) rest)
  = Js.parseDigits 10 true (v * 10 + Z.of_nat d)%Z rest.
Proof.
  intros H. do 10 (destruct d as [|d]; [reflexivity|]). lia.
Qed.

Lemma digitsAux_S f n acc :
  Js.digitsAux (S f) n acc =
  if n / 10 =? 0 then String (Js.digitChar (n mod 10)) acc
  else Js.digitsAux f (n / 10) (String (Js.digitChar (n mod 10)) acc).
Proof. reflexivity. Qed.

Lemma parseDigits_digitsAux fuel : forall n acc, n < fuel ->
  exists k : nat, forall seen v,
    Js.parseDigits 10 seen v (Js.digitsAux fuel n acc)
    = Js.parseDigits 10 true (v * 10 ^ Z.of_nat k + Z.of_nat n)%Z acc.
Proof.
  induction fuel as [|f IH]; intros n acc Hn; [lia|].
  rewrite digitsAux_S.
  pose proof (Nat.mod_upper_bound n 10 ltac:(lia)) as Hm.
  pose proof (Nat.div_mod_eq n 10) as Hdm.
  destruct (n / 10 =? 0) eqn:Hq.
  - apply Nat.eqb_eq in Hq. exists 1. intros seen v.
    rewrite (parseDigits_digit _ _ _ _ Hm). f_equal. lia.
  - apply Nat.eqb_neq in Hq.
    destruct (IH (n / 10) (String (Js.digitChar (n mod 10)) acc) ltac:(lia)) as [k Hk].
    exists (S k). intros seen v. rewrite Hk.
    rewrite (parseDigits_digit _ _ _ _ Hm).
    f_equal. rewrite Nat2Z.inj_succ, Z.pow_succ_r by lia.
    assert (Z.of_nat n = 10 * Z.of_nat (n / 10) + Z.of_nat (n mod 10))%Z by lia.
    lia.
Qed.

Lemma digitsAux_allDigits fuel : forall n acc,
  allDigits acc -> allDigits (Js.digitsAux fuel n acc).
Proof.
  induction fuel as [|f IH]; intros n acc Hacc; [done|].
  rewrite digitsAux_S.
  pose proof (Nat.mod_upper_bound n 10 ltac:(lia)) as Hm.
  assert (allDigits (String (Js.digitChar (n mod 10)) acc)) by (split; eauto).
  destruct (n / 10 =? 0); [done|]. by apply IH.
Qed.

Lemma digitsAux_not_empty fuel n acc : Js.digitsAux (S fuel) n acc <> EmptyString.
Proof.
  revert n acc. induction fuel as [|f IH]; intros n acc; rewrite digitsAux_S.
  - by destruct (n / 10 =? 0).
  - destruct (n / 10 =? 0); [done | apply IH].
Qed.

Ltac parseInt_by_cases :=
  unfold Js.parseInt; simpl;
  try match goal with
      | |- context [Js.parseDigits ?a ?b ?c ?r] => destruct (Js.parseDigits a b c r)
      end;
  reflexivity.

Lemma parseInt_allDigits s :
  allDigits s -> s <> EmptyString -> Js.parseInt s = Js.parseDigits 10 false 0 s.
Proof.
  destruct s as [|c s]; [done|]. intros [(d & Hd & ->) Hs] _.
  destruct d as [|d].
  - destruct s as [|c2 s]; [reflexivity|].
    destruct Hs as [(d2 & Hd2 & ->) _].
    do 10 (destruct d2 as [|d2]; [parseInt_by_cases|]). lia.
  - do 9 (destruct d as [|d]; [parseInt_by_cases|]). lia.
Qed.

Lemma parseInt_numberToString n : Js.parseInt (Js.numberToString n) = Some (Z.of_nat n).
Proof.
  unfold Js.numberToString.
  rewrite parseInt_allDigits.
  - destruct (parseDigits_digitsAux (S n) n EmptyString ltac:(lia)) as [k Hk].
    rewrite Hk. simpl. f_equal; lia.
  - by apply digitsAux_allDigits.
  - apply digitsAux_not_empty.
Qed.

Lemma contains_numberToString n : Js.contains Js.LF (Js.numberToString n) = false.
Proof.
  unfold Js.numberToString.
  assert (H : forall s, allDigits s -> Js.contains Js.LF s = false).
  { induction s as [|c s IH]; simpl; [done|]. intros [(d & Hd & ->) Hs].
    rewrite (IH Hs), orb_false_r.
    do 10 (destruct d as [|d]; [reflexivity|]). lia. }
  apply H. by apply digitsAux_allDigits.
Qed.

Lemma contains_app c (a b : string) :
  Js.contains c (a +:+ b) = Js.contains c a || Js.contains c b.
Proof.
  induction a as [|x a IH]; [reflexivity|].
  rewrite string_app_cons. simpl. by rewrite IH, orb_assoc.
Qed.

Lemma splice0_app {A} (l rest : list A) :
  Js.splice0 (Some (Z.of_nat (length l))) (l ++ rest) = (l, rest).
Proof.
  unfold Js.splice0.
  replace (Z.to_nat (Z.max 0 (Z.of_nat (length l)))) with (length l) by lia.
  by rewrite take_app_length, drop_app_length.
Qed.

(** *** The snapshot file format *)

Lemma joinLines_cons l ls : joinLines (l :: ls) = l +:+ String Js.LF (joinLines ls).
Proof. unfold joinLines. simpl. by rewrite string_app_assoc. Qed.

Lemma joinLines_app ls1 ls2 : joinLines (ls1 ++ ls2) = joinLines ls1 +:+ joinLines ls2.
Proof.
  induction ls1 as [|l ls1 IH]; [reflexivity|].
  rewrite <- app_comm_cons, !joinLines_cons, IH.
  by rewrite string_app_assoc, string_app_cons.
Qed.

Lemma joinLines_entries es :
  Backup.concatLines (map Backup.entryLine es) = joinLines (map entryText es).
Proof.
  unfold joinLines. rewrite map_map. f_equal. apply map_ext. intros [k v].
  unfold Backup.entryLine, entryText. simpl. by rewrite !string_app_assoc.
Qed.

Lemma writeChanges_lines changes :
  Backup.writeChanges changes = joinLines (snapshotLines changes).
Proof.
  unfold Backup.writeChanges, snapshotLines.
  rewrite !joinLines_entries.
  change (Backup.concatLines (map Backup.idLine (Backup.removed changes)))
    with (joinLines (Backup.removed changes)).
  rewrite joinLines_cons, joinLines_app, joinLines_cons, joinLines_app, joinLines_cons.
  reflexivity.
Qed.

Lemma split_joinLines ls :
  Forall (fun l => Js.contains Js.LF l = false) ls ->
  Js.split Js.LF (joinLines ls) = ls ++ [""].
Proof.
  induction 1 as [|l ls Hl _ IH]; [reflexivity|].
  by rewrite joinLines_cons, split_app_sep, IH.
Qed.

Lemma plainField_spec s :
  Backup.plainField s = true ->
  Js.contains ";" s = false /\ Js.contains Js.LF s = false.
Proof.
  unfold Backup.plainField. intros [H1 H2]%andb_prop.
  by apply negb_true_iff in H1, H2.
Qed.

Lemma splitEntry_entryText kv :
  Backup.plainEntry kv = true ->
  Backup.splitEntry (entryText kv) = Backup.withHash kv.
Proof.
  destruct kv as [k v]. unfold Backup.plainEntry. simpl.
  intros [[Hk _]%plainField_spec [Hv _]%plainField_spec]%andb_prop.
  unfold Backup.splitEntry, entryText. simpl.
  change (k +:+ ";" +:+ v) with (k +:+ String ";" v).
  by rewrite split_app_sep, split_plain.
Qed.

Lemma entryText_no_LF kv :
  Backup.plainEntry kv = true -> Js.contains Js.LF (entryText kv) = false.
Proof.
  destruct kv as [k v]. unfold Backup.plainEntry. simpl.
  intros [[_ Hk]%plainField_spec [_ Hv]%plainField_spec]%andb_prop.
  unfold entryText. simpl. rewrite !contains_app, Hk, Hv. reflexivity.
Qed.

Lemma snapshotLines_no_LF changes :
  Backup.plainChanges changes = true ->
  Forall (fun l => Js.contains Js.LF l = false) (snapshotLines changes).
Proof.
  unfold Backup.plainChanges.
  intros [[Ha Hu]%andb_prop Hr]%andb_prop.
  rewrite forallb_forall in Ha, Hu, Hr.
  unfold snapshotLines.
  assert (He : forall es, (forall x, In x es -> Backup.plainEntry x = true) ->
               Forall (fun l => Js.contains Js.LF l = false) (map entryText es)).
  { intros es Hes. apply Forall_forall.
    intros l (kv & -> & Hin%list_elem_of_In)%list_elem_of_fmap.
    apply entryText_no_LF. by apply Hes. }
  constructor; [apply contains_numberToString|].
  apply Forall_app_2; [by apply He|].
  constructor; [apply contains_numberToString|].
  apply Forall_app_2; [by apply He|].
  constructor; [apply contains_numberToString|].
  apply Forall_forall. intros l Hin%list_elem_of_In.
  apply negb_true_iff. by apply Hr.
Qed.

(** *** loadDigest *)

Lemma applySnapshotLines_parse dataBlob result :
  Backup.applySnapshotLines dataBlob result
  = DigestSpec.applyChanges result (Backup.parseSnapshotLines dataBlob).
Proof.
  unfold Backup.applySnapshotLines, Backup.parseSnapshotLines, DigestSpec.applyChanges.
  destruct (Js.shiftOr "0" dataBlob) as [l1 b1].
  destruct (Js.splice0 (Js.parseInt l1) b1) as [a b2].
  destruct (Js.shiftOr "0" b2) as [l2 b3].
  destruct (Js.splice0 (Js.parseInt l2) b3) as [u b4].
  destruct (Js.shiftOr "0" b4) as [l3 b5].
  destruct (Js.splice0 (Js.parseInt l3) b5) as [r b6].
  reflexivity.
Qed.

Lemma applySnapshotFiles_fold st files : forall result,
  foldl (Backup.applySnapshotFile st) result files
  = foldl DigestSpec.applyChanges result
      (omap (fun f => Backup.parseSnapshotFile <$> Backup.loadFile st f) files).
Proof.
  induction files as [|f files IH]; intros result; [reflexivity|].
  simpl. rewrite IH. unfold Backup.applySnapshotFile.
  destruct (Backup.loadFile st f) as [text|]; simpl; [|reflexivity].
  by rewrite applySnapshotLines_parse.
Qed.

Lemma snapshot_step st domain s result :
  (r ← Backup.applyLegacy st (Backup.domains s !! domain) result;
   Some (foldl (Backup.applySnapshotFile st) r
           (Backup.snapshotFiles (Backup.domains s !! domain))))
  = foldl DigestSpec.applyChanges result <$> DigestSpec.changesOf st domain s.
Proof.
  unfold DigestSpec.changesOf, Backup.applyLegacy.
  destruct (Backup.domains s !! domain ≫= Backup.snapshot) as [name|]; simpl.
  - destruct (Backup.loadFile st name ≫= Backup.parseV6 st) as [v|]; simpl; [|reflexivity].
    by rewrite applySnapshotFiles_fold.
  - by rewrite applySnapshotFiles_fold.
Qed.

Lemma loadDigestLoop_cons st domain target s rest result :
  Backup.loadDigestLoop st domain target (s :: rest) result
  = r ← (r ← Backup.applyLegacy st (Backup.domains s !! domain) result;
         Some (foldl (Backup.applySnapshotFile st) r
                 (Backup.snapshotFiles (Backup.domains s !! domain))));
    if decide (target = Some (Backup.date s)) then Some r
    else Backup.loadDigestLoop st domain target rest r.
Proof.
  simpl. destruct (Backup.applyLegacy st (Backup.domains s !! domain) result) as [r|];
    simpl; [|reflexivity].
  destruct target as [dt|].
  - destruct (Z.eqb_spec dt (Backup.date s)) as [->|Hne].
    + by rewrite decide_True.
    + rewrite decide_False by congruence. reflexivity.
  - by rewrite decide_False.
Qed.

Lemma loadDigestLoop_fold st domain target ss : forall result,
  Backup.loadDigestLoop st domain target ss result
  = foldl DigestSpec.applyChanges result
      <$> DigestSpec.chain st domain (DigestSpec.upTo target ss).
Proof.
  induction ss as [|s rest IH]; intros result; [reflexivity|].
  rewrite loadDigestLoop_cons, snapshot_step.
  cbn [DigestSpec.upTo DigestSpec.chain].
  destruct (DigestSpec.changesOf st domain s) as [cs|]; simpl; [|reflexivity].
  destruct (decide (target = Some (Backup.date s))); simpl.
  - by rewrite app_nil_r.
  - rewrite IH.
    destruct (DigestSpec.chain st domain (DigestSpec.upTo target rest)); simpl;
      [|reflexivity].
    by rewrite foldl_app.
Qed.

Lemma setAll_last entries : forall (r : gmap string Backup.Hash) k,
  Backup.setAll entries r !! k
  = match last (filter (fun e => e.1 = k) entries) with
    | Some e => Some e.2
    | None => r !! k
    end.
Proof.
  unfold Backup.setAll.
  induction entries as [|e es IH]; intros r k; [done|].
  cbn [foldl]. rewrite IH, filter_cons.
  destruct (decide (e.1 = k)) as [He|He].
  - rewrite last_cons. destruct (last (filter _ es)); [done|].
    rewrite He. apply lookup_insert_eq.
  - destruct (last (filter _ es)); [done|]. by apply lookup_insert_ne.
Qed.

Lemma deleteAll_absent ids : forall (r : gmap string Backup.Hash) k,
  Backup.deleteAll ids r !! k = if bool_decide (k ∈ ids) then None else r !! k.
Proof.
  unfold Backup.deleteAll.
  induction ids as [|i ids IH]; intros r k; [done|].
  cbn [foldl]. rewrite IH.
  destruct (decide (k ∈ ids)) as [Hin|Hnin].
  - rewrite !bool_decide_eq_true_2; [done|by right|done].
  - rewrite (bool_decide_eq_false_2 _ Hnin).
    destruct (decide (k = i)) as [->|Hne].
    + rewrite bool_decide_eq_true_2 by left. apply lookup_delete_eq.
    + rewrite bool_decide_eq_false_2 by (intros [?|?]%elem_of_cons; done).
      by apply lookup_delete_ne.
Qed.

Lemma applyChanges_lookup (digest : gmap string Backup.Hash) c k :
  DigestSpec.applyChanges digest c !! k = DigestSpec.lookupAfter c (digest !! k) k.
Proof.
  unfold DigestSpec.applyChanges, DigestSpec.lookupAfter.
  rewrite deleteAll_absent. destruct (bool_decide _); [done|].
  unfold Backup.setAll. rewrite <- foldl_app.
  apply (setAll_last (Backup.pAdded c ++ Backup.pUpdated c)).
Qed.

Lemma foldDigest_lookup cs : forall (digest : gmap string Backup.Hash) k,
  foldl DigestSpec.applyChanges digest cs !! k
  = foldl (fun before c => DigestSpec.lookupAfter c before k) (digest !! k) cs.
Proof.
  induction cs as [|c cs IH]; intros digest k; [done|].
  cbn [foldl]. by rewrite IH, applyChanges_lookup.
Qed.

(** C1. [loadDigest] returns the digest obtained by folding, in array
    order, the change sets of the snapshots up to and including the first
    one taken at the target date (all of them without a target date).  Id
    by id: starting from nothing, each change set in turn leaves the id
    without an entry when it removes the id, gives it otherwise the hash
    of its last entry for the id (an updated entry overriding an added
    one), and leaves what an earlier change set gave when it does not
    name the id; so a later snapshot wins over an earlier one.
    [loadDigest] fails exactly when a legacy JSON snapshot in that range
    cannot be read. *)
Theorem C1_loadDigest_folds_chain st ss domain target :
  match DigestSpec.chain st domain (DigestSpec.upTo target ss) with
  | Some changes =>
      exists digest,
        Backup.loadDigest st ss domain target = Some digest
        /\ forall k, digest !! k = DigestSpec.digestAt changes k
  | None => Backup.loadDigest st ss domain target = None
  end.
Proof.
  unfold Backup.loadDigest. rewrite loadDigestLoop_fold.
  destruct (DigestSpec.chain st domain (DigestSpec.upTo target ss)) as [changes|];
    [|done].
  eexists. split; [done|]. intros k.
  rewrite foldDigest_lookup. by rewrite lookup_empty.
Qed.

Example digest_later_snapshot_wins :
  (forall digest, Backup.loadDigest sampleStore sampleChain "tx" None = Some digest ->
     digest !! "doc1" = Some (Some "h9")
     /\ digest !! "doc2" = None
     /\ digest !! "doc3" = Some (Some "h3")
     /\ digest !! "doc4" = Some (Some "h4")
     /\ digest !! "doc5" = None)
  /\ (forall digest, Backup.loadDigest sampleStore sampleChain "tx" (Some 1%Z) = Some digest ->
       digest !! "doc1" = Some (Some "h1")
       /\ digest !! "doc2" = Some (Some "h2")
       /\ digest !! "doc4" = None)
  /\ is_Some (Backup.loadDigest sampleStore sampleChain "tx" None).
Proof.
  split; [|split].
  - intros digest [= <-]. repeat split; vm_compute; reflexivity.
  - intros digest [= <-]. repeat split; vm_compute; reflexivity.
  - by eexists.
Qed.

(** *** writeChanges and the snapshot file format *)

Lemma parseSnapshotLines_snapshotLines changes :
  Backup.plainChanges changes = true ->
  Backup.parseSnapshotLines (snapshotLines changes ++ [""])
  = {| Backup.pAdded := map Backup.withHash (Backup.added changes);
       Backup.pUpdated := map Backup.withHash (Backup.updated changes);
       Backup.pRemoved := Backup.removed changes |}.
Proof.
  intros Hplain. unfold Backup.plainChanges in Hplain.
  apply andb_prop in Hplain as [[Ha Hu]%andb_prop _].
  rewrite forallb_forall in Ha, Hu.
  assert (He : forall es, (forall x, In x es -> Backup.plainEntry x = true) ->
               map Backup.splitEntry (map entryText es) = map Backup.withHash es).
  { intros es Hes. rewrite map_map. apply map_ext_in. intros kv Hin.
    apply splitEntry_entryText. by apply Hes. }
  unfold Backup.parseSnapshotLines, snapshotLines. simpl Js.shiftOr.
  cbv iota beta.
  rewrite parseInt_numberToString, <- (length_map entryText), <- app_assoc, splice0_app.
  simpl Js.shiftOr. cbv iota beta.
  rewrite parseInt_numberToString, <- (length_map entryText), <- app_assoc, splice0_app.
  simpl Js.shiftOr. cbv iota beta.
  rewrite parseInt_numberToString, splice0_app.
  by rewrite (He _ Ha), (He _ Hu).
Qed.

(** C2 (as amended). The text [writeChanges] produces is, line by line: the
    count of added entries, one [id;hash] line per added entry, the count of
    updated entries, one [id;hash] line per updated entry, the count of
    removed ids, one bare id line per removed id.  When no id or hash of an
    added or updated entry contains [;] or a line feed and no removed id
    contains a line feed, parsing that text the way [loadDigest] does gives
    back exactly the added entries, the updated entries and the removed
    ids, and [loadDigest] applies them to the digest in that order. *)
Theorem C2_writeChanges_roundtrip changes :
  Backup.plainChanges changes = true ->
  Backup.writeChanges changes = joinLines (snapshotLines changes)
  /\ Backup.parseSnapshotFile (Backup.writeChanges changes)
     = {| Backup.pAdded := map Backup.withHash (Backup.added changes);
          Backup.pUpdated := map Backup.withHash (Backup.updated changes);
          Backup.pRemoved := Backup.removed changes |}
  /\ forall st name result,
       Backup.loadFile st name = Some (Backup.writeChanges changes) ->
       Backup.applySnapshotFile st result name
       = Backup.deleteAll (Backup.removed changes)
           (Backup.setAll (map Backup.withHash (Backup.updated changes))
              (Backup.setAll (map Backup.withHash (Backup.added changes)) result)).
Proof.
  intros Hplain.
  assert (Hparse : Backup.parseSnapshotLines (Js.split Js.LF (Backup.writeChanges changes))
                   = {| Backup.pAdded := map Backup.withHash (Backup.added changes);
                        Backup.pUpdated := map Backup.withHash (Backup.updated changes);
                        Backup.pRemoved := Backup.removed changes |}).
  { rewrite writeChanges_lines, split_joinLines by by apply snapshotLines_no_LF.
    by apply parseSnapshotLines_snapshotLines. }
  split; [apply writeChanges_lines|]. split; [exact Hparse|].
  intros st name result Hload. unfold Backup.applySnapshotFile.
  rewrite Hload, applySnapshotLines_parse, Hparse. reflexivity.
Qed.

Lemma C2_writeChanges_roundtrip_witness :
  Backup.parseSnapshotFile (Backup.writeChanges sampleChanges)
  = {| Backup.pAdded := [("doc1", Some "h1"); ("doc2", Some "h2")];
       Backup.pUpdated := [("doc3", Some "h3")];
       Backup.pRemoved := ["doc4"; "doc5"] |}.
Proof.
  exact (proj1 (proj2 (C2_writeChanges_roundtrip sampleChanges eq_refl))).
Defined.

(** C2 as stated fails when an id contains the separator: the entry
    [a;b -> h] is written as the line [a;b;h] and read back as [a -> b]. *)
Lemma C2_roundtrip_counterexample :
  Backup.writeChanges
    {| Backup.added := [("a;b", "h")]; Backup.updated := []; Backup.removed := [] |}
  = joinLines ["1"; "a;b;h"; "0"; "0"]
  /\ Backup.parseSnapshotFile
       (Backup.writeChanges
          {| Backup.added := [("a;b", "h")]; Backup.updated := []; Backup.removed := [] |})
     = {| Backup.pAdded := [("a", Some "b")]; Backup.pUpdated := []; Backup.pRemoved := [] |}
  /\ Backup.parseSnapshotFile
       (Backup.writeChanges
          {| Backup.added := [("a;b", "h")]; Backup.updated := []; Backup.removed := [] |})
     <> {| Backup.pAdded := [("a;b", Some "h")]; Backup.pUpdated := []; Backup.pRemoved := [] |}.
Proof. repeat split; try reflexivity. vm_compute. discriminate. Qed.

(** *** loadChunk *)

Section LoadChunk.
Import BackupClientOps.
Context {DocInfo : Type}.
Variable estimateDocSize : DocInfo -> Z.
Variable find : string -> bool -> list DocInfo.

Local Abbreviation loadChunk := (BackupClientOps.loadChunk estimateDocSize find).
Local Abbreviation loadChunks := (BackupClientOps.loadChunks estimateDocSize find).
Local Abbreviation remaining := (BackupClientOps.remaining find).
Local Abbreviation fill := (BackupClientOps.fill estimateDocSize).

Lemma fill_split left : forall calls size docs,
  let '(docs', it, fin) := fill left calls size docs in
  docs ++ left = docs' ++ pending it
  /\ (fin = true -> pending it = [])
  /\ length (pending it) <= length left.
Proof.
  induction left as [|doc rest IH]; intros calls size docs; simpl.
  - destruct (size <? chunkSize)%Z; simpl; auto.
  - destruct (size <? chunkSize)%Z; simpl.
    + specialize (IH (S calls) (size + estimateDocSize doc)%Z (docs ++ [doc])).
      destruct (fill rest (S calls) (size + estimateDocSize doc)%Z (docs ++ [doc]))
        as [[docs' it] fin].
      destruct IH as (Heq & Hfin & Hlen). rewrite <- app_assoc in Heq.
      repeat split; auto.
    + repeat split; auto. discriminate.
Qed.

Lemma fill_progress left calls :
  let '(docs', it, fin) := fill left calls 0 [] in
  left = docs' ++ pending it
  /\ (fin = true -> pending it = [])
  /\ (fin = true \/ length (pending it) < length left).
Proof.
  destruct left as [|doc rest].
  - simpl. auto.
  - pose proof (fill_split rest (S calls) (0 + estimateDocSize doc)%Z ([] ++ [doc])) as H.
    change (fill (doc :: rest) calls 0 [])
      with (fill rest (S calls) (0 + estimateDocSize doc)%Z ([] ++ [doc])).
    destruct (fill rest (S calls) (0 + estimateDocSize doc)%Z ([] ++ [doc]))
      as [[docs' it] fin].
    destruct H as (Heq & Hfin & Hlen). simpl in *.
    repeat split; auto. right. lia.
Qed.

Lemma loadChunk_unfinished st domain idx recheck :
  unfinished st idx ->
  exists docs it fin st' chunk,
    loadChunk st domain (Some idx) recheck
    = (st', {| rIdx := idx; rDocs := docs; rFinished := fin |})
    /\ chunkInfo st' !! idx = Some chunk
    /\ finished chunk = fin
    /\ iterator chunk = it
    /\ remaining st domain idx recheck = docs ++ pending it
    /\ (fin = true -> pending it = [])
    /\ (fin = true \/ length (pending it) < length (remaining st domain idx recheck)).
Proof.
  unfold unfinished, BackupClientOps.remaining, BackupClientOps.loadChunk.
  destruct (chunkInfo st !! idx) as [chunk|] eqn:Hc.
  - intros Hf. simpl. rewrite Hf.
    pose proof (fill_progress (pending (iterator chunk)) (nextCalls (iterator chunk))) as H.
    destruct (fill (pending (iterator chunk)) (nextCalls (iterator chunk)) 0 [])
      as [[docs it] fin].
    destruct H as (Heq & Hfin & Hlt).
    eexists docs, it, fin, _, _. split; [reflexivity|].
    simpl. rewrite lookup_insert_eq. repeat split; auto.
  - intros _. simpl.
    pose proof (fill_progress (find domain recheck) 0) as H.
    destruct (fill (find domain recheck) 0 0 []) as [[docs it] fin].
    destruct H as (Heq & Hfin & Hlt).
    eexists docs, it, fin, _, _. split; [reflexivity|].
    simpl. rewrite lookup_insert_eq. repeat split; auto.
Qed.

Lemma loadChunks_reach_finished domain idx recheck n : forall st,
  unfinished st idx ->
  length (remaining st domain idx recheck) < n ->
  exists k st' rs r,
    1 <= k <= n
    /\ loadChunks k st domain idx recheck = (st', rs ++ [r])
    /\ length rs = k - 1
    /\ Forall (fun r => rFinished r = false) rs
    /\ rFinished r = true
    /\ concat (map rDocs (rs ++ [r])) = remaining st domain idx recheck
    /\ exists chunk, chunkInfo st' !! idx = Some chunk /\ finished chunk = true.
Proof.
  induction n as [|n IH]; intros st Hun Hlen; [lia|].
  destruct (loadChunk_unfinished st domain idx recheck Hun)
    as (docs & it & fin & st1 & chunk & Hcall & Hlook & Hfin & Hit & Hrem & Hend & Hprog).
  destruct fin.
  - exists 1, st1, [], {| rIdx := idx; rDocs := docs; rFinished := true |}.
    simpl. rewrite Hcall. rewrite Hrem, (Hend eq_refl), !app_nil_r.
    repeat split; auto; try lia. eauto.
  - destruct Hprog as [?|Hlt]; [done|].
    assert (Hrem1 : remaining st1 domain idx recheck = pending it).
    { unfold BackupClientOps.remaining. by rewrite Hlook, Hit. }
    assert (Hun1 : unfinished st1 idx) by (unfold unfinished; by rewrite Hlook).
    destruct (IH st1 Hun1 ltac:(rewrite Hrem1; lia))
      as (k & st' & rs & r & Hk & Hcalls & Hlen' & Hall & Hr & Hcat & Hch).
    exists (S k), st', ({| rIdx := idx; rDocs := docs; rFinished := false |} :: rs), r.
    simpl. rewrite Hcall, Hcalls.
    repeat split; auto; try lia.
    rewrite Hrem, <- Hrem1, <- Hcat. reflexivity.
Qed.

(** C3. Whatever the domain, the calls [loadChunk(domain, idx)] on one
    cursor go through what its iterator has left: some call, at the
    latest the one after as many calls as there are documents left,
    returns [finished = true]; the calls before it return
    [finished = false], and together the calls return exactly the
    documents that were left, in order.  On a cursor that has finished,
    a call returns [docs = []] and [finished = true], bumps the call
    counter of the cursor and leaves the iterator as it was: [next] is
    not called again. *)
Theorem C3_loadChunk_exhaustion (st : State DocInfo) domain idx recheck :
  (exists k st' rs r,
      1 <= k <= S (length (remaining st domain idx recheck))
      /\ loadChunks k st domain idx recheck = (st', rs ++ [r])
      /\ Forall (fun r => rFinished r = false \/ rDocs r = []) rs
      /\ rFinished r = true
      /\ (unfinished st idx ->
          concat (map rDocs (rs ++ [r])) = remaining st domain idx recheck)
      /\ exists chunk, chunkInfo st' !! idx = Some chunk /\ finished chunk = true)
  /\ (forall chunk,
        chunkInfo st !! idx = Some chunk -> finished chunk = true ->
        loadChunk st domain (Some idx) recheck
        = ({| idIndex := idIndex st;
              chunkInfo := <[idx := {| BackupClientOps.idx := BackupClientOps.idx chunk;
                                       index := S (index chunk);
                                       finished := true;
                                       iterator := iterator chunk |}]> (chunkInfo st) |},
           {| rIdx := idx; rDocs := []; rFinished := true |})).
Proof.
  assert (Hdone : forall chunk,
        chunkInfo st !! idx = Some chunk -> finished chunk = true ->
        loadChunk st domain (Some idx) recheck
        = ({| idIndex := idIndex st;
              chunkInfo := <[idx := {| BackupClientOps.idx := BackupClientOps.idx chunk;
                                       index := S (index chunk);
                                       finished := true;
                                       iterator := iterator chunk |}]> (chunkInfo st) |},
           {| rIdx := idx; rDocs := []; rFinished := true |})).
  { intros chunk Hc Hf. unfold BackupClientOps.loadChunk. simpl. rewrite Hc. simpl.
    rewrite Hf. reflexivity. }
  split; [|exact Hdone].
  destruct (chunkInfo st !! idx) as [chunk|] eqn:Hc.
  - destruct (finished chunk) eqn:Hf.
    + exists 1. eexists. exists []. eexists.
      simpl. rewrite (Hdone chunk eq_refl Hf).
      split; [lia|]. split; [reflexivity|].
      split; [constructor|]. split; [reflexivity|]. split.
      * unfold unfinished. rewrite Hc. congruence.
      * eexists. simpl. rewrite lookup_insert_eq. eauto.
    + assert (Hun : unfinished st idx) by (unfold unfinished; by rewrite Hc).
      destruct (loadChunks_reach_finished domain idx recheck _ st Hun (Nat.lt_succ_diag_r _))
        as (k & st' & rs & r & Hk & Hcalls & _ & Hall & Hr & Hcat & Hch).
      exists k, st', rs, r. repeat split; auto; try lia.
      eapply Forall_impl; [exact Hall|]. auto.
  - assert (Hun : unfinished st idx) by (unfold unfinished; by rewrite Hc).
    destruct (loadChunks_reach_finished domain idx recheck _ st Hun (Nat.lt_succ_diag_r _))
      as (k & st' & rs & r & Hk & Hcalls & _ & Hall & Hr & Hcat & Hch).
    exists k, st', rs, r. repeat split; auto; try lia.
    eapply Forall_impl; [exact Hall|]. auto.
Qed.

End LoadChunk.

(** *** The backup run: skip on an unchanged last transaction *)

Lemma processDomains_info env ds : forall canceled bi s st done,
  let '(_, _, _, st', _) := Backup.processDomains env ds canceled bi s st done in
  Backup.info st' = Backup.info st
  \/ exists s', Backup.info st' = Some (Backup.withSnapshot bi s').
Proof.
  induction ds as [|domain rest IH]; intros canceled bi s st done; simpl; [by left|].
  destruct canceled; [by left|].
  set (e := Backup.domainRun env domain).
  set (st1 := {| Backup.info := _; Backup.written := _ |}).
  assert (H1 : Backup.info st1 = Backup.info st
               \/ exists s', Backup.info st1 = Some (Backup.withSnapshot bi s')).
  { subst st1. simpl. destruct (Backup.flushed e); eauto. }
  destruct (Backup.threw e); [exact H1|].
  specialize (IH (Backup.canceledDuring e) bi
                (Backup.setDomain domain (Backup.inMemory e) s) st1 (done ++ [domain])).
  destruct (Backup.processDomains env rest (Backup.canceledDuring e) bi
              (Backup.setDomain domain (Backup.inMemory e) s) st1 (done ++ [domain]))
    as [[[[c f] s2] st2] d2].
  destruct IH as [IH|IH]; [|by right].
  rewrite IH. exact H1.
Qed.

Lemma backup_skip env storage options id :
  Backup.force options = false ->
  Backup.lastTx env = Some id ->
  Backup.info storage ≫= Backup.lastTxId = Some id ->
  Backup.backup env storage options
  = {| Backup.outcome := Backup.Skipped; Backup.processed := [];
       Backup.storageAfter := storage |}.
Proof.
  intros Hforce Hlast Hrec. unfold Backup.backup. rewrite Hlast, Hforce.
  destruct (Backup.info storage) as [bi|]; simpl in *; [|done].
  rewrite Hrec. by rewrite bool_decide_eq_true_2.
Qed.

Lemma backup_records env storage options :
  match Backup.outcome (Backup.backup env storage options) with
  | Backup.Completed =>
      Backup.info (Backup.storageAfter (Backup.backup env storage options))
        ≫= Backup.lastTxId
      = Some (default "0" (Backup.lastTx env))
  | Backup.Skipped => Backup.storageAfter (Backup.backup env storage options) = storage
  | _ =>
      Backup.info (Backup.storageAfter (Backup.backup env storage options))
      = Backup.info storage
      \/ Backup.info (Backup.storageAfter (Backup.backup env storage options))
           ≫= Backup.lastTxId
         = Some ""
  end.
Proof.
  unfold Backup.backup.
  match goal with |- context [if ?c then _ else _] => destruct c end; [reflexivity|].
  match goal with
  | |- context [Backup.processDomains ?e ?ds ?c ?bi ?s ?st ?d] =>
      pose proof (processDomains_info e ds c bi s st d) as H;
      destruct (Backup.processDomains e ds c bi s st d) as [[[[c' f] s'] st'] d']
  end.
  destruct f; simpl.
  - destruct H as [H|[s2 H]]; [by left|right]. by rewrite H.
  - destruct c'; simpl; [|reflexivity].
    destruct H as [H|[s2 H]]; [by left|right]. by rewrite H.
Qed.

(** C4. With [force = false] and a latest transaction [id]:
    - when [backup.json.gz] records [lastTxId = id], the run returns at
      once: no snapshot is appended, no domain is processed, the storage
      is as it was;
    - whatever the options, a run records [lastTxId = id] only when it
      completes (neither cancelled nor failed); a run that is cancelled or
      fails leaves [backup.json.gz] as it was or with [lastTxId] cleared;
    - so a run that follows a completed run with the same latest
      transaction does nothing. *)
Theorem C4_backup_skips_unchanged env storage options id :
  Backup.force options = false ->
  Backup.lastTx env = Some id ->
  (Backup.info storage ≫= Backup.lastTxId = Some id ->
   Backup.backup env storage options
   = {| Backup.outcome := Backup.Skipped; Backup.processed := [];
        Backup.storageAfter := storage |})
  /\ (forall env1 options1,
        Backup.lastTx env1 = Some id ->
        match Backup.outcome (Backup.backup env1 storage options1) with
        | Backup.Completed =>
            Backup.info (Backup.storageAfter (Backup.backup env1 storage options1))
              ≫= Backup.lastTxId = Some id
        | Backup.Skipped =>
            Backup.storageAfter (Backup.backup env1 storage options1) = storage
        | _ =>
            Backup.info (Backup.storageAfter (Backup.backup env1 storage options1))
            = Backup.info storage
            \/ Backup.info (Backup.storageAfter (Backup.backup env1 storage options1))
                 ≫= Backup.lastTxId = Some ""
        end)
  /\ (forall env1 options1,
        Backup.lastTx env1 = Some id ->
        Backup.outcome (Backup.backup env1 storage options1) = Backup.Completed ->
        Backup.backup env (Backup.storageAfter (Backup.backup env1 storage options1)) options
        = {| Backup.outcome := Backup.Skipped; Backup.processed := [];
             Backup.storageAfter :=
               Backup.storageAfter (Backup.backup env1 storage options1) |}).
Proof.
  intros Hforce Hlast. split; [|split].
  - by apply backup_skip.
  - intros env1 options1 Hlast1.
    pose proof (backup_records env1 storage options1) as H.
    rewrite Hlast1 in H. exact H.
  - intros env1 options1 Hlast1 Hdone.
    apply (backup_skip _ _ _ id); [done..|].
    pose proof (backup_records env1 storage options1) as H.
    rewrite Hdone, Hlast1 in H. exact H.
Qed.

Example backup_first_run :
  Backup.outcome (Backup.backup sampleEnv emptyStorage sampleOptions) = Backup.Completed
  /\ Backup.processed (Backup.backup sampleEnv emptyStorage sampleOptions) = ["tx"; "blob"]
  /\ Backup.info (Backup.storageAfter (Backup.backup sampleEnv emptyStorage sampleOptions))
       ≫= Backup.lastTxId = Some "tx1".
Proof. repeat split; reflexivity. Qed.

Lemma C4_backup_skips_unchanged_witness :
  Backup.backup sampleEnv
    (Backup.storageAfter (Backup.backup sampleEnv emptyStorage sampleOptions))
    sampleOptions
  = {| Backup.outcome := Backup.Skipped; Backup.processed := [];
       Backup.storageAfter :=
         Backup.storageAfter (Backup.backup sampleEnv emptyStorage sampleOptions) |}.
Proof.
  exact (proj1 (C4_backup_skips_unchanged sampleEnv
                  (Backup.storageAfter (Backup.backup sampleEnv emptyStorage sampleOptions))
                  sampleOptions "tx1" eq_refl eq_refl) eq_refl).
Defined.

(** *** The session manager: hang detection *)

#[local] Arguments Nat.modulo : simpl never.
#[local] Arguments Nat.div : simpl never.

Section HangClose.
Import SessionManager ManagerSpec.
Variable systemAccountEmail : string.

Local Abbreviation sessionStep := (SessionManager.sessionStep systemAccountEmail).
Local Abbreviation workspaceStep := (SessionManager.workspaceStep systemAccountEmail).
Local Abbreviation handleInterval := (SessionManager.handleInterval systemAccountEmail).
Local Abbreviation hangTimeout := (SessionManager.hangTimeout systemAccountEmail).

Lemma sameRef_refl r : sameRef r r.
Proof. by repeat split. Qed.

Lemma sameRef_trans r1 r2 r3 : sameRef r1 r2 -> sameRef r2 r3 -> sameRef r1 r3.
Proof. intros (?&?&?) (?&?&?). repeat split; congruence. Qed.

Lemma sameRef_sym r1 r2 : sameRef r1 r2 -> sameRef r2 r1.
Proof. intros (?&?&?). repeat split; congruence. Qed.

Lemma shrinks_refl m : shrinks m m.
Proof.
  repeat split; auto. intros wsId sid r H. exists r. split; [done|apply sameRef_refl].
Qed.

Lemma shrinks_trans m1 m2 m3 : shrinks m1 m2 -> shrinks m2 m3 -> shrinks m1 m3.
Proof.
  intros (Ha1 & Hb1 & Hc1 & Hd1) (Ha2 & Hb2 & Hc2 & Hd2). repeat split.
  - intros wsId sid r3 H3. destruct (Ha2 _ _ _ H3) as (r2 & H2 & Hs2).
    destruct (Ha1 _ _ _ H2) as (r1 & H1 & Hs1).
    exists r1. split; [done|]. by eapply sameRef_trans.
  - auto.
  - auto.
  - congruence.
Qed.

Lemma emit_shrinks m e : shrinks m (emit m e).
Proof.
  repeat split; simpl; auto.
  - intros wsId sid r H. exists r. split; [exact H|apply sameRef_refl].
  - intros e' He'. apply elem_of_app. by left.
Qed.

Lemma hasSession_close m k wsid x sid r :
  hasSession (close m k wsid) x sid r -> hasSession m x sid r.
Proof.
  unfold close. destruct (sessions m !! k) as [ref|]; [|done].
  simpl. destruct (workspaces m !! wsid) as [w|] eqn:Hw; [|done].
  intros (w' & Hw' & Hs). simpl in Hw'.
  destruct (decide (wsid = x)) as [->|Hne].
  - rewrite lookup_insert_eq in Hw'. injection Hw' as <-. simpl in Hs.
    apply lookup_delete_Some in Hs as [_ Hs]. by exists w.
  - rewrite lookup_insert_ne in Hw' by done. by exists w'.
Qed.

Lemma hasSession_close_keep m k wsid x sid r :
  hasSession m x sid r ->
  (x <> wsid \/ forall ref, sessions m !! k = Some ref -> sid <> sessionId (session ref)) ->
  hasSession (close m k wsid) x sid r.
Proof.
  intros (w & Hw & Hs) Hother. unfold close.
  destruct (sessions m !! k) as [ref|]; [|by exists w].
  simpl. destruct (workspaces m !! wsid) as [w0|] eqn:Hw0; [|by exists w].
  destruct (decide (wsid = x)) as [->|Hne].
  - destruct Hother as [?|Hsid]; [done|].
    rewrite Hw in Hw0. injection Hw0 as <-.
    eexists. simpl. rewrite lookup_insert_eq. split; [reflexivity|]. simpl.
    rewrite lookup_delete_ne; [done|]. intros Heq. by apply (Hsid ref).
  - exists w. simpl. by rewrite lookup_insert_ne.
Qed.

Lemma sessions_close_sub m k wsid k' r :
  sessions (close m k wsid) !! k' = Some r -> sessions m !! k' = Some r.
Proof.
  unfold close. destruct (sessions m !! k) as [ref|]; [|done].
  assert (Hs : sessions (emit (match workspaces (setSessions m (delete k (sessions m))) !! wsid with
                               | Some workspace =>
                                   setWorkspaces (setSessions m (delete k (sessions m)))
                                     (<[wsid := setWsSessions workspace
                                          (delete (sessionId (session ref)) (wsSessions workspace))]>
                                        (workspaces (setSessions m (delete k (sessions m)))))
                               | None => setSessions m (delete k (sessions m))
                               end) (SocketClosed (socket ref)))
               = delete k (sessions m)).
  { simpl. by destruct (workspaces m !! wsid). }
  rewrite Hs. by intros [_ ?]%lookup_delete_Some.
Qed.

Lemma sessions_close m k wsid ref :
  sessions m !! k = Some ref ->
  sessions (close m k wsid) = delete k (sessions m)
  /\ events (close m k wsid) = events m ++ [SocketClosed (socket ref)]
  /\ ticks (close m k wsid) = ticks m.
Proof.
  intros H. unfold close. rewrite H. simpl.
  by destruct (workspaces m !! wsid).
Qed.

Lemma close_removes m k wsid ref w :
  sessions m !! k = Some ref ->
  workspaces (close m k wsid) !! wsid = Some w ->
  wsSessions w !! sessionId (session ref) = None.
Proof.
  intros Hk. unfold close. rewrite Hk. simpl.
  destruct (workspaces m !! wsid) as [w0|] eqn:Hw0; simpl; [|congruence].
  rewrite lookup_insert_eq. intros [= <-]. simpl. apply lookup_delete_eq.
Qed.

Lemma close_shrinks m k wsid : shrinks m (close m k wsid).
Proof.
  repeat split.
  - intros x sid r H. exists r. split; [by eapply hasSession_close|apply sameRef_refl].
  - intros k' r. apply sessions_close_sub.
  - intros e He. destruct (sessions m !! k) as [ref|] eqn:Hk.
    + destruct (sessions_close m k wsid ref Hk) as (_ & -> & _).
      apply elem_of_app. by left.
    + unfold close. by rewrite Hk.
  - destruct (sessions m !! k) as [ref|] eqn:Hk.
    + by destruct (sessions_close m k wsid ref Hk) as (_ & _ & ->).
    + unfold close. by rewrite Hk.
Qed.

Lemma hasSession_rollEntry_back m wsId sid x sid' r' :
  hasSession (rollEntry wsId sid m) x sid' r' ->
  exists r, hasSession m x sid' r /\ sameRef r r'.
Proof.
  unfold rollEntry.
  destruct (workspaces m !! wsId) as [w|] eqn:Hw;
    [|intros H; exists r'; split; [done|apply sameRef_refl]].
  destruct (wsSessions w !! sid) as [s|] eqn:Hs;
    [|intros H; exists r'; split; [done|apply sameRef_refl]].
  intros (w' & Hw' & Hs'). simpl in Hw'.
  destruct (decide (wsId = x)) as [->|Hne].
  - rewrite lookup_insert_eq in Hw'. injection Hw' as <-. simpl in Hs'.
    destruct (decide (sid = sid')) as [->|Hne'].
    + rewrite lookup_insert_eq in Hs'. injection Hs' as <-.
      exists s. split; [by exists w|]. by repeat split.
    + rewrite lookup_insert_ne in Hs' by done.
      exists r'. split; [by exists w|apply sameRef_refl].
  - rewrite lookup_insert_ne in Hw' by done.
    exists r'. split; [by exists w'|apply sameRef_refl].
Qed.

Lemma hasSession_rollEntry_fwd m wsId sid x sid' r :
  hasSession m x sid' r ->
  exists r', hasSession (rollEntry wsId sid m) x sid' r' /\ sameRef r' r.
Proof.
  intros (w & Hw & Hs). unfold rollEntry.
  destruct (workspaces m !! wsId) as [w0|] eqn:Hw0;
    [|exists r; split; [by exists w|apply sameRef_refl]].
  destruct (wsSessions w0 !! sid) as [s|] eqn:Hs0;
    [|exists r; split; [by exists w|apply sameRef_refl]].
  destruct (decide (wsId = x)) as [->|Hne].
  - rewrite Hw in Hw0. injection Hw0 as <-.
    destruct (decide (sid = sid')) as [->|Hne'].
    + rewrite Hs in Hs0. injection Hs0 as <-.
      eexists. split.
      * eexists. simpl. rewrite lookup_insert_eq. split; [reflexivity|].
        simpl. by rewrite lookup_insert_eq.
      * by repeat split.
    + exists r. split; [|apply sameRef_refl].
      eexists. simpl. rewrite lookup_insert_eq. split; [reflexivity|].
      simpl. by rewrite lookup_insert_ne.
  - exists r. split; [|apply sameRef_refl].
    exists w. simpl. by rewrite lookup_insert_ne.
Qed.

Lemma rollEntry_frame m wsId sid :
  sessions (rollEntry wsId sid m) = sessions m
  /\ events (rollEntry wsId sid m) = events m
  /\ ticks (rollEntry wsId sid m) = ticks m.
Proof.
  unfold rollEntry. destruct (workspaces m !! wsId) as [w|]; [|done].
  by destruct (wsSessions w !! sid).
Qed.

Lemma rollEntry_shrinks m wsId sid : shrinks m (rollEntry wsId sid m).
Proof.
  destruct (rollEntry_frame m wsId sid) as (Hs & He & Ht).
  repeat split.
  - intros x sid' r'. apply hasSession_rollEntry_back.
  - intros k r. by rewrite Hs.
  - intros e. by rewrite He.
  - exact Ht.
Qed.

Lemma apart_shrinks W S R m m' : apart W S R m -> shrinks m m' -> apart W S R m'.
Proof.
  intros Hap (Ha & Hb & _ & _) wsId sid r' H' Hother.
  destruct (Ha _ _ _ H') as (r & H & (Hsock & _ & _)).
  destruct (Hap _ _ _ H Hother) as [Hne Hreg]. rewrite <- Hsock. split; [done|].
  intros -> r'' Hr''. apply (Hreg eq_refl). by apply Hb.
Qed.

Lemma closed_shrinks m m' W S k :
  sessionClosed m W S k -> shrinks m m' -> sessionClosed m' W S k.
Proof.
  intros (Hw & Hk & He) (Ha & Hb & Hc & _). repeat split.
  - intros w' Hw'. destruct (wsSessions w' !! S) as [r'|] eqn:Hr'; [|done].
    destruct (Ha W S r') as (r & (w & Hw0 & Hr) & _); [by exists w'|].
    by rewrite (Hw w Hw0) in Hr.
  - destruct (sessions m' !! k) as [r|] eqn:Hr; [|done].
    apply Hb in Hr. congruence.
  - by apply Hc.
Qed.

Lemma alive_emit W S R m e : alive W S R m -> alive W S R (emit m e).
Proof. intros H. exact H. Qed.

Lemma alive_rollEntry W S R m wsId sid :
  alive W S R m -> alive W S R (rollEntry wsId sid m).
Proof.
  intros [(r & Hr & Hsame) Hreg]. split.
  - destruct (hasSession_rollEntry_fwd m wsId sid W S r Hr) as (r' & Hr' & Hs').
    exists r'. split; [done|]. by eapply sameRef_trans.
  - by rewrite (proj1 (rollEntry_frame m wsId sid)).
Qed.

(** Closing the socket of another session leaves the followed one alone. *)
Lemma alive_close_other W S R m wsId sid r :
  alive W S R m -> apart W S R m ->
  hasSession m wsId sid r -> (wsId <> W \/ sid <> S) ->
  alive W S R (close m (socket r) wsId).
Proof.
  intros [(r0 & Hr0 & Hsame) (r1 & Hr1 & Hid1 & Hsock1)] Hap Hr Hother.
  destruct (Hap _ _ _ Hr Hother) as [Hne Hreg]. split.
  - exists r0. split; [|done]. apply hasSession_close_keep; [done|].
    destruct (decide (W = wsId)) as [->|HW]; [right|by left].
    intros ref Href Heq. by apply (Hreg eq_refl ref Href).
  - destruct (sessions m !! socket r) as [ref|] eqn:Href.
    + destruct (sessions_close m (socket r) wsId ref Href) as (-> & _ & _).
      exists r1. by rewrite lookup_delete_ne.
    + unfold close. rewrite Href. by exists r1.
Qed.

Lemma hasSession_functional m wsId sid r1 r2 :
  hasSession m wsId sid r1 -> hasSession m wsId sid r2 -> r1 = r2.
Proof. intros (w1 & Hw1 & Hs1) (w2 & Hw2 & Hs2). congruence. Qed.

Lemma warnings_shrinks (now : Z) wsId u starts : forall m,
  shrinks m (foldl (fun m start =>
                      if (30000 <? now - start)%Z
                      then emit m (WarnRequestHang wsId u) else m) m starts).
Proof.
  induction starts as [|st starts IH]; intros m; simpl; [apply shrinks_refl|].
  eapply shrinks_trans; [|apply IH].
  destruct (30000 <? now - st)%Z; [apply emit_shrinks|apply shrinks_refl].
Qed.

Lemma warnings_alive W S R (now : Z) wsId u starts : forall m,
  alive W S R m ->
  alive W S R (foldl (fun m start =>
                        if (30000 <? now - start)%Z
                        then emit m (WarnRequestHang wsId u) else m) m starts).
Proof.
  induction starts as [|st starts IH]; intros m Hm; simpl; [done|].
  apply IH. by destruct (30000 <? now - st)%Z.
Qed.

Lemma sessionStep_shrinks now wsId m e : shrinks m (sessionStep now wsId m e).
Proof.
  unfold SessionManager.sessionStep.
  destruct (workspaces m !! wsId ≫= _) as [s|]; [|apply shrinks_refl].
  set (m1 := if ticks m mod (5 * 60) =? 0 then rollEntry wsId e.1 m else m).
  assert (H1 : shrinks m m1).
  { subst m1. destruct (ticks m mod (5 * 60) =? 0);
      [apply rollEntry_shrinks|apply shrinks_refl]. }
  destruct (_ && _).
  - eapply shrinks_trans; [exact H1|].
    eapply shrinks_trans; [apply emit_shrinks|apply close_shrinks].
  - eapply shrinks_trans; [exact H1|].
    eapply shrinks_trans; [|apply warnings_shrinks].
    destruct (_ && _); [apply emit_shrinks|apply shrinks_refl].
Qed.

(** Whether the tick of a manager whose counter is [t] closes a session
    of this user and last request as hung. *)
Lemma sessionStep_alive W S R now wsId m e :
  alive W S R m -> apart W S R m ->
  (wsId <> W \/ e.1 <> S
   \/ (hangTimeout (user (session R)) <? now - lastRequest (session R))%Z
      && (ticks m mod 10 =? 0) = false) ->
  alive W S R (sessionStep now wsId m e).
Proof.
  intros Hal Hap Hcase. unfold SessionManager.sessionStep.
  destruct (workspaces m !! wsId ≫= _) as [s|] eqn:Hs; [|done].
  assert (Hhas : hasSession m wsId e.1 s).
  { destruct (workspaces m !! wsId) as [w|] eqn:Hw; [|done]. by exists w. }
  set (m1 := if ticks m mod (5 * 60) =? 0 then rollEntry wsId e.1 m else m).
  assert (Hal1 : alive W S R m1).
  { subst m1. destruct (ticks m mod (5 * 60) =? 0); [by apply alive_rollEntry|done]. }
  assert (Hsh1 : shrinks m m1).
  { subst m1. destruct (ticks m mod (5 * 60) =? 0);
      [apply rollEntry_shrinks|apply shrinks_refl]. }
  assert (Ht1 : ticks m1 = ticks m) by apply Hsh1.
  assert (Hhas1 : exists s1, hasSession m1 wsId e.1 s1 /\ sameRef s1 s).
  { subst m1. destruct (ticks m mod (5 * 60) =? 0).
    - by apply hasSession_rollEntry_fwd.
    - exists s. split; [done|apply sameRef_refl]. }
  destruct Hhas1 as (s1 & Hhas1 & (Hsock1 & _ & _)).
  rewrite Ht1.
  destruct ((hangTimeout (user (session s)) <? now - lastRequest (session s))%Z
            && (ticks m mod 10 =? 0)) eqn:Hhang.
  - assert (Hother : wsId <> W \/ e.1 <> S).
    { destruct Hcase as [?|[?|Hq]]; [by left|by right|].
      destruct (decide (wsId = W)) as [->|?]; [|by left].
      destruct (decide (e.1 = S)) as [HeS|?]; [|by right].
      destruct Hal as [(r & Hr & (_ & Hu & Hl)) _]. rewrite HeS in Hhas.
      rewrite (hasSession_functional _ _ _ _ _ Hhas Hr), Hu, Hl in Hhang. congruence. }
    rewrite <- Hsock1.
    apply (alive_close_other W S R (emit m1 _) wsId e.1 s1); try done.
    eapply apart_shrinks; [exact Hap|].
    eapply shrinks_trans; [exact Hsh1|apply emit_shrinks].
  - apply warnings_alive.
    match goal with |- context [if ?c then _ else _] => destruct c end; exact Hal1.
Qed.

Lemma sessionStep_closes W S R now m x :
  alive W S R m ->
  (hangTimeout (user (session R)) <? now - lastRequest (session R))%Z
  && (ticks m mod 10 =? 0) = true ->
  sessionClosed (sessionStep now W m (S, x)) W S (socket R).
Proof.
  intros [(r & Hr & (Hsock & Hu & Hl)) (r1 & Hr1 & Hid1 & Hsock1)] Hhang.
  unfold SessionManager.sessionStep. simpl.
  destruct Hr as (w & Hw & Hs). rewrite Hw. simpl. rewrite Hs.
  set (m1 := if ticks m mod 300 =? 0 then rollEntry W S m else m).
  assert (Hfr : sessions m1 = sessions m /\ ticks m1 = ticks m
                /\ exists w1, workspaces m1 !! W = Some w1).
  { subst m1. destruct (ticks m mod 300 =? 0).
    - destruct (rollEntry_frame m W S) as (Hs' & _ & Ht').
      split; [exact Hs'|]. split; [exact Ht'|].
      destruct (hasSession_rollEntry_fwd m W S W S r) as (r' & (w1 & Hw1 & _) & _);
        [by exists w|]. by exists w1.
    - repeat split. by exists w. }
  destruct Hfr as (Hss & Ht & w1 & Hw1). rewrite Ht, Hu, Hl, Hhang, Hsock.
  assert (Hk : sessions (emit m1 (WarnSessionHang W (user (session R)))) !! socket R
               = Some r1) by (simpl; by rewrite Hss).
  destruct (sessions_close _ _ W _ Hk) as (Hs2 & He2 & _).
  repeat split.
  - intros w' Hw'. pose proof (close_removes _ _ _ _ _ Hk Hw') as H.
    by rewrite Hid1 in H.
  - rewrite Hs2. apply lookup_delete_eq.
  - rewrite He2, Hsock1. apply elem_of_app. right. by apply list_elem_of_singleton.
Qed.

Lemma sessionsLoop_shrinks now wsId l : forall m,
  shrinks m (foldl (sessionStep now wsId) m l).
Proof.
  induction l as [|e l IH]; intros m; simpl; [apply shrinks_refl|].
  eapply shrinks_trans; [apply sessionStep_shrinks|apply IH].
Qed.

Lemma sessionsLoop_alive W S R now wsId l t : forall m,
  ticks m = t -> alive W S R m -> apart W S R m ->
  (wsId <> W \/ S ∉ l.*1
   \/ (hangTimeout (user (session R)) <? now - lastRequest (session R))%Z
      && (t mod 10 =? 0) = false) ->
  alive W S R (foldl (sessionStep now wsId) m l).
Proof.
  induction l as [|e l IH]; intros m Ht Hal Hap Hcase; simpl; [done|].
  pose proof (sessionStep_shrinks now wsId m e) as Hsh.
  apply IH.
  - rewrite <- Ht. apply Hsh.
  - apply sessionStep_alive; [done..|]. rewrite Ht.
    destruct Hcase as [?|[Hnin|?]]; [by left| |by right; right].
    right; left. intros Heq. apply Hnin. rewrite fmap_cons, Heq. apply list_elem_of_here.
  - by eapply apart_shrinks.
  - destruct Hcase as [?|[Hnin|?]]; [by left| |by right; right].
    right; left. intros Hin. apply Hnin. rewrite fmap_cons. by apply list_elem_of_further.
Qed.

Lemma sessionsLoop_closes W S R now l t : forall m,
  ticks m = t -> alive W S R m -> apart W S R m ->
  (hangTimeout (user (session R)) <? now - lastRequest (session R))%Z
  && (t mod 10 =? 0) = true ->
  S ∈ l.*1 ->
  sessionClosed (foldl (sessionStep now W) m l) W S (socket R).
Proof.
  induction l as [|e l IH]; intros m Ht Hal Hap Hhang Hin; simpl.
  - by apply elem_of_nil in Hin.
  - pose proof (sessionStep_shrinks now W m e) as Hsh.
    destruct (decide (e.1 = S)) as [HeS|HeS].
    + eapply closed_shrinks; [|apply sessionsLoop_shrinks].
      destruct e as [sid x]. simpl in HeS. subst sid.
      apply sessionStep_closes; [done|]. by rewrite Ht.
    + apply IH.
      * rewrite <- Ht. apply Hsh.
      * apply sessionStep_alive; [done..|]. by right; left.
      * by eapply apart_shrinks.
      * done.
      * rewrite fmap_cons in Hin. apply elem_of_cons in Hin as [Heq|?]; [|done].
        by symmetry in Heq.
Qed.

Lemma closeCountdown_sessions w : wsSessions (closeCountdown w).1 = wsSessions w.
Proof.
  unfold closeCountdown. destruct (_ && _); [|reflexivity]. simpl.
  by destruct (softShutdown w - 1 <=? 0)%Z.
Qed.

Lemma hasSession_insert_same m wsId w w' x sid r :
  workspaces m !! wsId = Some w -> wsSessions w' = wsSessions w ->
  hasSession (setWorkspaces m (<[wsId := w']> (workspaces m))) x sid r
  <-> hasSession m x sid r.
Proof.
  intros Hw Heq. unfold hasSession. simpl.
  destruct (decide (wsId = x)) as [->|Hne].
  - rewrite lookup_insert_eq. split.
    + intros (w0 & [= <-] & Hs). exists w. by rewrite <- Heq.
    + intros (w0 & Hw0 & Hs). exists w'. rewrite Hw in Hw0. injection Hw0 as <-.
      by rewrite Heq.
  - by rewrite lookup_insert_ne.
Qed.

Lemma insert_same_shrinks m wsId w w' :
  workspaces m !! wsId = Some w -> wsSessions w' = wsSessions w ->
  shrinks m (setWorkspaces m (<[wsId := w']> (workspaces m))).
Proof.
  intros Hw Heq. repeat split; auto.
  intros x sid r H. apply (hasSession_insert_same m wsId w w') in H; [|done..].
  exists r. split; [done|apply sameRef_refl].
Qed.

Lemma insert_same_alive W S R m wsId w w' :
  workspaces m !! wsId = Some w -> wsSessions w' = wsSessions w ->
  alive W S R m -> alive W S R (setWorkspaces m (<[wsId := w']> (workspaces m))).
Proof.
  intros Hw Heq [(r & Hr & Hsame) Hreg]. split; [|exact Hreg].
  exists r. split; [|done]. by apply (hasSession_insert_same m wsId w w').
Qed.

Lemma countdownStep_shrinks m1 wsId : shrinks m1 (countdownStep m1 wsId).
Proof.
  unfold countdownStep.
  destruct (workspaces m1 !! wsId) as [w1|] eqn:Hw1; [|apply shrinks_refl].
  pose proof (closeCountdown_sessions w1) as Hcs.
  destruct (closeCountdown w1) as [w' started]. simpl in Hcs.
  pose proof (insert_same_shrinks m1 wsId w1 w' Hw1 Hcs) as Hins.
  destruct started; [|exact Hins].
  eapply shrinks_trans; [exact Hins|].
  eapply shrinks_trans; apply emit_shrinks.
Qed.

Lemma countdownStep_alive W S R m1 wsId :
  alive W S R m1 -> alive W S R (countdownStep m1 wsId).
Proof.
  intros Hal. unfold countdownStep.
  destruct (workspaces m1 !! wsId) as [w1|] eqn:Hw1; [|done].
  pose proof (closeCountdown_sessions w1) as Hcs.
  destruct (closeCountdown w1) as [w' started]. simpl in Hcs.
  pose proof (insert_same_alive W S R m1 wsId w1 w' Hw1 Hcs Hal) as Hins.
  by destruct started.
Qed.

Lemma workspaceStep_shrinks now m e : shrinks m (workspaceStep now m e).
Proof.
  unfold SessionManager.workspaceStep.
  destruct (workspaces m !! e.1) as [w|]; [|apply shrinks_refl].
  eapply shrinks_trans; [apply sessionsLoop_shrinks|apply countdownStep_shrinks].
Qed.

Lemma workspaceStep_alive W S R now m e :
  alive W S R m -> apart W S R m ->
  (e.1 <> W
   \/ (hangTimeout (user (session R)) <? now - lastRequest (session R))%Z
      && (ticks m mod 10 =? 0) = false) ->
  alive W S R (workspaceStep now m e).
Proof.
  intros Hal Hap Hcase. unfold SessionManager.workspaceStep.
  destruct (workspaces m !! e.1) as [w|]; [|done].
  apply countdownStep_alive.
  apply (sessionsLoop_alive W S R now e.1 _ (ticks m)); [done..|].
  destruct Hcase; [by left|by right; right].
Qed.

Lemma workspaceStep_closes W S R now m x :
  alive W S R m -> apart W S R m ->
  (hangTimeout (user (session R)) <? now - lastRequest (session R))%Z
  && (ticks m mod 10 =? 0) = true ->
  sessionClosed (workspaceStep now m (W, x)) W S (socket R).
Proof.
  intros Hal Hap Hhang.
  destruct Hal as [(r & (w & Hw & Hs) & Hsame) Hreg].
  assert (Hloop : sessionClosed
                    (foldl (sessionStep now W) m (map_to_list (wsSessions w)))
                    W S (socket R)).
  { apply (sessionsLoop_closes W S R now _ (ticks m)); try done.
    - split; [|done]. exists r. split; [by exists w|done].
    - apply list_elem_of_fmap. exists (S, r). split; [done|].
      by apply elem_of_map_to_list. }
  unfold SessionManager.workspaceStep. simpl. rewrite Hw.
  eapply closed_shrinks; [exact Hloop|apply countdownStep_shrinks].
Qed.

Lemma wsLoop_shrinks now l : forall m, shrinks m (foldl (workspaceStep now) m l).
Proof.
  induction l as [|e l IH]; intros m; simpl; [apply shrinks_refl|].
  eapply shrinks_trans; [apply workspaceStep_shrinks|apply IH].
Qed.

Lemma wsLoop_alive W S R now l t : forall m,
  ticks m = t -> alive W S R m -> apart W S R m ->
  (W ∉ l.*1
   \/ (hangTimeout (user (session R)) <? now - lastRequest (session R))%Z
      && (t mod 10 =? 0) = false) ->
  alive W S R (foldl (workspaceStep now) m l).
Proof.
  induction l as [|e l IH]; intros m Ht Hal Hap Hcase; simpl; [done|].
  pose proof (workspaceStep_shrinks now m e) as Hsh.
  apply IH.
  - rewrite <- Ht. apply Hsh.
  - apply workspaceStep_alive; [done..|]. rewrite Ht.
    destruct Hcase as [Hnin|?]; [left|by right].
    intros Heq. apply Hnin. rewrite fmap_cons, Heq. apply list_elem_of_here.
  - by eapply apart_shrinks.
  - destruct Hcase as [Hnin|?]; [left|by right].
    intros Hin. apply Hnin. rewrite fmap_cons. by apply list_elem_of_further.
Qed.

Lemma wsLoop_closes W S R now l t : forall m,
  ticks m = t -> alive W S R m -> apart W S R m ->
  (hangTimeout (user (session R)) <? now - lastRequest (session R))%Z
  && (t mod 10 =? 0) = true ->
  W ∈ l.*1 ->
  sessionClosed (foldl (workspaceStep now) m l) W S (socket R).
Proof.
  induction l as [|e l IH]; intros m Ht Hal Hap Hhang Hin; simpl.
  - by apply elem_of_nil in Hin.
  - pose proof (workspaceStep_shrinks now m e) as Hsh.
    destruct (decide (e.1 = W)) as [HeW|HeW].
    + eapply closed_shrinks; [|apply wsLoop_shrinks].
      destruct e as [wsId x]. simpl in HeW. subst wsId.
      apply workspaceStep_closes; [done..|]. by rewrite Ht.
    + apply IH.
      * rewrite <- Ht. apply Hsh.
      * apply workspaceStep_alive; [done..|]. by left.
      * by eapply apart_shrinks.
      * done.
      * rewrite fmap_cons in Hin. apply elem_of_cons in Hin as [Heq|?]; [|done].
        by symmetry in Heq.
Qed.

Lemma consistent_alive W S R m :
  Consistent m -> hasSession m W S R -> alive W S R m /\ apart W S R m.
Proof.
  intros [Hreg Huniq] Hhas. split.
  - split; [exists R; split; [done|apply sameRef_refl]|]. by apply (Hreg W S R).
  - intros wsId sid r Hr Hother. split.
    + intros Heq. destruct (Huniq _ _ _ _ _ _ Hr Hhas Heq) as [-> ->].
      by destruct Hother.
    + intros -> r'' Hr''. destruct (Hreg _ _ _ Hr) as (r' & Hr' & Hid & _).
      rewrite Hr' in Hr''. injection Hr'' as <-. rewrite Hid.
      by destruct Hother.
Qed.

Lemma handleInterval_closes W S R now m :
  alive W S R m -> apart W S R m ->
  (hangTimeout (user (session R)) <? now - lastRequest (session R))%Z
  && (ticks m mod 10 =? 0) = true ->
  sessionClosed (handleInterval now m) W S (socket R).
Proof.
  intros Hal Hap Hhang.
  assert (Hin : W ∈ (map_to_list (workspaces m)).*1).
  { destruct Hal as [(r & (w & Hw & _) & _) _].
    apply list_elem_of_fmap. exists (W, w). split; [done|by apply elem_of_map_to_list]. }
  exact (wsLoop_closes W S R now _ (ticks m) m eq_refl Hal Hap Hhang Hin).
Qed.

Lemma handleInterval_alive W S R now m :
  alive W S R m -> apart W S R m ->
  (hangTimeout (user (session R)) <? now - lastRequest (session R))%Z
  && (ticks m mod 10 =? 0) = false ->
  alive W S R (handleInterval now m) /\ apart W S R (handleInterval now m).
Proof.
  intros Hal Hap Hhang. split.
  - exact (wsLoop_alive W S R now _ (ticks m) m eq_refl Hal Hap (or_intror Hhang)).
  - exact (apart_shrinks W S R m _ Hap (wsLoop_shrinks now _ m)).
Qed.

Lemma handleInterval_closed W S k now m :
  sessionClosed m W S k -> sessionClosed (handleInterval now m) W S k.
Proof.
  intros Hc. exact (closed_shrinks m _ W S k Hc (wsLoop_shrinks now _ m)).
Qed.

Lemma handleInterval_ticks now m : ticks (handleInterval now m) = Datatypes.S (ticks m).
Proof.
  unfold SessionManager.handleInterval. simpl. f_equal.
  apply (wsLoop_shrinks now _ m).
Qed.

Lemma runTicks_closed W S k nows : forall m,
  sessionClosed m W S k ->
  sessionClosed (SessionManager.runTicks systemAccountEmail nows m) W S k.
Proof.
  induction nows as [|now nows IH]; intros m Hc; simpl; [done|].
  apply IH. by apply handleInterval_closed.
Qed.

Lemma runTicks_closes W S R nows : forall j m,
  alive W S R m -> apart W S R m ->
  j < length nows -> (ticks m + j) mod 10 = 0 ->
  Forall (fun now => (hangTimeout (user (session R)) < now - lastRequest (session R))%Z) nows ->
  sessionClosed (SessionManager.runTicks systemAccountEmail nows m) W S (socket R).
Proof.
  induction nows as [|now nows IH]; intros j m Hal Hap Hj Hmod Hall; simpl in *; [lia|].
  apply Forall_cons in Hall as [Hnow Hall].
  destruct (ticks m mod 10 =? 0) eqn:Hq.
  - apply runTicks_closed. apply handleInterval_closes; [done..|].
    rewrite Hq, andb_true_r. by apply Z.ltb_lt.
  - destruct (handleInterval_alive W S R now m Hal Hap) as [Hal' Hap'].
    { by rewrite Hq, andb_false_r. }
    destruct j as [|j].
    + rewrite Nat.add_0_r in Hmod. apply Nat.eqb_neq in Hq. done.
    + apply (IH j); [done..|lia| |done].
      rewrite handleInterval_ticks. by replace (Datatypes.S (ticks m) + j) with (ticks m + Datatypes.S j) by lia.
Qed.

(** C7. For a manager whose sessions are registered, and a session [sid]
    held by the workspace [wsId]:
    - the hang timeout is 60 s, and 10 times that for the system account;
    - on a tick whose counter is a multiple of 10, a session silent for
      longer than its hang timeout is closed: the workspace drops it, its
      socket is unregistered and told to close;
    - on any other tick, or when the silence is within the hang timeout,
      the tick keeps the session;
    - so a session that stays silent beyond its hang timeout is closed
      within the next 10 ticks, on the first one whose counter is a
      multiple of 10;
    - with 70 s of silence, the session of a normal user is closed on such
      a tick and the session of the system account is kept on every tick. *)
Theorem C7_hang_close (now : Z) m wsId sid r :
  Consistent m -> hasSession m wsId sid r ->
  (hangTimeout systemAccountEmail = 10 * 60000
   /\ forall u, u <> systemAccountEmail -> hangTimeout u = 60000)%Z
  /\ (ticks m mod 10 = 0 ->
      (hangTimeout (user (session r)) < now - lastRequest (session r))%Z ->
      sessionClosed (handleInterval now m) wsId sid (socket r))
  /\ (ticks m mod 10 <> 0
      \/ (now - lastRequest (session r) <= hangTimeout (user (session r)))%Z ->
      sessionKept (handleInterval now m) wsId sid r)
  /\ (forall nows,
        10 <= length nows ->
        Forall (fun t => (hangTimeout (user (session r)) < t - lastRequest (session r))%Z)
               nows ->
        sessionClosed (SessionManager.runTicks systemAccountEmail nows m)
                      wsId sid (socket r))
  /\ ((now - lastRequest (session r))%Z = 70000%Z ->
      (user (session r) <> systemAccountEmail -> ticks m mod 10 = 0 ->
       sessionClosed (handleInterval now m) wsId sid (socket r))
      /\ (user (session r) = systemAccountEmail ->
          sessionKept (handleInterval now m) wsId sid r)).
Proof.
  intros Hcons Hhas.
  destruct (consistent_alive wsId sid r m Hcons Hhas) as [Hal Hap].
  assert (Hsys : hangTimeout systemAccountEmail = (10 * 60000)%Z).
  { unfold SessionManager.hangTimeout. by rewrite decide_True. }
  assert (Husr : forall u, u <> systemAccountEmail -> hangTimeout u = 60000%Z).
  { intros u Hu. unfold SessionManager.hangTimeout. by rewrite decide_False. }
  assert (Hclose : ticks m mod 10 = 0 ->
      (hangTimeout (user (session r)) < now - lastRequest (session r))%Z ->
      sessionClosed (handleInterval now m) wsId sid (socket r)).
  { intros Hq Hlt. apply handleInterval_closes; [done..|].
    apply andb_true_intro. split; [by apply Z.ltb_lt|by apply Nat.eqb_eq]. }
  assert (Hkeep : ticks m mod 10 <> 0
      \/ (now - lastRequest (session r) <= hangTimeout (user (session r)))%Z ->
      sessionKept (handleInterval now m) wsId sid r).
  { intros Hq.
    destruct (handleInterval_alive wsId sid r now m Hal Hap) as [[(r' & Hr' & Hs) _] _].
    - destruct Hq as [Hq|Hq].
      + apply Nat.eqb_neq in Hq. by rewrite Hq, andb_false_r.
      + apply Z.ltb_ge in Hq. by rewrite Hq.
    - exists r'. destruct Hs as (? & ? & ?). by repeat split. }
  split; [by split|]. split; [exact Hclose|]. split; [exact Hkeep|]. split.
  - intros nows Hlen Hall.
    pose proof (Nat.mod_upper_bound (ticks m) 10 ltac:(lia)) as Hub.
    pose proof (Nat.div_mod_eq (ticks m) 10) as Hdm.
    apply (runTicks_closes wsId sid r nows ((10 - ticks m mod 10) mod 10) m);
      [done..| |  |done].
    + pose proof (Nat.mod_upper_bound (10 - ticks m mod 10) 10 ltac:(lia)). lia.
    + destruct (decide (ticks m mod 10 = 0)) as [Hz|Hnz].
      * rewrite Hz. change ((10 - 0) mod 10) with 0. by rewrite Nat.add_0_r.
      * rewrite (Nat.mod_small (10 - ticks m mod 10)) by lia.
        replace (ticks m + (10 - ticks m mod 10))
          with ((ticks m / 10 + 1) * 10) by lia.
        apply Nat.Div0.mod_mul.
  - intros Hsil. split.
    + intros Hu Hq. apply Hclose; [done|]. rewrite (Husr _ Hu). lia.
    + intros Hu. apply Hkeep. right. rewrite Hu, Hsys. lia.
Qed.

End HangClose.

Lemma sampleManager_consistent u : ManagerSpec.Consistent (sampleManager u).
Proof.
  assert (H : forall wsId sid r,
             ManagerSpec.hasSession (sampleManager u) wsId sid r ->
             wsId = "ws1" /\ sid = "s1" /\ r = sampleRef u).
  { intros wsId sid r (w & Hw & Hs). simpl in Hw.
    apply lookup_singleton_Some in Hw as [<- <-]. simpl in Hs.
    by apply lookup_singleton_Some in Hs as [<- <-]. }
  split.
  - intros wsId sid r (-> & -> & ->)%H. by exists (sampleRef u).
  - intros ws1 sid1 r1 ws2 sid2 r2 (-> & -> & ->)%H (-> & -> & ->)%H _. done.
Qed.

Lemma sampleManager_hasSession u :
  ManagerSpec.hasSession (sampleManager u) "ws1" "s1" (sampleRef u).
Proof. by exists (sampleWorkspace u). Qed.

Lemma C7_hang_close_witness :
  ManagerSpec.sessionClosed
    (SessionManager.handleInterval sampleSystemEmail 70000 (sampleManager "user@example.org"))
    "ws1" "s1" "sock1"
  /\ ManagerSpec.sessionKept
       (SessionManager.handleInterval sampleSystemEmail 70000 (sampleManager sampleSystemEmail))
       "ws1" "s1" (sampleRef sampleSystemEmail).
Proof.
  split.
  - exact (proj1 (proj2 (C7_hang_close sampleSystemEmail 70000
                           (sampleManager "user@example.org") "ws1" "s1"
                           (sampleRef "user@example.org")
                           (sampleManager_consistent _) (sampleManager_hasSession _)))
                 eq_refl eq_refl).
  - exact (proj2 (proj2 (proj2 (proj2 (proj2
             (C7_hang_close sampleSystemEmail 70000
                (sampleManager sampleSystemEmail) "ws1" "s1"
                (sampleRef sampleSystemEmail)
                (sampleManager_consistent _) (sampleManager_hasSession _)))))
             eq_refl) eq_refl).
Defined.

Example hang_close_events :
  SessionManager.events
    (SessionManager.handleInterval sampleSystemEmail 70000 (sampleManager "user@example.org"))
  = [SessionManager.WarnSessionHang "ws1" "user@example.org";
     SessionManager.SocketClosed "sock1"]
  /\ SessionManager.events
       (SessionManager.handleInterval sampleSystemEmail 70000 (sampleManager sampleSystemEmail))
     = [].
Proof. split; vm_compute; reflexivity. Qed.

(** *** The session manager: soft shutdown *)

Section SoftShutdown.
Import SessionManager ManagerSpec.
Variable systemAccountEmail : string.

Local Abbreviation sessionStep := (SessionManager.sessionStep systemAccountEmail).
Local Abbreviation workspaceStep := (SessionManager.workspaceStep systemAccountEmail).
Local Abbreviation handleInterval := (SessionManager.handleInterval systemAccountEmail).

Lemma sameBut_refl w : sameBut w w.
Proof. by repeat split. Qed.

Lemma sameBut_trans w1 w2 w3 : sameBut w1 w2 -> sameBut w2 w3 -> sameBut w1 w3.
Proof.
  intros (?&?&?&?&?&?) (?&?&?&?&?&?). repeat split; try congruence. set_solver.
Qed.

Lemma sameDom_refl w : sameDom w w.
Proof. split; [apply sameBut_refl|done]. Qed.

Lemma sameDom_trans w1 w2 w3 : sameDom w1 w2 -> sameDom w2 w3 -> sameDom w1 w3.
Proof.
  intros [H1 D1] [H2 D2]. split; [by eapply sameBut_trans|set_solver].
Qed.

Lemma sameDom_sameBut w w1 : sameDom w w1 -> sameBut w w1.
Proof. by intros [? _]. Qed.

Lemma evolves_refl rel m wsId : (forall w, rel w w) -> evolves rel m m wsId.
Proof. intros Hr. repeat split; auto. intros w Hw. exists w. auto. Qed.

Lemma evolves_trans rel m1 m2 m3 wsId :
  (forall a b c, rel a b -> rel b c -> rel a c) ->
  evolves rel m1 m2 wsId -> evolves rel m2 m3 wsId -> evolves rel m1 m3 wsId.
Proof.
  intros Ht (Ha1 & Hb1 & Hc1) (Ha2 & Hb2 & Hc2). repeat split.
  - intros x Hx. by rewrite Ha2, Ha1.
  - intros w Hw. destruct (Hb1 w Hw) as (w1 & Hw1 & Hr1).
    destruct (Hb2 w1 Hw1) as (w2 & Hw2 & Hr2). exists w2. split; [done|by eapply Ht].
  - auto.
Qed.

Lemma evolves_weaken (rel rel' : Workspace -> Workspace -> Prop) m m' wsId :
  (forall a b, rel a b -> rel' a b) -> evolves rel m m' wsId -> evolves rel' m m' wsId.
Proof.
  intros Hw (Ha & Hb & Hc). repeat split; auto.
  intros w Hlook. destruct (Hb w Hlook) as (w1 & ? & ?). exists w1. auto.
Qed.

Lemma rollEntry_evolves m wsId sid : evolves sameDom m (rollEntry wsId sid m) wsId.
Proof.
  unfold rollEntry.
  destruct (workspaces m !! wsId) as [w|] eqn:Hw;
    [|apply evolves_refl, sameDom_refl].
  destruct (wsSessions w !! sid) as [s|] eqn:Hs;
    [|apply evolves_refl, sameDom_refl].
  repeat split; simpl.
  - intros x Hx. by rewrite lookup_insert_ne.
  - intros w0 Hw0. rewrite Hw in Hw0. injection Hw0 as <-.
    eexists. rewrite lookup_insert_eq. split; [reflexivity|].
    assert (Hd : dom (<[sid := {| session := rollCounters (session s); socket := socket s |}]>
                        (wsSessions w)) = dom (wsSessions w)).
    { rewrite dom_insert_L. apply elem_of_dom_2 in Hs. set_solver. }
    repeat split; simpl; by rewrite ?Hd.
  - congruence.
Qed.

Lemma close_evolves m k wsid : evolves sameBut m (close m k wsid) wsid.
Proof.
  unfold close. destruct (sessions m !! k) as [ref|];
    [|apply evolves_refl, sameBut_refl].
  simpl. destruct (workspaces m !! wsid) as [w|] eqn:Hw; simpl.
  - repeat split; simpl.
    + intros x Hx. by rewrite lookup_insert_ne.
    + intros w0 Hw0. rewrite Hw in Hw0. injection Hw0 as <-.
      eexists. rewrite lookup_insert_eq. split; [reflexivity|].
      repeat split; simpl. rewrite dom_delete_L. set_solver.
    + congruence.
  - repeat split; auto. intros w0 Hw0. simpl in Hw0. congruence.
Qed.

Lemma warnings_workspaces (now : Z) wsId u starts : forall m,
  workspaces (foldl (fun m start =>
                       if (30000 <? now - start)%Z
                       then emit m (WarnRequestHang wsId u) else m) m starts)
  = workspaces m.
Proof.
  induction starts as [|st starts IH]; intros m; simpl; [done|].
  rewrite IH. by destruct (30000 <? now - st)%Z.
Qed.

Lemma workspaces_eq_evolves rel m m' wsId :
  (forall w, rel w w) -> workspaces m' = workspaces m -> evolves rel m m' wsId.
Proof.
  intros Hr Heq. repeat split; rewrite ?Heq; auto. intros w Hw. exists w. auto.
Qed.

Lemma sessionStep_evolves now wsId m e :
  evolves sameBut m (sessionStep now wsId m e) wsId
  /\ (ticks m mod 10 <> 0 -> evolves sameDom m (sessionStep now wsId m e) wsId).
Proof.
  unfold SessionManager.sessionStep.
  destruct (workspaces m !! wsId ≫= _) as [s|].
  2:{ split; [|intros _]; apply evolves_refl; [apply sameBut_refl|apply sameDom_refl]. }
  set (m1 := if ticks m mod (5 * 60) =? 0 then rollEntry wsId e.1 m else m).
  assert (H1 : evolves sameDom m m1 wsId).
  { subst m1. destruct (ticks m mod (5 * 60) =? 0);
      [apply rollEntry_evolves|apply evolves_refl, sameDom_refl]. }
  assert (Ht1 : ticks m1 = ticks m).
  { subst m1. destruct (ticks m mod (5 * 60) =? 0); [apply rollEntry_frame|done]. }
  rewrite Ht1.
  assert (Hquiet : forall rel, (forall w, rel w w) ->
    evolves rel m1
      (foldl (fun m0 start =>
                if (30000 <? now - start)%Z
                then emit m0 (WarnRequestHang wsId (user (session s))) else m0)
         (if (20000 <? now - lastRequest (session s))%Z
             && (now - lastRequest (session s) <? 60000)%Z && (ticks m mod 10 =? 0)
          then emit m1 (SentPing (socket s)) else m1)
         (requests (session s))) wsId).
  { intros rel Hr. apply workspaces_eq_evolves; [done|].
    rewrite warnings_workspaces. by destruct (_ && _ && _). }
  destruct (ticks m mod 10 =? 0) eqn:Hq.
  - split; [|intros Hne; apply Nat.eqb_eq in Hq; done].
    eapply evolves_trans; [apply sameBut_trans| |].
    { eapply evolves_weaken; [apply sameDom_sameBut|exact H1]. }
    destruct (hangTimeout _ _ <? _)%Z; simpl.
    + apply (close_evolves (emit m1 _)).
    + apply Hquiet, sameBut_refl.
  - rewrite andb_false_r. split; [|intros _].
    + eapply evolves_trans; [apply sameBut_trans| |apply Hquiet, sameBut_refl].
      eapply evolves_weaken; [apply sameDom_sameBut|exact H1].
    + eapply evolves_trans; [apply sameDom_trans|exact H1|apply Hquiet, sameDom_refl].
Qed.

Lemma sessionsLoop_evolves now wsId l : forall m,
  evolves sameBut m (foldl (sessionStep now wsId) m l) wsId
  /\ (ticks m mod 10 <> 0 -> evolves sameDom m (foldl (sessionStep now wsId) m l) wsId).
Proof.
  induction l as [|e l IH]; intros m; simpl.
  - split; [|intros _]; apply evolves_refl; [apply sameBut_refl|apply sameDom_refl].
  - destruct (sessionStep_evolves now wsId m e) as [H1 H1'].
    destruct (IH (sessionStep now wsId m e)) as [H2 H2'].
    assert (Ht : ticks (sessionStep now wsId m e) = ticks m)
      by apply (sessionStep_shrinks systemAccountEmail now wsId m e).
    split.
    + eapply evolves_trans; [apply sameBut_trans|exact H1|exact H2].
    + intros Hq. eapply evolves_trans; [apply sameDom_trans|by apply H1'|].
      apply H2'. by rewrite Ht.
Qed.

(** Events of a step that starts no close check. *)
Lemma closeChecks_app wsId es1 es2 :
  closeChecks wsId (es1 ++ es2) = closeChecks wsId es1 ++ closeChecks wsId es2.
Proof. apply omap_app. Qed.

Lemma sessionStep_closeChecks now wsId m e x :
  closeChecks x (events (sessionStep now wsId m e)) = closeChecks x (events m).
Proof.
  unfold SessionManager.sessionStep.
  destruct (workspaces m !! wsId ≫= _) as [s|]; [|done].
  set (m1 := if ticks m mod (5 * 60) =? 0 then rollEntry wsId e.1 m else m).
  assert (H1 : events m1 = events m).
  { subst m1. destruct (ticks m mod (5 * 60) =? 0); [apply rollEntry_frame|done]. }
  assert (Hw : forall starts m0,
    closeChecks x (events (foldl (fun m0 start =>
        if (30000 <? now - start)%Z
        then emit m0 (WarnRequestHang wsId (user (session s))) else m0) m0 starts))
    = closeChecks x (events m0)).
  { induction starts as [|st starts IH]; intros m0; simpl; [done|].
    rewrite IH. destruct (30000 <? now - st)%Z; [|done].
    simpl. by rewrite closeChecks_app, app_nil_r. }
  destruct (_ && _).
  - destruct (sessions (emit m1 (WarnSessionHang wsId (user (session s)))) !! socket s)
      as [ref|] eqn:Hk.
    + destruct (sessions_close _ _ wsId _ Hk) as (_ & -> & _).
      simpl. by rewrite !closeChecks_app, H1, !app_nil_r.
    + unfold close. rewrite Hk. simpl. by rewrite closeChecks_app, H1, app_nil_r.
  - rewrite Hw. destruct (_ && _ && _); simpl; [|by rewrite H1].
    by rewrite closeChecks_app, H1, app_nil_r.
Qed.

Lemma sessionsLoop_closeChecks now wsId l x : forall m,
  closeChecks x (events (foldl (sessionStep now wsId) m l)) = closeChecks x (events m).
Proof.
  induction l as [|e l IH]; intros m; simpl; [done|].
  by rewrite IH, sessionStep_closeChecks.
Qed.

(** The end of a workspace's turn, at the workspace itself and elsewhere. *)
Lemma countdownStep_spec m wsId :
  (forall x, x <> wsId ->
     workspaces (countdownStep m wsId) !! x = workspaces m !! x
     /\ closeChecks x (events (countdownStep m wsId)) = closeChecks x (events m))
  /\ (forall w, workspaces m !! wsId = Some w ->
        workspaces (countdownStep m wsId) !! wsId = Some (closeCountdown w).1
        /\ closeChecks wsId (events (countdownStep m wsId))
           = closeChecks wsId (events m)
             ++ (if (closeCountdown w).2 then [id w] else []))
  /\ ticks (countdownStep m wsId) = ticks m.
Proof.
  unfold countdownStep.
  destruct (workspaces m !! wsId) as [w|] eqn:Hw.
  - assert (Hid : id (closeCountdown w).1 = id w).
    { unfold closeCountdown. destruct (_ && _); [|done]. simpl.
      by destruct (softShutdown w - 1 <=? 0)%Z. }
    split; [|split].
    + intros x Hx. destruct (closeCountdown w) as [w' started].
      destruct started; simpl.
      * rewrite lookup_insert_ne by done. split; [done|].
        rewrite !closeChecks_app. simpl. rewrite decide_False by done.
        by rewrite !app_nil_r.
      * by rewrite lookup_insert_ne.
    + intros w0 [= <-]. destruct (closeCountdown w) as [w' started].
      simpl in Hid. destruct started; simpl.
      * rewrite lookup_insert_eq. split; [reflexivity|].
        rewrite !closeChecks_app. simpl. rewrite decide_True by done.
        by rewrite app_nil_r, Hid.
      * rewrite lookup_insert_eq. split; [reflexivity|]. by rewrite app_nil_r.
    + destruct (closeCountdown w) as [w' started]. by destruct started.
  - split; [|split]; [by intros x Hx|intros w0; congruence|done].
Qed.

Lemma workspaceStep_other now m e x :
  x <> e.1 ->
  workspaces (workspaceStep now m e) !! x = workspaces m !! x
  /\ closeChecks x (events (workspaceStep now m e)) = closeChecks x (events m).
Proof.
  intros Hx. unfold SessionManager.workspaceStep.
  destruct (workspaces m !! e.1) as [w|]; [|done].
  destruct (countdownStep_spec (foldl (sessionStep now e.1) m (map_to_list (wsSessions w))) e.1)
    as (Hother & _ & _).
  destruct (Hother x Hx) as [-> ->].
  destruct (sessionsLoop_evolves now e.1 (map_to_list (wsSessions w)) m) as [(Ha & _) _].
  by rewrite Ha, sessionsLoop_closeChecks.
Qed.

Lemma workspaceStep_own now m wsId w0 w :
  workspaces m !! wsId = Some w ->
  exists w1,
    sameBut w w1
    /\ (ticks m mod 10 <> 0 -> sameDom w w1)
    /\ workspaces (workspaceStep now m (wsId, w0)) !! wsId = Some (closeCountdown w1).1
    /\ closeChecks wsId (events (workspaceStep now m (wsId, w0)))
       = closeChecks wsId (events m) ++ (if (closeCountdown w1).2 then [id w] else []).
Proof.
  intros Hw. unfold SessionManager.workspaceStep. simpl. rewrite Hw.
  destruct (sessionsLoop_evolves now wsId (map_to_list (wsSessions w)) m)
    as [(_ & Hb & _) Hq].
  destruct (Hb w Hw) as (w1 & Hw1 & Hsame).
  destruct (countdownStep_spec (foldl (sessionStep now wsId) m (map_to_list (wsSessions w))) wsId)
    as (_ & Hown & _).
  destruct (Hown w1 Hw1) as [Hlook Hev].
  exists w1. split; [done|]. split; [|split; [done|]].
  - intros Hne. destruct (Hq Hne) as (_ & Hb' & _).
    destruct (Hb' w Hw) as (w1' & Hw1' & Hsame'). congruence.
  - rewrite Hev, sessionsLoop_closeChecks. by destruct Hsame as (-> & _).
Qed.

Lemma wsLoop_other now l x : forall m,
  x ∉ l.*1 ->
  workspaces (foldl (workspaceStep now) m l) !! x = workspaces m !! x
  /\ closeChecks x (events (foldl (workspaceStep now) m l)) = closeChecks x (events m).
Proof.
  induction l as [|e l IH]; intros m Hnin; simpl; [done|].
  rewrite fmap_cons in Hnin. apply not_elem_of_cons in Hnin as [Hne Hnin].
  destruct (IH (workspaceStep now m e) Hnin) as [-> ->].
  by apply workspaceStep_other.
Qed.

Lemma wsLoop_own now wsId w l : forall m,
  NoDup l.*1 -> wsId ∈ l.*1 -> workspaces m !! wsId = Some w ->
  exists w1,
    sameBut w w1
    /\ (ticks m mod 10 <> 0 -> sameDom w w1)
    /\ workspaces (foldl (workspaceStep now) m l) !! wsId = Some (closeCountdown w1).1
    /\ closeChecks wsId (events (foldl (workspaceStep now) m l))
       = closeChecks wsId (events m) ++ (if (closeCountdown w1).2 then [id w] else []).
Proof.
  induction l as [|e l IH]; intros m Hnd Hin Hw; simpl.
  - by apply elem_of_nil in Hin.
  - rewrite fmap_cons in Hnd, Hin. apply NoDup_cons in Hnd as [Hnin Hnd].
    destruct (decide (e.1 = wsId)) as [HeW|HeW].
    + destruct e as [x w0]. simpl in HeW, Hnin. subst x.
      destruct (workspaceStep_own now m wsId w0 w Hw) as (w1 & Hs & Hq & Hlook & Hev).
      destruct (wsLoop_other now l wsId (workspaceStep now m (wsId, w0)) Hnin) as [-> ->].
      by exists w1.
    + apply elem_of_cons in Hin as [Heq|Hin]; [by symmetry in Heq|].
      destruct (workspaceStep_other now m e wsId) as [Hlook Hev]; [by intros ->|].
      destruct (IH (workspaceStep now m e) Hnd Hin) as (w1 & Hs & Hq & Hl & He).
      { by rewrite Hlook. }
      exists w1. split; [done|]. split; [|split; [done|by rewrite He, Hev]].
      intros Hne. apply Hq.
      by rewrite (proj2 (proj2 (proj2 (workspaceStep_shrinks systemAccountEmail now m e)))).
Qed.

Lemma handleInterval_countdown now m wsId w :
  workspaces m !! wsId = Some w ->
  exists w1,
    sameBut w w1
    /\ (ticks m mod 10 <> 0 -> sameDom w w1)
    /\ workspaces (handleInterval now m) !! wsId = Some (closeCountdown w1).1
    /\ closeChecks wsId (events (handleInterval now m))
       = closeChecks wsId (events m) ++ (if (closeCountdown w1).2 then [id w] else []).
Proof.
  intros Hw.
  apply (wsLoop_own now wsId w (map_to_list (workspaces m)) m); [| |done].
  - apply NoDup_fst_map_to_list.
  - apply list_elem_of_fmap. exists (wsId, w). split; [done|by apply elem_of_map_to_list].
Qed.

Lemma closeCountdown_spec w :
  (size (wsSessions w) = 0 -> closing w = false ->
   softShutdown (closeCountdown w).1 = (softShutdown w - 1)%Z
   /\ closing (closeCountdown w).1 = (closeCountdown w).2
   /\ ((closeCountdown w).2 = true <-> (softShutdown w - 1 <= 0)%Z))
  /\ (size (wsSessions w) <> 0 \/ closing w = true ->
      softShutdown (closeCountdown w).1 = 3%Z
      /\ closing (closeCountdown w).1 = closing w
      /\ (closeCountdown w).2 = false)
  /\ id (closeCountdown w).1 = id w
  /\ wsSessions (closeCountdown w).1 = wsSessions w.
Proof.
  unfold closeCountdown. split; [|split; [|split]].
  - intros Hs Hc. rewrite Hs, Hc. simpl.
    destruct (Z.leb_spec (softShutdown w - 1) 0); simpl; repeat split; auto; try lia.
  - intros Hcase.
    assert ((size (wsSessions w) =? 0) && negb (closing w) = false) as ->; [|done].
    destruct Hcase as [Hs| ->]; [|apply andb_false_r].
    apply Nat.eqb_neq in Hs. by rewrite Hs.
  - destruct (_ && _); [|done]. simpl. by destruct (softShutdown w - 1 <=? 0)%Z.
  - destruct (_ && _); [|done]. simpl. by destruct (softShutdown w - 1 <=? 0)%Z.
Qed.

(** From a workspace that is closing, or whose countdown stands at
    [3 - k] after [k <= 2] quiet ticks, the close check is started at tick
    [n] only if the ticks [n - 2 .. n], as far as the trace goes back,
    were quiet, and [n + k >= 2]. *)
Lemma runCountdown_started trace : forall w k n,
  closing w = true \/ (softShutdown w = 3 - Z.of_nat k)%Z /\ k <= 2 ->
  (runCountdown w trace).2 !! n = Some true ->
  2 <= n + k
  /\ forall j, j <= 2 -> j <= n ->
       exists move, trace !! (n - j) = Some move /\ quietMove move.
Proof.
  induction trace as [|move rest IH]; intros w k n Hinv Hflag; [done|].
  simpl in Hflag.
  destruct (closeCountdown_spec (betweenTicks w move)) as (Hq & Hnq & _ & _).
  destruct (closeCountdown (betweenTicks w move)) as [w1 started] eqn:Hcc.
  specialize (IH w1).
  destruct (runCountdown w1 rest) as [w2 flags]. simpl in *.
  destruct (decide (size move.1 = 0 /\ closing w || move.2 = false)) as [[Hs Hc]|Hnquiet].
  - (* a quiet tick *)
    apply orb_false_iff in Hc as [Hcw Hm].
    destruct Hinv as [Hinv|[Hsoft Hk]]; [congruence|].
    destruct (Hq Hs) as (Hs1 & Hc1 & Hst); [by rewrite Hcw, Hm|].
    destruct n as [|n].
    + injection Hflag as ->. apply proj1 in Hst. specialize (Hst eq_refl).
      split; [lia|]. intros j _ Hj. assert (j = 0) as -> by lia.
      exists move. by repeat split.
    + destruct started.
      * destruct (IH 0 n (or_introl Hc1) Hflag) as [Hn Hall].
        split; [lia|]. intros j Hj2 Hjn.
        destruct (Hall j Hj2 ltac:(lia)) as (mv & Hmv & Hqm).
        exists mv. split; [|done]. by replace (S n - j) with (S (n - j)) by lia.
      * assert (Hgt : ~ (softShutdown w - 1 <= 0)%Z).
        { intros Hle. apply Hst in Hle. discriminate. }
        destruct (IH (S k) n) as [Hn Hall]; [right; split; lia|done|].
        split; [lia|]. intros j Hj2 Hjn.
        destruct (decide (j <= n)) as [Hle|Hgt'].
        -- destruct (Hall j Hj2 Hle) as (mv & Hmv & Hqm).
           exists mv. split; [|done]. by replace (S n - j) with (S (n - j)) by lia.
        -- assert (j = S n) as -> by lia. rewrite Nat.sub_diag.
           exists move. by repeat split.
  - (* a tick with a session, or with a close in flight *)
    destruct (Hnq) as (Hs1 & Hc1 & Hst).
    { destruct (decide (size move.1 = 0)) as [Hs|Hs]; [|by left]. right.
      destruct (closing w || move.2) eqn:Hc; [done|]. by destruct Hnquiet. }
    subst started. destruct n as [|n]; [done|].
    destruct (closing w1) eqn:Hcl.
    + destruct (IH 0 n (or_introl eq_refl) Hflag) as [Hn Hall].
      split; [lia|]. intros j Hj2 Hjn.
      destruct (Hall j Hj2 ltac:(lia)) as (mv & Hmv & Hqm).
      exists mv. split; [|done]. by replace (S n - j) with (S (n - j)) by lia.
    + destruct (IH 0 n) as [Hn Hall]; [right; split; [rewrite Hs1|]; lia|done|].
      split; [lia|]. intros j Hj2 Hjn.
      destruct (Hall j Hj2 ltac:(lia)) as (mv & Hmv & Hqm).
      exists mv. split; [|done]. by replace (S n - j) with (S (n - j)) by lia.
Qed.

Lemma finishWorkspaceClose_closed m wsid wsUID x :
  workspaces (finishWorkspaceClose m wsid wsUID PipelineClosed) !! x
  = if decide (x = wsid /\ id <$> workspaces m !! wsid = Some wsUID)
    then None else workspaces m !! x.
Proof.
  unfold finishWorkspaceClose.
  destruct (decide (id <$> workspaces m !! wsid = Some wsUID)) as [Hid|Hid]; simpl.
  - destruct (decide (x = wsid)) as [->|Hne].
    + rewrite decide_True by done. apply lookup_delete_eq.
    + rewrite decide_False by (by intros [? _]). by apply lookup_delete_ne.
  - rewrite decide_False by (by intros [_ ?]). done.
Qed.

(** C8 (as amended). For a workspace [w] live under [wsId]:
    - a tick leaves under [wsId] the workspace [closeCountdown w1], where
      [w1] is [w] less the sessions the tick closed as hung (none on a
      tick whose counter is not a multiple of 10), and it starts the close
      check for [wsId], capturing the id of [w], exactly when
      [closeCountdown w1] says so;
    - [closeCountdown]: without sessions and without a close in flight the
      countdown is decremented, and the close check is started (and
      [closing] set) exactly when it reaches 0 or less; with a session, or
      with a close in flight, the countdown is reset to 3 and nothing is
      started;
    - from a countdown of 3, the close check is started at a tick only
      when that tick and the two before it found no session and no close
      in flight;
    - when the close sequence gets to its end without an error, it removes
      the workspace from the live map exactly when the workspace installed
      under the key has the id captured at decision time; other keys are
      untouched. *)
Theorem C8_soft_shutdown (now : Z) m wsId w :
  workspaces m !! wsId = Some w ->
  (exists w1,
     sameBut w w1
     /\ (ticks m mod 10 <> 0 -> sameDom w w1)
     /\ workspaces (handleInterval now m) !! wsId = Some (closeCountdown w1).1
     /\ closeChecks wsId (events (handleInterval now m))
        = closeChecks wsId (events m) ++ (if (closeCountdown w1).2 then [id w] else []))
  /\ (forall w1,
        (size (wsSessions w1) = 0 -> closing w1 = false ->
         softShutdown (closeCountdown w1).1 = (softShutdown w1 - 1)%Z
         /\ closing (closeCountdown w1).1 = (closeCountdown w1).2
         /\ ((closeCountdown w1).2 = true <-> (softShutdown w1 - 1 <= 0)%Z))
        /\ (size (wsSessions w1) <> 0 \/ closing w1 = true ->
            softShutdown (closeCountdown w1).1 = 3%Z
            /\ closing (closeCountdown w1).1 = closing w1
            /\ (closeCountdown w1).2 = false))
  /\ (forall trace w0 n,
        softShutdown w0 = 3%Z ->
        (runCountdown w0 trace).2 !! n = Some true ->
        2 <= n
        /\ forall j, j <= 2 ->
             exists move, trace !! (n - j) = Some move /\ quietMove move)
  /\ (forall wsUID x,
        workspaces (finishWorkspaceClose (handleInterval now m) wsId wsUID PipelineClosed) !! x
        = if decide (x = wsId /\ id <$> workspaces (handleInterval now m) !! wsId = Some wsUID)
          then None else workspaces (handleInterval now m) !! x).
Proof.
  intros Hw. split; [by apply handleInterval_countdown|]. split; [|split].
  - intros w1. destruct (closeCountdown_spec w1) as (H1 & H2 & _). by split.
  - intros trace w0 n Hs Hflag.
    destruct (runCountdown_started trace w0 0 n) as [Hn Hall]; [right; split; lia|done|].
    split; [lia|]. intros j Hj. apply Hall; lia.
  - intros wsUID x. apply finishWorkspaceClose_closed.
Qed.

End SoftShutdown.

Lemma C8_soft_shutdown_witness :
  exists w1,
    ManagerSpec.sameBut (sampleWorkspace "user@example.org") w1
    /\ SessionManager.workspaces
         (SessionManager.handleInterval sampleSystemEmail 1000
            (sampleManager "user@example.org")) !! "ws1"
       = Some (SessionManager.closeCountdown w1).1.
Proof.
  destruct (proj1 (C8_soft_shutdown sampleSystemEmail 1000
                     (sampleManager "user@example.org") "ws1"
                     (sampleWorkspace "user@example.org") eq_refl))
    as (w1 & Hsame & _ & Hlook & _).
  exists w1. split; [exact Hsame|exact Hlook].
Defined.

(** C8 as stated fails twice.  A workspace without sessions whose close is
    in flight has its countdown reset to 3, not decremented (here from 0);
    and a workspace whose only session is closed as hung on the tick has
    its countdown decremented on that tick (here from 3 to 2), not reset. *)
Lemma C8_countdown_counterexample :
  SessionManager.softShutdown
    <$> SessionManager.workspaces
          (SessionManager.handleInterval sampleSystemEmail 0 closingManager) !! "ws1"
  = Some 3%Z
  /\ SessionManager.softShutdown
       <$> SessionManager.workspaces
             (SessionManager.handleInterval sampleSystemEmail 70000
                (sampleManager "user@example.org")) !! "ws1"
     = Some 2%Z.
Proof. split; vm_compute; reflexivity. Qed.

(** When the close sequence fails, the workspace installed under the key
    is removed whatever its id: the catch branch does not compare ids. *)
Example close_failure_removes_any :
  SessionManager.workspaces
    (SessionManager.finishWorkspaceClose (sampleManager "user@example.org")
       "ws1" "uid0" SessionManager.PipelineThrew) !! "ws1" = None
  /\ SessionManager.workspaces
       (SessionManager.finishWorkspaceClose (sampleManager "user@example.org")
          "ws1" "uid0" SessionManager.PipelineClosed) !! "ws1"
     = Some (sampleWorkspace "user@example.org").
Proof. split; vm_compute; reflexivity. Qed.

(** *** The session manager: the version gate of addSession *)

Section VersionGate.
Import SessionManager.
Variable systemAccountEmail : string.
Variable versionToString : Version -> string.

Local Abbreviation addSession := (SessionManager.addSession systemAccountEmail versionToString).

Lemma addSession_gate m env socketId token sid info v :
  resolveInfo env token 5 0 = FetchOk (Some info) ->
  version info = Some v ->
  creating info <> Some true \/ email token = systemAccountEmail ->
  addSession m env socketId token sid
  = if bool_decide (modelVersion m ≠ "")
       && bool_decide (modelVersion m ≠ versionToString v)
       && bool_decide (extraModel token ≠ Some "upgrade")
       && bool_decide (extraMode token ≠ Some "backup")
    then (emit m (WarnVersionMismatch (modelVersion m) (versionToString v)),
          UpgradeResult (infoUpgrade info))
    else enterWorkspace m env socketId token sid.
Proof.
  intros Hres Hv Hcreating. unfold SessionManager.addSession. rewrite Hres. simpl.
  assert (bool_decide (creating info = Some true)
          && bool_decide (email token ≠ systemAccountEmail) = false) as ->.
  { destruct Hcreating as [Hc|He].
    - by rewrite (bool_decide_eq_false_2 _ Hc).
    - rewrite (bool_decide_eq_false_2 (email token ≠ systemAccountEmail)); [|by intros ?].
      apply andb_false_r. }
  by rewrite Hv.
Qed.

Lemma enterWorkspace_upgrade_token m env socketId token sid :
  extraModel token = Some "upgrade" -> pipelineThrows env = None ->
  exists s, (enterWorkspace m env socketId token sid).2 = SessionResult s (workspace token).
Proof.
  intros Hup Hpipe. unfold enterWorkspace. rewrite Hup, Hpipe.
  rewrite (bool_decide_eq_true_2 (Some "upgrade" = Some "upgrade")) by done.
  repeat match goal with
         | |- context [match ?x with _ => _ end] =>
             match x with
             | context [match _ with _ => _ end] => fail 1
             | _ => destruct x
             end
         end; simpl; eauto.
Qed.

(** C5 (as amended). When the workspace info is resolved and carries a
    version, the server has a model version, the two differ, and the call
    is not turned away for a workspace in its creation phase (the workspace
    is not being created, or the caller is the system account):
    - with neither the upgrade nor the backup claim, [addSession] answers
      [{ upgrade: true, upgradeInfo }]: it creates no session, changes
      neither the workspaces nor the sessions, and does not throw;
    - with either claim, [addSession] goes on as if the versions agreed:
      it is [enterWorkspace], which never reads a version; with the upgrade
      claim a session is created as soon as the pipeline is there. *)
Theorem C5_version_gate m env socketId token sid info v :
  resolveInfo env token 5 0 = FetchOk (Some info) ->
  version info = Some v ->
  modelVersion m <> "" ->
  modelVersion m <> versionToString v ->
  creating info <> Some true \/ email token = systemAccountEmail ->
  (extraModel token <> Some "upgrade" -> extraMode token <> Some "backup" ->
   addSession m env socketId token sid
   = (emit m (WarnVersionMismatch (modelVersion m) (versionToString v)),
      UpgradeResult (infoUpgrade info)))
  /\ (extraModel token = Some "upgrade" \/ extraMode token = Some "backup" ->
      addSession m env socketId token sid = enterWorkspace m env socketId token sid)
  /\ (extraModel token = Some "upgrade" -> pipelineThrows env = None ->
      exists s, (addSession m env socketId token sid).2 = SessionResult s (workspace token)).
Proof.
  intros Hres Hv Hmv Hne Hcreating.
  rewrite (addSession_gate m env socketId token sid info v Hres Hv Hcreating).
  rewrite (bool_decide_eq_true_2 _ Hmv), (bool_decide_eq_true_2 _ Hne). simpl.
  split; [|split].
  - intros Hup Hbk.
    by rewrite (bool_decide_eq_true_2 _ Hup), (bool_decide_eq_true_2 _ Hbk).
  - intros [Hup|Hbk].
    + rewrite (bool_decide_eq_false_2 (extraModel token ≠ Some "upgrade")); [done|].
      by intros ?.
    + rewrite (bool_decide_eq_false_2 (extraMode token ≠ Some "backup")); [|by intros ?].
      by rewrite andb_false_r.
  - intros Hup Hpipe.
    rewrite (bool_decide_eq_false_2 (extraModel token ≠ Some "upgrade")); [|by intros ?].
    simpl. by apply enterWorkspace_upgrade_token.
Qed.

End VersionGate.

Lemma C5_version_gate_witness :
  SessionManager.addSession sampleSystemEmail sampleVersionToString
    (sampleManager "user@example.org") (sampleAddEnv false) "sock2" (sampleToken None) None
  = (SessionManager.emit (sampleManager "user@example.org")
       (SessionManager.WarnVersionMismatch "0.6.1" "0.6.0"),
     SessionManager.UpgradeResult None).
Proof.
  refine (proj1 (C5_version_gate sampleSystemEmail sampleVersionToString
                   (sampleManager "user@example.org") (sampleAddEnv false) "sock2"
                   (sampleToken None) None (sampleInfo false)
                   {| SessionManager.major := 0; SessionManager.minor := 6;
                      SessionManager.patch := 0 |} _ _ _ _ _) _ _).
  - vm_compute. reflexivity.
  - reflexivity.
  - discriminate.
  - vm_compute. discriminate.
  - left. discriminate.
  - discriminate.
  - discriminate.
Defined.

(** C5 as stated fails for a workspace in its creation phase: the server's
    model version is 0.6.1, the workspace info carries version 0.6.0, the
    token carries no claim, and [addSession] answers with an error value,
    not with [{ upgrade: true }]. *)
Lemma C5_creating_counterexample :
  SessionManager.modelVersion (sampleManager "user@example.org") = "0.6.1"
  /\ SessionManager.resolveInfo (sampleAddEnv true) (sampleToken None) 5 0
     = SessionManager.FetchOk (Some (sampleInfo true))
  /\ sampleVersionToString <$> SessionManager.version (sampleInfo true) = Some "0.6.0"
  /\ SessionManager.extra (sampleToken None) = None
  /\ SessionManager.addSession sampleSystemEmail sampleVersionToString
       (sampleManager "user@example.org") (sampleAddEnv true) "sock2" (sampleToken None) None
     = (sampleManager "user@example.org",
        SessionManager.ErrorResult "Workspace during creation phase user@example.org ws1").
Proof. repeat split; vm_compute; reflexivity. Qed.

(** With the backup claim the same mismatch lets the session in. *)
Example backup_claim_enters :
  (SessionManager.addSession sampleSystemEmail sampleVersionToString
     (sampleManager "user@example.org") (sampleAddEnv false) "sock2"
     (sampleToken (Some backupClaim)) None).2
  = SessionManager.SessionResult
      {| SessionManager.sessionId := "s2"; SessionManager.user := "user@example.org";
         SessionManager.lastRequest := 0; SessionManager.requests := [];
         SessionManager.currentFind := 0; SessionManager.currentTx := 0;
         SessionManager.mins5Find := 0; SessionManager.mins5Tx := 0 |}
      "ws1".
Proof. vm_compute. reflexivity. Qed.

(** *** handleSend: chunked responses *)

Section ChunkedSend.
Import Send.
Context {Doc LookupMap : Type}.
Variable jsonLength : Doc -> nat.
Variable toFindResult : list Doc -> FindResult Doc LookupMap.
Hypothesis toFindResult_docs : forall l, docs (toFindResult l) = l.

Local Abbreviation sendChunks := (Send.sendChunks toFindResult).
Local Abbreviation handleSend := (Send.handleSend jsonLength toFindResult).

Lemma sendChunks_nil fuel isClosed msg orig itemChunk cid :
  sendChunks fuel isClosed msg orig itemChunk [] cid = [].
Proof. by destruct fuel. Qed.

Lemma frameDocs_array a (r : FindResult Doc LookupMap) c :
  frameDocs {| frameId := a; frameResult := ArrayResult r; frameChunk := c |} = docs r.
Proof. reflexivity. Qed.

Lemma sendChunks_frames isClosed msg orig itemChunk fuel : forall data cid,
  (forall k, isClosed k = false) ->
  (1 <= itemChunk)%Z ->
  length data <= fuel ->
  let frames := sendChunks fuel isClosed msg orig itemChunk data cid in
  concat (map frameDocs frames) = data
  /\ (data <> [] -> frames <> [])
  /\ (forall i f, frames !! i = Some f ->
        frameId f = id msg
        /\ frameChunk f = Some (cid + i, bool_decide (S i = length frames))
        /\ (S i < length frames ->
            frameResult f = ArrayResult (toFindResult (frameDocs f))
            /\ Z.of_nat (length (frameDocs f)) = itemChunk)
        /\ (S i = length frames ->
            frameResult f = ArrayResult {| docs := frameDocs f;
                                           total := Some (default 0%Z (total orig));
                                           lookupMap := lookupMap orig |}
            /\ (2 * Z.of_nat (length (frameDocs f)) < 3 * itemChunk)%Z)).
Proof.
  induction fuel as [|fuel IH]; intros data cid Hopen Hic Hlen.
  - destruct data; [|simpl in Hlen; lia]. simpl. repeat split; try done.
  - destruct data as [|d data'] eqn:Hdata.
    { rewrite sendChunks_nil. simpl. repeat split; try done. }
    rewrite <- Hdata in *. assert (Hpos : 0 < length data) by (subst; simpl; lia).
    simpl sendChunks. rewrite Hopen, andb_true_r.
    replace (0 <? length data) with true by (symmetry; apply Nat.ltb_lt; lia).
    unfold Js.splice0.
    set (c := if (2 * (Z.of_nat (length data) - itemChunk) <? itemChunk)%Z
              then Z.of_nat (length data) else itemChunk).
    set (n := Z.to_nat (Z.max 0 c)).
    destruct (Z.ltb_spec (2 * (Z.of_nat (length data) - itemChunk)) itemChunk) as [Hlast|Hmore].
    + (* the rest goes in one last frame *)
      assert (Hn : n = length data) by (subst n c; lia).
      rewrite Hn, take_ge, drop_ge by lia.
      rewrite sendChunks_nil. simpl.
      rewrite frameDocs_array. simpl. rewrite toFindResult_docs, app_nil_r.
      split; [done|]. split; [done|].
      intros i f Hi. destruct i as [|i]; [|done]. injection Hi as <-. simpl.
      rewrite frameDocs_array, Nat.add_0_r. simpl.
      split; [done|]. split; [done|]. split; [intros ?; lia|].
      intros _. split; [done|]. lia.
    + (* a full frame, and more to send *)
      assert (Hn : n = Z.to_nat itemChunk) by (subst n c; lia).
      assert (Hlt : n < length data) by lia.
      assert (Hrest : length (drop n data) = length data - n) by apply length_drop.
      assert (Htake : length (take n data) = n) by (rewrite length_take; lia).
      replace (length (drop n data) =? 0) with false
        by (symmetry; apply Nat.eqb_neq; lia).
      specialize (IH (drop n data) (S cid) Hopen Hic ltac:(lia)).
      set (frames := sendChunks fuel isClosed msg orig itemChunk (drop n data) (S cid)) in *.
      destruct IH as (Hcat & Hne & Hall).
      assert (Hframes : frames <> []).
      { apply Hne. intros Hnil. rewrite Hnil in Hrest. simpl in Hrest. lia. }
      assert (Hfl : 0 < length frames) by (destruct frames; [done|simpl; lia]).
      simpl. rewrite frameDocs_array, toFindResult_docs, Hcat, take_drop.
      split; [done|]. split; [done|].
      intros i f Hi. destruct i as [|i].
      * injection Hi as <-. simpl. rewrite frameDocs_array, toFindResult_docs, Nat.add_0_r.
        rewrite bool_decide_eq_false_2 by lia.
        split; [done|]. split; [done|]. split; [|intros ?; lia].
        intros _. split; [done|]. lia.
      * simpl in Hi. destruct (Hall i f Hi) as (Hid & Hch & Hmid & Hend).
        split; [done|]. split.
        { rewrite Hch. f_equal. f_equal; [lia|].
          apply bool_decide_ext. lia. }
        split; [intros ?; apply Hmid; lia|intros ?; apply Hend; lia].
Qed.

Lemma div_nonneg (a b : Z) : (0 <= a)%Z -> (0 <= b)%Z -> (0 <= a / b)%Z.
Proof.
  intros Ha Hb. destruct (decide (b = 0%Z)) as [->|Hne].
  - by rewrite Z.div_0_r.
  - apply Z.div_pos; lia.
Qed.

Lemma itemChunkOf_pos (data : list Doc) chunkLimit :
  (0 < chunkLimit)%Z -> (1 <= itemChunkOf jsonLength data chunkLimit)%Z.
Proof.
  intros Hl. unfold itemChunkOf, Js.roundDiv.
  assert (Havg : (0 <= avgSize jsonLength data)%Z).
  { unfold avgSize, Js.roundDiv. apply div_nonneg; lia. }
  assert (0 <= (2 * chunkLimit + avgSize jsonLength data)
               / (2 * avgSize jsonLength data))%Z; [|lia].
  apply div_nonneg; lia.
Qed.

Lemma avgSize_pos (data : list Doc) :
  0 < length data -> (1 <= avgSize jsonLength data)%Z.
Proof.
  intros Hn. unfold avgSize, Js.roundDiv, jsonArrayLength.
  apply Z.div_le_lower_bound; lia.
Qed.

(** C9 (as amended). A response whose result is an array of more than one
    element, sent with a positive chunk limit over a socket that stays
    open, goes out as one or more frames such that:
    - the frames' arrays, put end to end, are the original array;
    - the frames are numbered 1, 2, ... and [final] is set on the last
      frame and on no other;
    - every frame but the last is the plain [toFindResult] of its part and
      carries exactly [itemChunk = round(chunkLimit / avg) + 1] documents,
      [avg >= 1] being the rounded average JSON length per document; the
      last frame carries fewer than one and a half times [itemChunk]
      documents, the total of the original (0 when it has none) and its
      lookup map.
    The chunk limit thus bounds the documents per frame through the
    average; it does not bound the size of each frame. *)
Theorem C9_chunked_send isClosed msg orig chunkLimit :
  result msg = ArrayResult orig ->
  1 < length (docs orig) ->
  (0 < chunkLimit)%Z ->
  (forall k, isClosed k = false) ->
  (1 <= avgSize jsonLength (docs orig))%Z
  /\ handleSend isClosed msg chunkLimit <> []
  /\ concat (map frameDocs (handleSend isClosed msg chunkLimit)) = docs orig
  /\ forall i f, handleSend isClosed msg chunkLimit !! i = Some f ->
       frameId f = id msg
       /\ frameChunk f
          = Some (1 + i, bool_decide (S i = length (handleSend isClosed msg chunkLimit)))
       /\ (S i < length (handleSend isClosed msg chunkLimit) ->
           frameResult f = ArrayResult (toFindResult (frameDocs f))
           /\ Z.of_nat (length (frameDocs f)) = itemChunkOf jsonLength (docs orig) chunkLimit)
       /\ (S i = length (handleSend isClosed msg chunkLimit) ->
           frameResult f = ArrayResult {| docs := frameDocs f;
                                          total := Some (default 0%Z (total orig));
                                          lookupMap := lookupMap orig |}
           /\ (2 * Z.of_nat (length (frameDocs f))
               < 3 * itemChunkOf jsonLength (docs orig) chunkLimit)%Z).
Proof.
  intros Hres Hlen Hlimit Hopen.
  split; [apply avgSize_pos; lia|].
  unfold Send.handleSend. rewrite Hres.
  replace (1 <? length (docs orig)) with true by (symmetry; apply Nat.ltb_lt; lia).
  replace (0 <? chunkLimit)%Z with true by (symmetry; apply Z.ltb_lt; lia).
  simpl andb. cbv iota.
  destruct (sendChunks_frames isClosed msg orig
              (itemChunkOf jsonLength (docs orig) chunkLimit)
              (length (docs orig)) (docs orig) 1 Hopen
              (itemChunkOf_pos (docs orig) chunkLimit Hlimit) (le_n _))
    as (Hcat & Hne & Hall).
  split; [|split; [exact Hcat|exact Hall]].
  apply Hne. intros Hnil. rewrite Hnil in Hlen. simpl in Hlen. lia.
Qed.

End ChunkedSend.

Lemma C9_chunked_send_witness :
  concat (map Send.frameDocs
            (Send.handleSend (fun n => n) sampleToFindResult (fun _ => false)
               sampleResponse 100))
  = [200; 200; 200; 200].
Proof.
  refine (proj1 (proj2 (proj2
            (C9_chunked_send (fun n => n) sampleToFindResult (fun l => eq_refl)
               (fun _ => false) sampleResponse
               {| Send.docs := [200; 200; 200; 200];
                  Send.total := Some 4%Z;
                  Send.lookupMap := Some tt |}
               100 eq_refl _ _ (fun _ => eq_refl))))).
  - simpl. lia.
  - lia.
Defined.

Example chunked_send_frames :
  map Send.frameChunk
    (Send.handleSend (fun n => n) sampleToFindResult (fun _ => false) sampleResponse 100)
  = [Some (1, false); Some (2, false); Some (3, false); Some (4, true)]
  /\ map Send.frameResult
       (Send.handleSend (fun n => n) sampleToFindResult (fun _ => false) sampleResponse 100)
     = [Send.ArrayResult (sampleToFindResult [200]);
        Send.ArrayResult (sampleToFindResult [200]);
        Send.ArrayResult (sampleToFindResult [200]);
        Send.ArrayResult {| Send.docs := [200]; Send.total := Some 4%Z;
                            Send.lookupMap := Some tt |}].
Proof. split; vm_compute; reflexivity. Qed.

(** C9 as stated fails on the size of a frame: with a chunk limit of 100
    and four documents of 200 characters, every frame carries one document
    and is 202 characters long; with a limit of 327 the four documents go
    out in a single frame of 805 characters. *)
Lemma C9_frame_size_counterexample :
  map (Send.frameSize (fun n => n))
    (Send.handleSend (fun n => n) sampleToFindResult (fun _ => false) sampleResponse 100)
  = [202; 202; 202; 202]
  /\ map (Send.frameSize (fun n => n))
       (Send.handleSend (fun n => n) sampleToFindResult (fun _ => false) sampleResponse 327)
     = [805]
  /\ 100 < 202 /\ 327 < 805.
Proof. repeat split; try (vm_compute; reflexivity); lia. Qed.

(** *** Restore: the removal pass *)

Lemma performCleanOfDomain_spec c clean fuel : forall i docsToRemove calls next,
  Backup.performCleanOfDomain fuel clean i docsToRemove c = Some (calls, next) ->
  Backup.cleaned calls ≡ₚ docsToRemove
  /\ Forall (fun call => Backup.cleanDomain call = c
                         /\ (0 < Z.of_nat (length (Backup.cleanIds call)) <= 10000)%Z) calls
  /\ (docsToRemove <> [] -> calls <> [])
  /\ next = i + length calls
  /\ (forall n call, calls !! n = Some call -> Backup.cleanOk call = clean (i + n)).
Proof.
  induction fuel as [|fuel IH]; intros i docs calls next Hrun.
  - simpl in Hrun. destruct docs; [|done]. simpl in Hrun. injection Hrun as <- <-.
    repeat split; try done; lia.
  - cbn [Backup.performCleanOfDomain] in Hrun.
    destruct (Nat.ltb_spec 0 (length docs)) as [Hpos|Hempty].
    + unfold Js.splice0 in Hrun.
      set (n := Z.to_nat (Z.max 0 10000)) in Hrun.
      assert (Hn : Z.of_nat n = 10000%Z) by (subst n; lia).
      assert (Htake : (0 < Z.of_nat (length (take n docs)) <= 10000)%Z).
      { rewrite length_take. lia. }
      assert (Hsplit : take n docs ++ drop n docs = docs) by apply take_drop.
      cbv zeta in Hrun.
      destruct (Backup.performCleanOfDomain fuel clean (S i) _ c) as [[calls' next']|]
        eqn:Hrest; [|done].
      injection Hrun as <- <-.
      destruct (IH _ _ _ _ Hrest) as (Hperm & Hall & _ & Hnext & Hok).
      split; [|split; [|split; [done|split]]].
      * unfold Backup.cleaned in *. simpl.
        destruct (clean i); simpl.
        -- by rewrite Hperm, Hsplit.
        -- by rewrite Hperm, Permutation_app_comm, Hsplit.
      * constructor; [|done]. simpl. split; [done|lia].
      * simpl. lia.
      * intros [|m] call Hm; simpl in Hm.
        -- injection Hm as <-. simpl. by rewrite Nat.add_0_r.
        -- rewrite (Hok m call Hm). f_equal. lia.
    + assert (docs = []) as -> by (destruct docs; [done|simpl in Hempty; lia]).
      injection Hrun as <- <-. repeat split; try done; lia.
Qed.

Lemma performCleanOfDomain_ends c clean failures :
  (forall n, failures <= n -> clean n = true) ->
  forall fuel i docsToRemove,
    (failures - i) + length docsToRemove <= fuel ->
    is_Some (Backup.performCleanOfDomain fuel clean i docsToRemove c).
Proof.
  intros Hclean.
  induction fuel as [|fuel IH]; intros i docs Hfuel.
  - destruct docs; [by eexists|simpl in Hfuel; lia].
  - cbn [Backup.performCleanOfDomain].
    destruct (Nat.ltb_spec 0 (length docs)) as [Hpos|Hempty]; [|by eexists].
    unfold Js.splice0. set (n := Z.to_nat (Z.max 0 10000)).
    assert (Hn : 0 < n) by (subst n; lia).
    cbv zeta.
    destruct (IH (S i) (if clean i then drop n docs else drop n docs ++ take n docs))
      as [[calls next] ->]; [|by eexists].
    destruct (clean i) eqn:Hi.
    + rewrite length_drop. lia.
    + rewrite length_app, length_take, length_drop.
      assert (i < failures).
      { destruct (Nat.lt_ge_cases i failures) as [?|Hge]; [done|].
        rewrite (Hclean i Hge) in Hi. done. }
      lia.
Qed.

Lemma performCleanOfDomain_stuck c clean :
  (forall n, clean n = false) ->
  forall fuel i docsToRemove,
    docsToRemove <> [] ->
    Backup.performCleanOfDomain fuel clean i docsToRemove c = None.
Proof.
  intros Hclean.
  induction fuel as [|fuel IH]; intros i docs Hdocs.
  - by destruct docs.
  - cbn [Backup.performCleanOfDomain].
    destruct (Nat.ltb_spec 0 (length docs)) as [Hpos|Hempty];
      [|destruct docs; [done|simpl in Hempty; lia]].
    unfold Js.splice0. cbv zeta. rewrite Hclean.
    rewrite IH; [done|].
    intros Hnil. apply (f_equal length) in Hnil.
    rewrite length_app, length_take, length_drop in Hnil.
    change (length (@nil string)) with 0 in Hnil. lia.
Qed.

Lemma removalPass_blob fuel merge docsToRemove clean :
  Backup.removalPass fuel merge Backup.DOMAIN_BLOB docsToRemove clean = Some [].
Proof. reflexivity. Qed.

Lemma removalPass_merge fuel c docsToRemove clean :
  Backup.removalPass fuel (Some true) c docsToRemove clean = Some [].
Proof.
  unfold Backup.removalPass. destruct (bool_decide (c ≠ Backup.DOMAIN_BLOB)); [|done].
  by rewrite andb_false_r.
Qed.

(** What a removal pass that is run and ends has done. *)
Lemma removalPass_spec fuel merge c docs clean calls :
  c <> Backup.DOMAIN_BLOB -> merge <> Some true ->
  Backup.removalPass fuel merge c docs clean = Some calls ->
  exists calls1 calls2,
    calls = calls1 ++ calls2
    /\ Forall (fun call => Backup.cleanDomain call = Backup.DOMAIN_FULLTEXT_BLOB
                           /\ (0 < Z.of_nat (length (Backup.cleanIds call)) <= 10000)%Z)
              calls1
    /\ Backup.cleaned calls1
       ≡ₚ (if bool_decide (c = Backup.DOMAIN_DOC_INDEX_STATE) then docs else [])
    /\ Forall (fun call => Backup.cleanDomain call = c
                           /\ (0 < Z.of_nat (length (Backup.cleanIds call)) <= 10000)%Z)
              calls2
    /\ Backup.cleaned calls2 ≡ₚ docs
    /\ (docs <> [] -> calls2 <> []).
Proof.
  intros Hc Hmerge. unfold Backup.removalPass.
  rewrite (bool_decide_eq_true_2 _ Hc), (bool_decide_eq_true_2 _ Hmerge), andb_true_r.
  destruct (Nat.ltb_spec 0 (length docs)) as [Hpos|Hempty].
  - destruct (bool_decide (c = Backup.DOMAIN_DOC_INDEX_STATE)).
    + destruct (Backup.performCleanOfDomain fuel clean 0 docs Backup.DOMAIN_FULLTEXT_BLOB)
        as [[calls1 next]|] eqn:H1; [|done].
      destruct (Backup.performCleanOfDomain fuel clean next docs c)
        as [[calls2 next2]|] eqn:H2; [|done].
      intros [= <-].
      destruct (performCleanOfDomain_spec _ _ _ _ _ _ _ H1) as (P1 & F1 & _).
      destruct (performCleanOfDomain_spec _ _ _ _ _ _ _ H2) as (P2 & F2 & N2 & _).
      by exists calls1, calls2.
    + destruct (Backup.performCleanOfDomain fuel clean 0 docs c)
        as [[calls2 next2]|] eqn:H2; [|done].
      intros [= <-].
      destruct (performCleanOfDomain_spec _ _ _ _ _ _ _ H2) as (P2 & F2 & N2 & _).
      exists [], calls2. by repeat split.
  - assert (docs = []) as -> by (destruct docs; [done|simpl in Hempty; lia]).
    intros [= <-]. exists [], []. repeat split; try done. by destruct (bool_decide _).
Qed.

(** The pass ends once [connection.clean] has stopped failing. *)
Lemma removalPass_ends fuel merge c docs clean failures :
  (forall n, failures <= n -> clean n = true) ->
  failures + length docs <= fuel ->
  is_Some (Backup.removalPass fuel merge c docs clean).
Proof.
  intros Hclean Hfuel. unfold Backup.removalPass.
  destruct (bool_decide (c ≠ Backup.DOMAIN_BLOB)); [|by eexists].
  destruct (_ && _); [|by eexists].
  assert (Hone : forall i d, is_Some (Backup.performCleanOfDomain fuel clean i docs d)).
  { intros i d. apply (performCleanOfDomain_ends d clean failures Hclean). lia. }
  destruct (bool_decide (c = Backup.DOMAIN_DOC_INDEX_STATE)).
  - destruct (Hone 0 Backup.DOMAIN_FULLTEXT_BLOB) as [[calls1 next] ->].
    destruct (Hone next c) as [[calls2 next2] ->]. by eexists.
  - destruct (Hone 0 c) as [[calls2 next2] ->]. by eexists.
Qed.

(** The pass does not end while [connection.clean] keeps failing. *)
Lemma removalPass_stuck fuel merge c docs clean :
  c <> Backup.DOMAIN_BLOB -> merge <> Some true -> docs <> [] ->
  (forall n, clean n = false) ->
  Backup.removalPass fuel merge c docs clean = None.
Proof.
  intros Hc Hmerge Hdocs Hclean. unfold Backup.removalPass.
  rewrite (bool_decide_eq_true_2 _ Hc), (bool_decide_eq_true_2 _ Hmerge), andb_true_r.
  destruct (Nat.ltb_spec 0 (length docs)) as [Hpos|Hempty];
    [|destruct docs; [done|simpl in Hempty; lia]].
  destruct (bool_decide (c = Backup.DOMAIN_DOC_INDEX_STATE)).
  - by rewrite (performCleanOfDomain_stuck _ clean Hclean).
  - by rewrite (performCleanOfDomain_stuck _ clean Hclean).
Qed.

(** C10. At the end of [processDomain], for the ids [docsToRemove] the
    server holds and the target digest lacks:
    - for the blob domain no [clean] call is made, whatever [merge] is;
    - with [merge] set no [clean] call is made, whatever the domain;
    - for any other domain without [merge], the pass runs: a pass that
      has ended has cleaned the ids from the domain in batches of at most
      10000, a failed batch being queued again, so that the batches that
      went through are together exactly [docsToRemove], with at least one
      call when there is an id; when the domain is the doc-index-state
      domain the same ids have first been cleaned, the same way, from the
      fulltext domain, and otherwise no other domain is touched;
    - the pass ends once [connection.clean] has stopped failing, and does
      not end while every call fails: a failed batch is queued again
      without any bound. *)
Theorem C10_removal_pass fuel merge c serverIds changeset clean :
  Backup.removalPass fuel merge Backup.DOMAIN_BLOB
    (Backup.docsToRemoveOf serverIds changeset) clean = Some []
  /\ Backup.removalPass fuel (Some true) c (Backup.docsToRemoveOf serverIds changeset) clean
     = Some []
  /\ (c <> Backup.DOMAIN_BLOB -> merge <> Some true ->
      (forall calls,
         Backup.removalPass fuel merge c (Backup.docsToRemoveOf serverIds changeset) clean
         = Some calls ->
         exists calls1 calls2,
           calls = calls1 ++ calls2
           /\ Forall (fun call => Backup.cleanDomain call = Backup.DOMAIN_FULLTEXT_BLOB
                                  /\ (0 < Z.of_nat (length (Backup.cleanIds call)) <= 10000)%Z)
                     calls1
           /\ Backup.cleaned calls1
              ≡ₚ (if bool_decide (c = Backup.DOMAIN_DOC_INDEX_STATE)
                  then Backup.docsToRemoveOf serverIds changeset else [])
           /\ Forall (fun call => Backup.cleanDomain call = c
                                  /\ (0 < Z.of_nat (length (Backup.cleanIds call)) <= 10000)%Z)
                     calls2
           /\ Backup.cleaned calls2 ≡ₚ Backup.docsToRemoveOf serverIds changeset
           /\ (Backup.docsToRemoveOf serverIds changeset <> [] -> calls2 <> []))
      /\ (forall failures,
            (forall n, failures <= n -> clean n = true) ->
            failures + length (Backup.docsToRemoveOf serverIds changeset) <= fuel ->
            is_Some (Backup.removalPass fuel merge c
                       (Backup.docsToRemoveOf serverIds changeset) clean))
      /\ ((forall n, clean n = false) ->
          Backup.docsToRemoveOf serverIds changeset <> [] ->
          Backup.removalPass fuel merge c (Backup.docsToRemoveOf serverIds changeset) clean
          = None)).
Proof.
  split; [apply removalPass_blob|]. split; [apply removalPass_merge|].
  intros Hc Hmerge. split; [|split].
  - intros calls. by apply removalPass_spec.
  - intros failures. apply removalPass_ends.
  - intros Hclean Hdocs. by apply removalPass_stuck.
Qed.

Example removal_pass_requeues :
  Backup.removalPass 2 None "tx" ["a"; "b"] (fun n => negb (n =? 0))
  = Some
      [ {| Backup.cleanDomain := "tx"; Backup.cleanIds := ["a"; "b"];
           Backup.cleanOk := false |};
        {| Backup.cleanDomain := "tx"; Backup.cleanIds := ["a"; "b"];
           Backup.cleanOk := true |} ]
  /\ Backup.removalPass 1 None Backup.DOMAIN_DOC_INDEX_STATE ["a"] (fun _ => true)
     = Some
         [ {| Backup.cleanDomain := "fulltext-blob"; Backup.cleanIds := ["a"];
              Backup.cleanOk := true |};
           {| Backup.cleanDomain := "doc-index-state"; Backup.cleanIds := ["a"];
              Backup.cleanOk := true |} ]
  /\ Backup.removalPass 1 None "blob" ["a"] (fun _ => true) = Some []
  /\ Backup.removalPass 1000 None "tx" ["a"] (fun _ => false) = None.
Proof. repeat split; vm_compute; reflexivity. Qed.

(** *** moveFiles: failure isolation *)

Lemma retryOnFailure_spec op id : forall retries attempt st,
  let r := MoveFiles.retryOnFailure retries op id attempt st in
  MoveFiles.toRemove r.1 = MoveFiles.toRemove st
  /\ (exists more, MoveFiles.events r.1 = MoveFiles.events st ++ more)
  /\ match r.2 with
     | MoveFiles.Returned b => exists i, i < retries /\ op (attempt + i) = MoveFiles.Returned b
     | MoveFiles.Thrown => forall i, i < retries -> op (attempt + i) = MoveFiles.Thrown
     end.
Proof.
  induction retries as [|retries IH]; intros attempt st; simpl.
  - split; [done|]. split; [by exists []; rewrite app_nil_r|]. intros i Hi. lia.
  - destruct (op attempt) as [b|] eqn:Hop; simpl.
    + split; [done|]. split; [by exists []; rewrite app_nil_r|].
      exists 0. split; [lia|]. by rewrite Nat.add_0_r.
    + specialize (IH (S attempt) (MoveFiles.emit st (MoveFiles.AttemptFailed id retries))).
      simpl in IH. destruct IH as (Hq & [more Hev] & Hres).
      split; [done|]. split.
      { exists ([MoveFiles.AttemptFailed id retries] ++ more).
        by rewrite Hev, <- app_assoc. }
      destruct (MoveFiles.retryOnFailure _ _ _ _ _).2 as [b|].
      * destruct Hres as (i & Hi & Hb). exists (S i). split; [lia|].
        by replace (attempt + S i) with (S attempt + i) by lia.
      * intros [|i] Hi; [by rewrite Nat.add_0_r|].
        replace (attempt + S i) with (S attempt + i) by lia. apply Hres. lia.
Qed.

Lemma events_grow_refl (st : MoveFiles.State) :
  exists more, MoveFiles.events st = MoveFiles.events st ++ more.
Proof. exists []. by rewrite app_nil_r. Qed.

Lemma processBlob_spec targetBlobs c st data :
  MoveSpec.statFaithful c data ->
  let r := MoveFiles.processBlob targetBlobs c st data in
  (exists more, MoveFiles.events r.1 = MoveFiles.events st ++ more)
  /\ (MoveFiles.toRemove r.1 = MoveFiles.toRemove st
      \/ (MoveFiles.toRemove r.1 = MoveFiles.toRemove st ++ [MoveFiles._id data]
          /\ MoveSpec.onTarget targetBlobs c data))
  /\ (r.2 = true -> MoveSpec.visited r.1 data)
  /\ (MoveSpec.quiet c -> r.2 = true)
  /\ (targetBlobs !! MoveFiles._id data = None ->
      (exists sb, MoveFiles.sourceStat c = MoveFiles.Returned (Some sb)) ->
      MoveSpec.copyFails c ->
      r.2 = true
      /\ MoveFiles.toRemove r.1 = MoveFiles.toRemove st
      /\ In (MoveFiles.FailedToProcess (MoveFiles._id data)) (MoveFiles.events r.1)).
Proof.
  intros Hstat. unfold MoveFiles.processBlob, MoveSpec.visited.
  destruct (targetBlobs !! MoveFiles._id data) as [targetBlob|] eqn:Htarget.
  - (* the target lists the blob *)
    assert (Hon : MoveSpec.onTarget targetBlobs c data) by (left; by rewrite Htarget).
    destruct (MoveFiles.aggrStat c) as [aggrBlob|] eqn:Haggr; simpl.
    + destruct (if match aggrBlob with
                   | Some b => bool_decide (MoveFiles.provider b ≠ MoveFiles.provider targetBlob)
                   | None => true
                   end
                then MoveFiles.syncExisting c else MoveFiles.Returned targetBlob)
        as [b|] eqn:Hsync; simpl.
      * split; [by eexists|]. split; [by right|]. split.
        { intros _. left. apply in_or_app. right. by left. }
        split; [done|]. done.
      * split; [by eexists|]. split; [by left|]. split; [done|]. split; [|done].
        intros (_ & Hq & _).
        destruct aggrBlob as [b|]; [destruct (bool_decide _)|]; congruence.
    + split; [by eexists|]. split; [by left|]. split; [done|]. split; [|done].
      by intros (Hq & _).
  - destruct (MoveFiles.sourceStat c) as [[sourceBlob|]|] eqn:Hsource;
      [|simpl..].
    + pose proof (retryOnFailure_spec (MoveFiles.copyAttempt c) (MoveFiles._id data) 5 0 st)
        as Hretry.
      destruct (MoveFiles.retryOnFailure 5 (MoveFiles.copyAttempt c) (MoveFiles._id data) 0 st)
        as [st' [b|]]; simpl in Hretry; destruct Hretry as (Hq & [more Hev] & Hres); simpl.
      * rewrite (Hstat sourceBlob Hsource), Hq. split; [by eexists|].
        destruct Hres as (i & Hi & Hb).
        split; [right; split; [done|]; right; split; [done|]; by exists i, b|].
        split; [intros _; left; apply in_or_app; right; by left|].
        split; [done|]. intros _ _ Hfail. specialize (Hfail i Hi). congruence.
      * rewrite Hev, Hq. split; [rewrite <- app_assoc; by eexists|].
        split; [by left|].
        assert (Hin : In (MoveFiles.FailedToProcess (MoveFiles._id data))
                         ((MoveFiles.events st ++ more)
                          ++ [MoveFiles.FailedToProcess (MoveFiles._id data)])).
        { apply in_or_app. right. by left. }
        split; [intros _; right; by right|]. by repeat split.
    + split; [by eexists|]. split; [by left|].
      split; [intros _; right; left; apply in_or_app; right; by left|].
      split; [done|]. intros _ [sb Hsb]. congruence.
    + split; [apply events_grow_refl|]. split; [by left|]. split; [done|].
      split; [by intros (_ & _ & Hq)|]. intros _ [sb Hsb]. congruence.
Qed.

Lemma visited_mono st st' data q more :
  MoveFiles.toRemove st' = MoveFiles.toRemove st ++ q ->
  MoveFiles.events st' = MoveFiles.events st ++ more ->
  MoveSpec.visited st data -> MoveSpec.visited st' data.
Proof.
  unfold MoveSpec.visited. intros -> ->.
  intros [H|[H|H]]; [left|right; left|right; right]; apply in_or_app; by left.
Qed.

Lemma processBlobs_spec targetBlobs calls : forall items k st,
  (forall j data, items !! j = Some data -> MoveSpec.statFaithful (calls (k + j)) data) ->
  let r := MoveFiles.processBlobs targetBlobs calls k st items in
  (exists more, MoveFiles.events r.1 = MoveFiles.events st ++ more)
  /\ (exists q, MoveFiles.toRemove r.1 = MoveFiles.toRemove st ++ q
                /\ forall id, In id q ->
                     exists j data, items !! j = Some data /\ id = MoveFiles._id data
                                    /\ MoveSpec.onTarget targetBlobs (calls (k + j)) data)
  /\ (r.2 = true -> forall data, In data items -> MoveSpec.visited r.1 data)
  /\ ((forall j, j < length items -> MoveSpec.quiet (calls (k + j))) -> r.2 = true)
  /\ (r.2 = true -> forall j data, items !! j = Some data ->
      targetBlobs !! MoveFiles._id data = None ->
      (exists sb, MoveFiles.sourceStat (calls (k + j)) = MoveFiles.Returned (Some sb)) ->
      MoveSpec.copyFails (calls (k + j)) ->
      In (MoveFiles.FailedToProcess (MoveFiles._id data)) (MoveFiles.events r.1)).
Proof.
  induction items as [|data rest IH]; intros k st Hstat; simpl.
  - split; [apply events_grow_refl|].
    split; [exists []; split; [by rewrite app_nil_r|done]|].
    split; [done|]. split; [done|]. intros _ j d Hj. by rewrite lookup_nil in Hj.
  - assert (Hhead : MoveSpec.statFaithful (calls k) data).
    { specialize (Hstat 0 data eq_refl). by rewrite Nat.add_0_r in Hstat. }
    pose proof (processBlob_spec targetBlobs (calls k) st data Hhead) as Hone.
    destruct (MoveFiles.processBlob targetBlobs (calls k) st data) as [st1 ok1].
    simpl in Hone. destruct Hone as ([more1 Hev1] & Hq1 & Hvis1 & Hquiet1 & Hfail1).
    assert (Hq1' : exists q1, MoveFiles.toRemove st1 = MoveFiles.toRemove st ++ q1
                   /\ forall id, In id q1 ->
                        id = MoveFiles._id data
                        /\ MoveSpec.onTarget targetBlobs (calls k) data).
    { destruct Hq1 as [Hq1|[Hq1 Hon]].
      - exists []. split; [by rewrite app_nil_r|done].
      - exists [MoveFiles._id data]. split; [done|]. by intros id [<-|[]]. }
    destruct Hq1' as (q1 & Hq1' & Hin1).
    destruct ok1.
    + assert (Htail : forall j d, rest !! j = Some d ->
                        MoveSpec.statFaithful (calls (S k + j)) d).
      { intros j d Hj. replace (S k + j) with (k + S j) by lia. by apply Hstat. }
      specialize (IH (S k) st1 Htail). simpl in IH.
      destruct (MoveFiles.processBlobs targetBlobs calls (S k) st1 rest) as [st2 ok2].
      simpl in *. destruct IH as ([more2 Hev2] & (q2 & Hq2 & Hin2) & Hvis2 & Hquiet2 & Hfail2).
      split; [exists (more1 ++ more2); by rewrite Hev2, Hev1, <- app_assoc|].
      split.
      { exists (q1 ++ q2). split; [by rewrite Hq2, Hq1', <- app_assoc|].
        intros id Hid. apply in_app_or in Hid as [Hid|Hid].
        - destruct (Hin1 id Hid) as [-> Hon]. exists 0, data.
          by rewrite Nat.add_0_r.
        - destruct (Hin2 id Hid) as (j & d & Hj & -> & Hon). exists (S j), d.
          by replace (k + S j) with (S (k + j)) by lia. }
      split.
      { intros Hok d [<-|Hd]; [|by apply Hvis2].
        by eapply visited_mono; [done..|apply Hvis1]. }
      split.
      { intros Hquiet. apply Hquiet2. intros j Hj.
        replace (S (k + j)) with (k + S j) by lia. apply Hquiet. lia. }
      intros Hok [|j] d Hj Htarget Hsb Hfails.
      * simpl in Hj. injection Hj as <-. rewrite Nat.add_0_r in Hsb, Hfails.
        destruct (Hfail1 Htarget Hsb Hfails) as (_ & _ & Hlog).
        rewrite Hev2. apply in_or_app. by left.
      * replace (k + S j) with (S (k + j)) in Hsb, Hfails by lia.
        by apply (Hfail2 Hok j d).
    + simpl. split; [by exists more1|].
      split.
      { exists q1. split; [done|]. intros id Hid.
        destruct (Hin1 id Hid) as [-> Hon]. exists 0, data. by rewrite Nat.add_0_r. }
      split; [done|]. split; [|done].
      intros Hquiet. apply Hquiet1. specialize (Hquiet 0 ltac:(lia)).
      by rewrite Nat.add_0_r in Hquiet.
Qed.

Lemma removeBatches_spec removeOk : forall fuel i queue,
  length queue <= fuel ->
  let r := MoveFiles.removeBatches fuel removeOk i queue in
  Forall (fun part => 0 < length part <= 500) r.1
  /\ (exists rest, queue = concat r.1 ++ rest /\ (r.2 = true -> rest = []))
  /\ ((forall j, removeOk j = true) -> r.2 = true).
Proof.
  induction fuel as [|fuel IH]; intros i queue Hfuel.
  - destruct queue; [|simpl in Hfuel; lia]. simpl.
    split; [done|]. split; [by exists []|done].
  - simpl MoveFiles.removeBatches.
    destruct (Nat.ltb_spec 0 (length queue)) as [Hpos|Hempty].
    + unfold Js.splice0.
      set (n := Z.to_nat (Z.max 0 500)).
      assert (Hn : n = 500) by (subst n; lia).
      assert (Htake : 0 < length (take n queue) <= 500).
      { rewrite length_take. lia. }
      assert (Hdrop : length (drop n queue) <= fuel).
      { rewrite length_drop. lia. }
      assert (Hsplit : take n queue ++ drop n queue = queue) by apply take_drop.
      destruct (removeOk i) eqn:Hok.
      * specialize (IH (S i) (drop n queue) Hdrop).
        destruct (MoveFiles.removeBatches fuel removeOk (S i) (drop n queue)) as [parts ok].
        simpl in *. destruct IH as (Hall & (rest & Hrest & Hdone) & Hquiet).
        split; [by constructor|]. split; [|done].
        exists rest. split; [|done]. by rewrite <- app_assoc, <- Hrest.
      * simpl. split; [constructor; [done|constructor]|]. split.
        { exists (drop n queue). split; [by rewrite app_nil_r|done]. }
        intros Hall. specialize (Hall i). congruence.
    + assert (queue = []) as -> by (destruct queue; [done|simpl in Hempty; lia]).
      simpl. split; [done|]. split; [by exists []|done].
Qed.

Lemma removeAll_lookup id : forall parts source,
  ~ In id (concat parts) ->
  MoveFiles.removeAll source parts !! id = source !! id.
Proof.
  assert (Hpart : forall part (s : gmap string MoveFiles.Blob), ~ In id part ->
            foldl (fun s id => delete id s) s part !! id = s !! id).
  { induction part as [|x part IH]; intros s Hid; [done|]. simpl.
    rewrite IH by (intros H; apply Hid; by right).
    apply lookup_delete_ne. intros ->. apply Hid. by left. }
  unfold MoveFiles.removeAll.
  induction parts as [|part parts IH]; intros source Hid; [done|]. simpl in *.
  rewrite IH by (intros H; apply Hid, in_or_app; by right).
  apply Hpart. intros H. apply Hid, in_or_app. by left.
Qed.

Lemma processBlob_queues targetBlobs c st data :
  MoveSpec.statFaithful c data ->
  let r := MoveFiles.processBlob targetBlobs c st data in
  r.2 = true ->
  (MoveFiles.toRemove r.1 = MoveFiles.toRemove st ++ [MoveFiles._id data]
   /\ MoveSpec.settled targetBlobs c data)
  \/ (MoveFiles.toRemove r.1 = MoveFiles.toRemove st
      /\ ~ MoveSpec.settled targetBlobs c data).
Proof.
  intros Hstat. unfold MoveFiles.processBlob, MoveSpec.settled.
  destruct (targetBlobs !! MoveFiles._id data) as [targetBlob|] eqn:Htarget.
  - destruct (MoveFiles.aggrStat c) as [aggrBlob|]; [|done].
    destruct (if match aggrBlob with
                 | Some b => bool_decide (MoveFiles.provider b ≠ MoveFiles.provider targetBlob)
                 | None => true
                 end
              then MoveFiles.syncExisting c else MoveFiles.Returned targetBlob)
      as [b|]; [|done].
    simpl. intros _. left. split; [done|]. left. by eexists.
  - destruct (MoveFiles.sourceStat c) as [[sourceBlob|]|] eqn:Hsource; [| |done].
    + pose proof (retryOnFailure_spec (MoveFiles.copyAttempt c) (MoveFiles._id data) 5 0 st)
        as Hretry.
      destruct (MoveFiles.retryOnFailure 5 (MoveFiles.copyAttempt c) (MoveFiles._id data) 0 st)
        as [st' [b|]]; simpl in Hretry; destruct Hretry as (Hq & _ & Hres); simpl; intros _.
      * left. rewrite (Hstat sourceBlob Hsource), Hq. split; [done|].
        right. split; [done|]. split; [by eexists|].
        destruct Hres as (i & Hi & Hb). by exists i, b.
      * right. split; [done|].
        intros [[x Hx]|(_ & _ & attempt & b & Hattempt & Hb)]; [done|].
        specialize (Hres attempt Hattempt). simpl in Hres. congruence.
    + simpl. intros _. right. split; [done|].
      intros [[x Hx]|(_ & [sb Hsb] & _)]; done.
Qed.

Lemma processBlobs_queues targetBlobs calls : forall items k st,
  (forall j data, items !! j = Some data -> MoveSpec.statFaithful (calls (k + j)) data) ->
  let r := MoveFiles.processBlobs targetBlobs calls k st items in
  r.2 = true ->
  exists q, MoveFiles.toRemove r.1 = MoveFiles.toRemove st ++ q
            /\ forall id, In id q <->
                 exists j data, items !! j = Some data /\ id = MoveFiles._id data
                                /\ MoveSpec.settled targetBlobs (calls (k + j)) data.
Proof.
  induction items as [|data rest IH]; intros k st Hstat; simpl.
  - intros _. exists []. split; [by rewrite app_nil_r|].
    intros id. split; [done|]. intros (j & d & Hj & _). by rewrite lookup_nil in Hj.
  - assert (Hhead : MoveSpec.statFaithful (calls k) data).
    { specialize (Hstat 0 data eq_refl). by rewrite Nat.add_0_r in Hstat. }
    pose proof (processBlob_queues targetBlobs (calls k) st data Hhead) as Hone.
    destruct (MoveFiles.processBlob targetBlobs (calls k) st data) as [st1 ok1].
    simpl in Hone. destruct ok1; [|done]. specialize (Hone eq_refl).
    assert (Htail : forall j d, rest !! j = Some d ->
                      MoveSpec.statFaithful (calls (S k + j)) d).
    { intros j d Hj. replace (S k + j) with (k + S j) by lia. by apply Hstat. }
    specialize (IH (S k) st1 Htail). simpl in IH.
    destruct (MoveFiles.processBlobs targetBlobs calls (S k) st1 rest) as [st2 ok2].
    simpl in *. intros Hok. destruct (IH Hok) as (q2 & Hq2 & Hin2).
    assert (Hshift : forall id,
              (exists j d, (data :: rest) !! j = Some d /\ id = MoveFiles._id d
                           /\ MoveSpec.settled targetBlobs (calls (k + j)) d)
              <-> (id = MoveFiles._id data /\ MoveSpec.settled targetBlobs (calls k) data)
                  \/ In id q2).
    { intros id. rewrite Hin2. split.
      - intros ([|j] & d & Hj & Hid & Hset).
        + injection Hj as <-. rewrite Nat.add_0_r in Hset. by left.
        + right. exists j, d. by replace (S (k + j)) with (k + S j) by lia.
      - intros [[Hid Hset]|(j & d & Hj & Hid & Hset)].
        + exists 0, data. by rewrite Nat.add_0_r.
        + exists (S j), d. by replace (k + S j) with (S (k + j)) by lia. }
    destruct Hone as [[Hq1 Hset]|[Hq1 Hnot]].
    + exists (MoveFiles._id data :: q2). split; [by rewrite Hq2, Hq1, <- app_assoc|].
      intros id. rewrite Hshift. simpl. split.
      * intros [<-|Hid]; [by left|by right].
      * intros [[-> _]|Hid]; [by left|by right].
    + exists q2. split; [by rewrite Hq2, Hq1|].
      intros id. rewrite Hshift. split; [by right|].
      intros [[_ Hset]|Hid]; [by destruct Hnot|done].
Qed.

Lemma removeAll_deletes id : forall parts (source : gmap string MoveFiles.Blob),
  In id (concat parts) \/ source !! id = None ->
  MoveFiles.removeAll source parts !! id = None.
Proof.
  assert (Hpart : forall part (s : gmap string MoveFiles.Blob),
            In id part \/ s !! id = None ->
            foldl (fun s id => delete id s) s part !! id = None).
  { induction part as [|x part IH]; intros s Hid; simpl.
    - by destruct Hid.
    - apply IH. destruct (decide (x = id)) as [->|Hne].
      + right. apply lookup_delete_eq.
      + destruct Hid as [[?|Hid]|Hs]; [done|by left|].
        right. by rewrite lookup_delete_ne. }
  unfold MoveFiles.removeAll.
  induction parts as [|part parts IH]; intros source Hid; simpl in *.
  - by destruct Hid.
  - apply IH. destruct Hid as [Hid|Hs].
    + apply in_app_or in Hid as [Hid|Hid]; [|by left].
      right. apply Hpart. by left.
    + right. apply Hpart. by right.
Qed.

(** C6. In a run of [processAdapter] over the source listing, where the
    listing names every blob once and [source.stat] answers with the blob
    it was asked for:
    - [source.remove] is called with batches of at most 500 ids, taken in
      order from the deletion queue, with no call at all unless the move
      flag is set, and the whole queue once the run is complete;
    - only blobs that are on the target, listed there or copied by this
      run, are in the queue;
    - when no call outside the copies throws, the run completes whatever the
      copies do, and every listed blob has been dealt with;
    - a blob whose copy fails in each of the five attempts is not in the
      queue, is still on the source after the run, and has been logged as
      failed once the run is complete;
    - once the run is complete the queue holds exactly the listed blobs
      that are on the target, those it listed and those the source has and
      one of the five attempts copied, whatever happened to the other
      blobs; with the move flag every one of them is gone from the source,
      and a blob that is not in the queue is on the source as before. *)
Theorem C6_failure_isolation move sourceListing targetListing calls removeOk source :
  let items := MoveFiles.listed sourceListing in
  let targetBlobs := MoveFiles.targetMap targetListing in
  let r := MoveFiles.processAdapter false move sourceListing targetListing calls removeOk in
  NoDup (map MoveFiles._id items) ->
  (forall k data, items !! k = Some data -> MoveSpec.statFaithful (calls k) data) ->
  Forall (fun part => 0 < length part <= 500) (MoveFiles.removeCalls r)
  /\ (move = false -> MoveFiles.removeCalls r = [])
  /\ (exists rest,
        MoveFiles.toRemove (MoveFiles.final r) = concat (MoveFiles.removeCalls r) ++ rest
        /\ (move = true -> MoveFiles.completed r = true -> rest = []))
  /\ (forall id, In id (MoveFiles.toRemove (MoveFiles.final r)) ->
        exists k data, items !! k = Some data /\ id = MoveFiles._id data
                       /\ MoveSpec.onTarget targetBlobs (calls k) data)
  /\ ((forall k, k < length items -> MoveSpec.quiet (calls k)) ->
      (forall i, removeOk i = true) ->
      MoveFiles.completed r = true
      /\ forall data, In data items -> MoveSpec.visited (MoveFiles.final r) data)
  /\ (forall k data, items !! k = Some data ->
        targetBlobs !! MoveFiles._id data = None ->
        (exists sb, MoveFiles.sourceStat (calls k) = MoveFiles.Returned (Some sb)) ->
        MoveSpec.copyFails (calls k) ->
        ~ In (MoveFiles._id data) (MoveFiles.toRemove (MoveFiles.final r))
        /\ MoveFiles.removeAll source (MoveFiles.removeCalls r) !! MoveFiles._id data
           = source !! MoveFiles._id data
        /\ (MoveFiles.completed r = true ->
            In (MoveFiles.FailedToProcess (MoveFiles._id data))
               (MoveFiles.events (MoveFiles.final r))))
  /\ (MoveFiles.completed r = true ->
      (forall id, In id (MoveFiles.toRemove (MoveFiles.final r)) <->
         exists k data, items !! k = Some data /\ id = MoveFiles._id data
                        /\ MoveSpec.settled targetBlobs (calls k) data)
      /\ (move = true ->
          forall id, In id (MoveFiles.toRemove (MoveFiles.final r)) ->
            MoveFiles.removeAll source (MoveFiles.removeCalls r) !! id = None)
      /\ (forall id, ~ In id (MoveFiles.toRemove (MoveFiles.final r)) ->
            MoveFiles.removeAll source (MoveFiles.removeCalls r) !! id = source !! id)).
Proof.
  intros items targetBlobs r Hnodup Hstat.
  pose proof (processBlobs_spec targetBlobs calls items 0 MoveFiles.initial Hstat) as Hrun.
  simpl in Hrun.
  assert (Hr : r = MoveFiles.processAdapter false move sourceListing targetListing
                     calls removeOk) by done.
  unfold MoveFiles.processAdapter in Hr. fold items targetBlobs in Hr.
  destruct (MoveFiles.processBlobs targetBlobs calls 0 MoveFiles.initial items)
    as [st ok] eqn:Hloop.
  simpl in Hrun. destruct Hrun as (_ & (q & Hq & Hin) & Hvis & Hquiet & Hlog).
  simpl in Hq. subst q.
  pose proof (removeBatches_spec removeOk (length (MoveFiles.toRemove st)) 0
                (MoveFiles.toRemove st) (le_n _)) as Hdel.
  destruct (MoveFiles.removeBatches (length (MoveFiles.toRemove st)) removeOk 0
              (MoveFiles.toRemove st)) as [parts okDel].
  simpl in Hdel. destruct Hdel as (Hparts & (rest & Hrest & Hdone) & HokDel).
  assert (Hfinal : MoveFiles.final r = st).
  { rewrite Hr. destruct ok; [|done]. by destruct (_ && _). }
  assert (Hcalls : MoveFiles.removeCalls r = []
                   \/ (MoveFiles.removeCalls r = parts /\ move = true /\ ok = true
                       /\ MoveFiles.completed r = okDel)).
  { rewrite Hr. destruct ok; [|by left].
    destruct (0 <? length (MoveFiles.toRemove st)), move; simpl; auto. }
  assert (Hdone' : MoveFiles.completed r = true -> ok = true).
  { rewrite Hr. by destruct ok. }
  assert (Hempty : move = true -> MoveFiles.completed r = true ->
                   MoveFiles.removeCalls r = [] -> MoveFiles.toRemove st = []).
  { rewrite Hr. intros -> . destruct ok; [|done].
    destruct (Nat.ltb_spec 0 (length (MoveFiles.toRemove st))) as [Hpos|Hnil]; simpl.
    - intros Hc Hnone. simpl in Hnone. subst parts. simpl in Hrest.
      rewrite Hrest. by apply Hdone.
    - intros _ _. destruct (MoveFiles.toRemove st); [done|simpl in Hnil; lia]. }
  assert (Hsub : forall id, In id (concat (MoveFiles.removeCalls r)) ->
                            In id (MoveFiles.toRemove st)).
  { intros id. destruct Hcalls as [->|(-> & _)]; [done|].
    rewrite Hrest. intros H. apply in_or_app. by left. }
  rewrite Hfinal.
  split.
  { destruct Hcalls as [->|(-> & _)]; [constructor|done]. }
  split.
  { intros ->. by destruct Hcalls as [->|(_ & ? & _)]. }
  split.
  { destruct Hcalls as [Hnone|(Hsome & _ & _ & Hc)].
    - rewrite Hnone. exists (MoveFiles.toRemove st). split; [done|].
      intros Hm Hc. by apply Hempty.
    - rewrite Hsome. exists rest. split; [done|]. intros _ Hc'. apply Hdone. congruence. }
  split; [exact Hin|].
  split.
  { intros Hq HokAll. specialize (Hquiet Hq). simpl in Hquiet. subst ok.
    split; [|by apply Hvis].
    rewrite Hr. destruct (_ && _); [|done]. simpl. by apply HokDel. }
  split.
  { intros k data Hk Htarget Hsb Hfails.
    assert (Hnot : ~ In (MoveFiles._id data) (MoveFiles.toRemove st)).
    { intros Hid. destruct (Hin _ Hid) as (k' & data' & Hk' & Heq & [Hon|[_ Hon]]).
      - rewrite <- Heq, Htarget in Hon. by destruct Hon.
      - assert (k = k') as <-.
        { eapply NoDup_lookup; [exact Hnodup|..]; rewrite list_lookup_fmap.
          + by rewrite Hk.
          + rewrite Hk'. simpl. by rewrite Heq. }
        destruct Hon as (attempt & b & Hattempt & Hb).
        specialize (Hfails attempt Hattempt). congruence. }
    split; [done|]. split.
    - apply removeAll_lookup. intros Hid. by apply Hnot, Hsub.
    - intros Hc. apply (Hlog (Hdone' Hc) k data); auto. }
  intros Hc.
  pose proof (processBlobs_queues targetBlobs calls items 0 MoveFiles.initial Hstat)
    as Hqueue.
  rewrite Hloop in Hqueue. simpl in Hqueue.
  destruct (Hqueue (Hdone' Hc)) as (q & Hq & Hexact). subst q.
  split; [exact Hexact|]. split.
  - intros Hmove id Hid. apply removeAll_deletes. left.
    destruct Hcalls as [Hnone|(Hsome & _ & _ & Hdel)].
    + rewrite (Hempty Hmove Hc Hnone) in Hid. done.
    + rewrite Hsome. rewrite Hrest in Hid.
      rewrite (Hdone ltac:(congruence)), app_nil_r in Hid. done.
  - intros id Hid. apply removeAll_lookup. intros Hdel. by apply Hid, Hsub.
Qed.

Lemma sampleListing_NoDup :
  NoDup (map MoveFiles._id (MoveFiles.listed sampleListing)).
Proof. apply (bool_decide_unpack _). vm_compute. exact I. Qed.

Lemma sampleCalls_statFaithful k data :
  MoveFiles.listed sampleListing !! k = Some data ->
  MoveSpec.statFaithful (sampleCalls k) data.
Proof.
  unfold MoveSpec.statFaithful.
  destruct k as [|[|[|k]]]; simpl; intros Hk sb Hsb; try discriminate;
    injection Hk as <-; by injection Hsb as <-.
Qed.

Lemma C6_failure_isolation_witness :
  Forall (fun part => 0 < length part <= 500)
    (MoveFiles.removeCalls
       (MoveFiles.processAdapter false true sampleListing [] sampleCalls (fun _ => true)))
  /\ MoveFiles.removeAll sampleSource
       (MoveFiles.removeCalls
          (MoveFiles.processAdapter false true sampleListing [] sampleCalls (fun _ => true)))
     !! "b"
     = sampleSource !! "b"
  /\ In "a" (MoveFiles.toRemove (MoveFiles.final
       (MoveFiles.processAdapter false true sampleListing [] sampleCalls (fun _ => true))))
  /\ MoveFiles.removeAll sampleSource
       (MoveFiles.removeCalls
          (MoveFiles.processAdapter false true sampleListing [] sampleCalls (fun _ => true)))
     !! "c"
     = None.
Proof.
  destruct (C6_failure_isolation true sampleListing [] sampleCalls (fun _ => true)
              sampleSource sampleListing_NoDup sampleCalls_statFaithful)
    as (Hparts & _ & _ & _ & _ & Hfailed & Hmoved).
  destruct (Hmoved eq_refl) as (Hqueue & Hgone & _).
  split; [exact Hparts|]. split; [|split].
  - refine (proj1 (proj2 (Hfailed 1 (sampleBlob "b") _ _ _ _))).
    + reflexivity.
    + reflexivity.
    + eexists. reflexivity.
    + intros attempt _. reflexivity.
  - apply Hqueue. exists 0, (sampleBlob "a"). split; [reflexivity|]. split; [reflexivity|].
    right. split; [reflexivity|]. split; [by eexists|].
    exists 0, (sampleBlob "a"). split; [lia|reflexivity].
  - apply (Hgone eq_refl). apply Hqueue.
    exists 2, (sampleBlob "c"). split; [reflexivity|]. split; [reflexivity|].
    right. split; [reflexivity|]. split; [by eexists|].
    exists 0, (sampleBlob "c"). split; [lia|reflexivity].
Defined.

Example move_keeps_failed_blob :
  let r := MoveFiles.processAdapter false true sampleListing [] sampleCalls (fun _ => true) in
  MoveFiles.completed r = true
  /\ MoveFiles.removeCalls r = [["a"; "c"]]
  /\ MoveFiles.events (MoveFiles.final r)
     = [MoveFiles.AttemptFailed "b" 4; MoveFiles.AttemptFailed "b" 3;
        MoveFiles.AttemptFailed "b" 2; MoveFiles.AttemptFailed "b" 1;
        MoveFiles.AttemptFailed "b" 0; MoveFiles.FailedToProcess "b"]
  /\ MoveFiles.processedCnt (MoveFiles.final r) = 3
  /\ MoveFiles.movedCnt (MoveFiles.final r) = 2
  /\ MoveFiles.removeAll sampleSource (MoveFiles.removeCalls r) !! "a" = None
  /\ MoveFiles.removeAll sampleSource (MoveFiles.removeCalls r) !! "b" = Some (sampleBlob "b")
  /\ MoveFiles.removeAll sampleSource (MoveFiles.removeCalls r) !! "c" = None
  /\ MoveFiles.removeCalls
       (MoveFiles.processAdapter false false sampleListing [] sampleCalls (fun _ => true))
     = [].
Proof. repeat split; vm_compute; reflexivity. Qed.

(* ===================================================================== *)
(** * Further properties of the code                                      *)
(* ===================================================================== *)

(** *** Cursors: chunk bounds and allocation *)

Section Cursors.
Import BackupClientOps CursorSpec.
Context {DocInfo : Type}.
Variable estimateDocSize : DocInfo -> Z.
Variable find : string -> bool -> list DocInfo.

Local Abbreviation loadChunk := (BackupClientOps.loadChunk estimateDocSize find).
Local Abbreviation fill := (BackupClientOps.fill estimateDocSize).
Local Abbreviation sizeOf := (CursorSpec.sizeOf estimateDocSize).

Lemma sizeOf_snoc docs doc : sizeOf (docs ++ [doc]) = (sizeOf docs + estimateDocSize doc)%Z.
Proof.
  unfold CursorSpec.sizeOf. induction docs as [|d docs IH]; simpl; [lia|].
  rewrite IH. lia.
Qed.

Lemma fill_bound left : forall calls size docs,
  size = sizeOf docs ->
  (forall pre last, docs = pre ++ [last] -> (sizeOf pre < chunkSize)%Z) ->
  let '(docs', it, fin) := fill left calls size docs in
  (forall pre last, docs' = pre ++ [last] -> (sizeOf pre < chunkSize)%Z)
  /\ (docs' = [] -> fin = true)
  /\ exists more, docs' = docs ++ more /\ left = more ++ pending it.
Proof.
  induction left as [|doc rest IH]; intros calls size docs Hsize Hpre; simpl.
  - destruct (Z.ltb_spec size chunkSize) as [Hlt|Hge]; simpl.
    + split; [done|]. split; [done|]. exists []. by rewrite app_nil_r.
    + split; [done|]. split; [|exists []; by rewrite app_nil_r].
      intros ->. unfold CursorSpec.sizeOf in Hsize. simpl in Hsize.
      unfold chunkSize in Hge. lia.
  - destruct (Z.ltb_spec size chunkSize) as [Hlt|Hge]; simpl.
    + assert (Hsize' : (size + estimateDocSize doc)%Z = sizeOf (docs ++ [doc])).
      { rewrite sizeOf_snoc. lia. }
      assert (Hpre' : forall pre last, docs ++ [doc] = pre ++ [last] ->
                        (sizeOf pre < chunkSize)%Z).
      { intros pre last Heq. apply app_inj_tail in Heq as [<- _]. lia. }
      specialize (IH (S calls) _ _ Hsize' Hpre').
      destruct (fill rest (S calls) (size + estimateDocSize doc)%Z (docs ++ [doc]))
        as [[docs' it] fin].
      destruct IH as (Hb & Hfin & more & Hdocs & Hleft).
      split; [done|]. split; [done|].
      exists (doc :: more). split; [by rewrite Hdocs, <- app_assoc|]. by rewrite Hleft.
    + split; [done|]. split; [|exists []; by rewrite app_nil_r].
      intros ->. unfold CursorSpec.sizeOf in Hsize. simpl in Hsize.
      unfold chunkSize in Hge. lia.
Qed.

(** X1. Whatever the cursor, the documents one [loadChunk] call returns
    stay within the chunk size up to their last document: the size
    estimates of all but the last add up to less than [chunkSize] (2 MiB),
    so a chunk overshoots by one document at most.  A call returns no
    document only when it reports the cursor finished. *)
Theorem X1_loadChunk_chunk_bound (st : State DocInfo) domain idxArg recheck :
  (forall pre last,
      rDocs (loadChunk st domain idxArg recheck).2 = pre ++ [last] ->
      (sizeOf pre < chunkSize)%Z)
  /\ (rDocs (loadChunk st domain idxArg recheck).2 = [] ->
      rFinished (loadChunk st domain idxArg recheck).2 = true).
Proof.
  assert (Hfill : forall left calls,
            let '(docs', it, fin) := fill left calls 0 [] in
            (forall pre last, docs' = pre ++ [last] -> (sizeOf pre < chunkSize)%Z)
            /\ (docs' = [] -> fin = true)).
  { intros left calls.
    pose proof (fill_bound left calls 0 [] eq_refl) as H.
    destruct (fill left calls 0 []) as [[docs' it] fin].
    destruct H as (H1 & H2 & _); [|done].
    intros pre last Heq. by destruct pre. }
  unfold BackupClientOps.loadChunk.
  destruct idxArg as [i|]; simpl.
  - destruct (chunkInfo st !! i) as [chunk|]; simpl.
    + destruct (finished chunk) eqn:Hf; simpl.
      * split; [intros pre last Heq; by destruct pre|done].
      * specialize (Hfill (pending (iterator chunk)) (nextCalls (iterator chunk))).
        destruct (fill (pending (iterator chunk)) (nextCalls (iterator chunk)) 0 [])
          as [[docs' it] fin]. simpl. exact Hfill.
    + specialize (Hfill (find domain recheck) 0).
      destruct (fill (find domain recheck) 0 0 []) as [[docs' it] fin]. simpl. exact Hfill.
  - destruct (chunkInfo st !! idIndex st) as [chunk|]; simpl.
    + destruct (finished chunk) eqn:Hf; simpl.
      * split; [intros pre last Heq; by destruct pre|done].
      * specialize (Hfill (pending (iterator chunk)) (nextCalls (iterator chunk))).
        destruct (fill (pending (iterator chunk)) (nextCalls (iterator chunk)) 0 [])
          as [[docs' it] fin]. simpl. exact Hfill.
    + specialize (Hfill (find domain recheck) 0).
      destruct (fill (find domain recheck) 0 0 []) as [[docs' it] fin]. simpl. exact Hfill.
Qed.

Lemma loadChunk_result (st : State DocInfo) domain idxArg recheck :
  let i := default (idIndex st) idxArg in
  let r := loadChunk st domain idxArg recheck in
  rIdx r.2 = i
  /\ idIndex r.1 = match idxArg with Some _ => idIndex st | None => S (idIndex st) end
  /\ is_Some (chunkInfo r.1 !! i)
  /\ (forall j, j <> i -> chunkInfo r.1 !! j = chunkInfo st !! j)
  /\ (chunkInfo st !! i = None ->
      exists rest, find domain recheck = rDocs r.2 ++ rest).
Proof.
  assert (Hfill : forall left calls,
            let '(docs', it, fin) := fill left calls 0 [] in
            exists rest, left = docs' ++ rest).
  { intros left calls.
    pose proof (fill_bound left calls 0 [] eq_refl) as H.
    destruct (fill left calls 0 []) as [[docs' it] fin].
    destruct H as (_ & _ & more & -> & ->); [intros pre last Heq; by destruct pre|].
    by exists (pending it). }
  unfold BackupClientOps.loadChunk.
  destruct idxArg as [i|]; simpl.
  - destruct (chunkInfo st !! i) as [chunk|] eqn:Hc; simpl.
    + destruct (finished chunk); simpl.
      * rewrite lookup_insert_eq.
        repeat split; eauto; try done; intros j Hj; by rewrite lookup_insert_ne.
      * destruct (fill (pending (iterator chunk)) (nextCalls (iterator chunk)) 0 [])
          as [[docs' it] fin]. simpl.
        rewrite lookup_insert_eq.
        repeat split; eauto; try done; intros j Hj; by rewrite lookup_insert_ne.
    + specialize (Hfill (find domain recheck) 0).
      destruct (fill (find domain recheck) 0 0 []) as [[docs' it] fin]. simpl.
      rewrite lookup_insert_eq.
      repeat split; eauto; try done; intros j Hj; by rewrite lookup_insert_ne.
  - destruct (chunkInfo st !! idIndex st) as [chunk|] eqn:Hc; simpl.
    + destruct (finished chunk); simpl.
      * rewrite lookup_insert_eq.
        repeat split; eauto; try done; intros j Hj; by rewrite lookup_insert_ne.
      * destruct (fill (pending (iterator chunk)) (nextCalls (iterator chunk)) 0 [])
          as [[docs' it] fin]. simpl.
        rewrite lookup_insert_eq.
        repeat split; eauto; try done; intros j Hj; by rewrite lookup_insert_ne.
    + specialize (Hfill (find domain recheck) 0).
      destruct (fill (find domain recheck) 0 0 []) as [[docs' it] fin]. simpl.
      rewrite lookup_insert_eq.
      repeat split; eauto; try done; intros j Hj; by rewrite lookup_insert_ne.
Qed.

(** X2. As long as callers only pass an index that an earlier call
    returned, every cursor in use lies below the counter [idIndex], and
    [loadChunk] and [closeChunk] keep it so.  Then a call without an index
    opens a cursor that was not in use and starts at the beginning of what
    the iterator of the domain yields; a call never touches a cursor other
    than its own; and a cursor that has been closed starts anew when its
    index is used again. *)
Theorem X2_cursor_allocation (st : State DocInfo) domain idxArg recheck :
  allocated st ->
  (forall i, idxArg = Some i -> i < idIndex st) ->
  allocated (loadChunk st domain idxArg recheck).1
  /\ (forall i, allocated (closeChunk st i))
  /\ (forall j, j <> rIdx (loadChunk st domain idxArg recheck).2 ->
        chunkInfo (loadChunk st domain idxArg recheck).1 !! j = chunkInfo st !! j)
  /\ (idxArg = None ->
      chunkInfo st !! rIdx (loadChunk st domain idxArg recheck).2 = None
      /\ exists rest,
           find domain recheck = rDocs (loadChunk st domain idxArg recheck).2 ++ rest)
  /\ (forall i, exists rest,
        find domain recheck
        = rDocs (loadChunk (closeChunk st i) domain (Some i) recheck).2 ++ rest).
Proof.
  intros Halloc Harg.
  pose proof (loadChunk_result st domain idxArg recheck) as H.
  simpl in H. destruct H as (Hidx & Hcount & Hsome & Hframe & Hnew).
  assert (Hi : default (idIndex st) idxArg
               < idIndex (loadChunk st domain idxArg recheck).1).
  { rewrite Hcount. destruct idxArg as [i|]; simpl; [by apply Harg|lia]. }
  assert (Hle : idIndex st <= idIndex (loadChunk st domain idxArg recheck).1).
  { rewrite Hcount. destruct idxArg; lia. }
  split.
  { intros k Hk. destruct (decide (k = default (idIndex st) idxArg)) as [->|Hne]; [done|].
    rewrite Hframe in Hk by done. specialize (Halloc k Hk). lia. }
  split.
  { intros i k Hk. apply Halloc. unfold closeChunk in Hk. simpl in Hk.
    destruct (decide (k = i)) as [->|Hne].
    - rewrite lookup_delete_eq in Hk. by destruct Hk.
    - by rewrite lookup_delete_ne in Hk. }
  split; [by rewrite Hidx|].
  split.
  { intros ->. simpl in *. rewrite Hidx.
    assert (Hfree : chunkInfo st !! idIndex st = None).
    { destruct (chunkInfo st !! idIndex st) eqn:Hc; [|done].
      specialize (Halloc (idIndex st) ltac:(by rewrite Hc)). lia. }
    split; [done|]. by apply Hnew. }
  intros i.
  pose proof (loadChunk_result (closeChunk st i) domain (Some i) recheck) as H.
  simpl in H. destruct H as (_ & _ & _ & _ & Hnew').
  apply Hnew'. by rewrite lookup_delete_eq.
Qed.

End Cursors.

Lemma X2_cursor_allocation_witness :
  CursorSpec.allocated
    (BackupClientOps.loadChunk (fun n : nat => Z.of_nat n) (fun _ _ => [1; 2; 3])
       {| BackupClientOps.idIndex := 0; BackupClientOps.chunkInfo := ∅ |}
       "tx" None false).1.
Proof.
  refine (proj1 (X2_cursor_allocation (fun n : nat => Z.of_nat n) (fun _ _ => [1; 2; 3])
                   {| BackupClientOps.idIndex := 0; BackupClientOps.chunkInfo := ∅ |}
                   "tx" None false _ _)).
  - intros k Hk. simpl in Hk. rewrite lookup_empty in Hk. by destruct Hk.
  - intros i Hi. discriminate.
Defined.

(** *** handleSend on a socket that closes *)

Section ClosingSocket.
Import Send.
Context {Doc LookupMap : Type}.
Variable jsonLength : Doc -> nat.
Variable toFindResult : list Doc -> FindResult Doc LookupMap.

Local Abbreviation handleSend := (Send.handleSend jsonLength toFindResult).
Local Abbreviation sendChunks := (Send.sendChunks toFindResult).

Lemma sendChunks_empty fuel isClosed msg orig itemChunk cid :
  sendChunks fuel isClosed msg orig itemChunk [] cid = [].
Proof. by destruct fuel. Qed.

Lemma sendChunks_prefix isClosed msg orig itemChunk fuel : forall data cid,
  sendChunks fuel isClosed msg orig itemChunk data cid
  `prefix_of` sendChunks fuel (fun _ => false) msg orig itemChunk data cid.
Proof.
  induction fuel as [|fuel IH]; intros data cid; simpl; [done|].
  destruct (0 <? length data); simpl; [|done].
  destruct (isClosed (cid - 1)); simpl; [apply prefix_nil|].
  apply prefix_cons, IH.
Qed.

Lemma sendChunks_final_last isClosed msg orig itemChunk fuel : forall data cid i f c,
  sendChunks fuel isClosed msg orig itemChunk data cid !! i = Some f ->
  frameChunk f = Some (c, true) ->
  sendChunks fuel isClosed msg orig itemChunk data cid
  = sendChunks fuel (fun _ => false) msg orig itemChunk data cid.
Proof.
  induction fuel as [|fuel IH]; intros data cid i f c; simpl; [done|].
  destruct (0 <? length data); simpl; [|done].
  destruct (isClosed (cid - 1)); simpl; [done|].
  destruct i as [|i]; simpl.
  - intros [= <-]. simpl. intros [= _ Hfinal].
    apply Nat.eqb_eq, nil_length_inv in Hfinal.
    by rewrite Hfinal, !sendChunks_empty.
  - intros Hi Hf. f_equal. by apply (IH _ (S cid) i f c).
Qed.

(** X3. Whatever the socket does while [handleSend] runs, the frames that
    reach it are the first frames of what an open socket would have got,
    unchanged.  A result sent in pieces is cut short only between frames,
    and a frame marked [final] is sent only when every frame was: a
    receiver never takes a truncated result for a complete one.  When the
    socket is closed from the start, nothing of a result in pieces is
    sent. *)
Theorem X3_handleSend_closing_socket isClosed (msg : Response Doc LookupMap) chunkLimit :
  handleSend isClosed msg chunkLimit `prefix_of` handleSend (fun _ => false) msg chunkLimit
  /\ (forall i f c,
        handleSend isClosed msg chunkLimit !! i = Some f ->
        frameChunk f = Some (c, true) ->
        handleSend isClosed msg chunkLimit = handleSend (fun _ => false) msg chunkLimit)
  /\ (forall orig,
        result msg = ArrayResult orig -> 1 < length (docs orig) -> (0 < chunkLimit)%Z ->
        isClosed 0 = true ->
        handleSend isClosed msg chunkLimit = []).
Proof.
  unfold Send.handleSend.
  destruct (result msg) as [orig|text] eqn:Hres.
  - destruct ((1 <? length (docs orig)) && (0 <? chunkLimit)%Z) eqn:Hcond.
    + split; [apply sendChunks_prefix|]. split; [apply sendChunks_final_last|].
      intros orig' [= <-] Hlen _ Hclosed.
      destruct (docs orig) as [|d l]; [done|]. simpl.
      by rewrite Hclosed.
    + split; [done|]. split; [done|].
      intros orig' [= <-] Hlen Hlimit _.
      apply andb_false_iff in Hcond as [Hc|Hc].
      * apply Nat.ltb_ge in Hc. lia.
      * apply Z.ltb_ge in Hc. lia.
  - split; [done|]. split; [done|]. intros orig' Hr. discriminate.
Qed.

End ClosingSocket.

(** *** backup: the walk of a domain *)

Lemma setAll_notin entries : forall (r : gmap string Backup.Hash) k,
  k ∉ entries.*1 -> Backup.setAll entries r !! k = r !! k.
Proof.
  unfold Backup.setAll.
  induction entries as [|e es IH]; intros r k Hk; simpl; [done|].
  rewrite fmap_cons, not_elem_of_cons in Hk. destruct Hk as [Hne Hk].
  rewrite IH by done. by rewrite lookup_insert_ne.
Qed.

Lemma setAll_in entries : forall (r : gmap string Backup.Hash) k v,
  NoDup entries.*1 -> (k, v) ∈ entries -> Backup.setAll entries r !! k = Some v.
Proof.
  induction entries as [|e es IH]; intros r k v Hnd Hin; [by apply elem_of_nil in Hin|].
  rewrite fmap_cons in Hnd. apply NoDup_cons in Hnd as [Hfresh Hnd].
  apply elem_of_cons in Hin as [<-|Hin].
  - change (Backup.setAll ((k, v) :: es) r) with (Backup.setAll es (<[k := v]> r)).
    rewrite setAll_notin by done. apply lookup_insert_eq.
  - change (Backup.setAll (e :: es) r) with (Backup.setAll es (<[e.1 := e.2]> r)).
    by apply IH.
Qed.

Lemma setAll_map (m : gmap string string) (r : gmap string Backup.Hash) k :
  Backup.setAll (Backup.withHash <$> map_to_list m) r !! k
  = match m !! k with
    | Some h => Some (Some h)
    | None => r !! k
    end.
Proof.
  assert (Hfst : (Backup.withHash <$> map_to_list m).*1 = (map_to_list m).*1).
  { rewrite <- list_fmap_compose. apply list_fmap_ext. by intros i [a b]. }
  destruct (m !! k) as [h|] eqn:Hk.
  - apply setAll_in.
    + rewrite Hfst. apply NoDup_fst_map_to_list.
    + apply list_elem_of_fmap. exists (k, h). split; [done|].
      by apply elem_of_map_to_list.
  - apply setAll_notin. rewrite Hfst. intros Hin.
    apply list_elem_of_fmap in Hin as ([k' h] & -> & Hin).
    apply elem_of_map_to_list in Hin. simpl in Hk. congruence.
Qed.

Lemma deleteAll_lookup ids : forall (r : gmap string Backup.Hash) k,
  Backup.deleteAll ids r !! k = if decide (k ∈ ids) then None else r !! k.
Proof.
  unfold Backup.deleteAll.
  induction ids as [|i ids IH]; intros r k; simpl; [done|].
  rewrite IH. destruct (decide (k ∈ ids)) as [Hin|Hnin].
  - rewrite decide_True; [done|]. by right.
  - destruct (decide (k = i)) as [->|Hne].
    + rewrite decide_True by left. apply lookup_delete_eq.
    + rewrite decide_False by (intros Hin; apply elem_of_cons in Hin as [?|?]; done).
      by rewrite lookup_delete_ne.
Qed.

Lemma replay_lookup digest0 st k :
  ChangesSpec.replay digest0 st !! k
  = match BackupDomain.digest st !! k with
    | Some _ => None
    | None =>
        match BackupDomain.updated st !! k with
        | Some h => Some (Some h)
        | None =>
            match BackupDomain.added st !! k with
            | Some h => Some (Some h)
            | None => digest0 !! k
            end
        end
    end.
Proof.
  unfold ChangesSpec.replay, DigestSpec.applyChanges. simpl.
  rewrite deleteAll_lookup.
  destruct (BackupDomain.digest st !! k) as [v|] eqn:Hd.
  - rewrite decide_True; [done|].
    apply list_elem_of_fmap. exists (k, v). split; [done|]. by apply elem_of_map_to_list.
  - rewrite decide_False.
    + by rewrite !setAll_map.
    + intros Hin. apply list_elem_of_fmap in Hin as ([k' v] & -> & Hin).
      apply elem_of_map_to_list in Hin. simpl in Hd. congruence.
Qed.

Set Warnings "-clear-no-such-hyp".

Ltac split_key k k' :=
  destruct (decide (k = k')) as [->|?];
  rewrite ?lookup_insert_eq, ?lookup_delete_eq in *;
  rewrite ?lookup_insert_ne, ?lookup_delete_ne in * by done.

(** One conjunct of what a step of the walk keeps, for the document [d]. *)
Ltac walk_goal d :=
  let k := fresh "k" in
  let h := fresh "h" in
  let Hk := fresh "Hk" in
  let Hn := fresh "Hn" in
  let Hs := fresh "Hs" in
  first
    [ done
    | by (rewrite ?lookup_insert_eq, ?lookup_delete_eq; auto)
    | intros k h [Hn Hs] Hk; split; split_key k (BackupDomain.id d);
      first [ done
            | left; congruence
            | right; left; congruence
            | right; right; congruence
            | destruct Hs as [?|[?|?]];
              first [by left | by (right; left) | by (right; right)] ]
    | intros k h Hk Hn; split_key k (BackupDomain.id d);
      [ eexists; split; [eassumption|];
        first [by left | by (right; left) | right; right; congruence]
      | by eauto ]
    | intros k h Hk; split_key k (BackupDomain.id d); by (congruence || eauto) ].

Lemma docStep_accounted digest0 server st needRetrieve sz d :
  ChangesSpec.hashesDefined digest0 ->
  ChangesSpec.accounted digest0 server st ->
  server !! BackupDomain.id d = Some (BackupDomain.hash d) ->
  let st' := (BackupDomain.docStep (st, needRetrieve, sz) d).1.1 in
  ChangesSpec.accounted digest0 server st'
  /\ ChangesSpec.seen digest0 st' (BackupDomain.id d) (BackupDomain.hash d)
  /\ (forall k h, ChangesSpec.seen digest0 st k h -> server !! k = Some h ->
                  ChangesSpec.seen digest0 st' k h).
Proof.
  intros Hdef (I1 & I2 & I3 & I4) Hd.
  unfold BackupDomain.docStep, ChangesSpec.accounted, ChangesSpec.seen.
  destruct (BackupDomain.digest st !! BackupDomain.id d) as [[kHash|]|] eqn:Hdig.
  - (* the digest knows the document *)
    pose proof (I3 _ _ Hdig) as H0.
    destruct (bool_decide_reflect (kHash ≠ BackupDomain.hash d)) as [Hne|Heq].
    + destruct (_ <? _)%Z; simpl; unfold Backup.Hash in *;
        (split; [split; [|split; [|split]]|split; [split|]]); walk_goal d.
    + apply dec_stable in Heq. subst kHash.
      destruct (_ <? _)%Z; simpl; unfold Backup.Hash in *;
        (split; [split; [|split; [|split]]|split; [split|]]); walk_goal d.
  - by apply I3, Hdef in Hdig.
  - destruct (_ <? _)%Z; simpl; unfold Backup.Hash in *;
        (split; [split; [|split; [|split]]|split; [split|]]); walk_goal d.
Qed.

#[local] Arguments BackupDomain.docStep : simpl never.

Lemma docs_accounted digest0 server docs : forall st needRetrieve sz,
  ChangesSpec.hashesDefined digest0 ->
  ChangesSpec.accounted digest0 server st ->
  (forall d, d ∈ docs -> server !! BackupDomain.id d = Some (BackupDomain.hash d)) ->
  let st' := (foldl BackupDomain.docStep (st, needRetrieve, sz) docs).1.1 in
  ChangesSpec.accounted digest0 server st'
  /\ (forall d, d ∈ docs ->
        ChangesSpec.seen digest0 st' (BackupDomain.id d) (BackupDomain.hash d))
  /\ (forall k h, ChangesSpec.seen digest0 st k h -> server !! k = Some h ->
                  ChangesSpec.seen digest0 st' k h).
Proof.
  induction docs as [|d docs IH]; intros st needRetrieve sz Hdef Hacc Hdocs.
  - simpl. split; [done|]. split; [|done]. intros d Hd. by apply elem_of_nil in Hd.
  - assert (Hd : server !! BackupDomain.id d = Some (BackupDomain.hash d)).
    { apply Hdocs. by left. }
    pose proof (docStep_accounted digest0 server st needRetrieve sz d Hdef Hacc Hd) as H1.
    simpl.
    destruct (BackupDomain.docStep (st, needRetrieve, sz) d) as [[st1 nr1] sz1].
    simpl in H1. destruct H1 as (Hacc1 & Hseen1 & Hkeep1).
    specialize (IH st1 nr1 sz1 Hdef Hacc1
                  (fun d' Hd' => Hdocs d' ltac:(by right))).
    simpl in IH. destruct IH as (Hacc2 & Hseen2 & Hkeep2).
    cbv zeta. split; [done|]. split.
    + intros d' Hd'. apply elem_of_cons in Hd' as [->|Hd']; [|by apply Hseen2].
      by apply Hkeep2.
    + intros k h Hs Hk. apply Hkeep2; [by apply Hkeep1|done].
Qed.

Lemma chunkStep_maps st c :
  let st1 := (foldl BackupDomain.docStep (st, [], 0%Z) (BackupDomain.docs c)).1.1 in
  BackupDomain.digest (BackupDomain.chunkStep st c) = BackupDomain.digest st1
  /\ BackupDomain.added (BackupDomain.chunkStep st c) = BackupDomain.added st1
  /\ BackupDomain.updated (BackupDomain.chunkStep st c) = BackupDomain.updated st1.
Proof.
  unfold BackupDomain.chunkStep.
  destruct (foldl BackupDomain.docStep (st, [], 0%Z) (BackupDomain.docs c))
    as [[st1 nr1] sz1].
  simpl. by destruct (0 <? length nr1).
Qed.

Lemma accounted_maps digest0 server st st' :
  BackupDomain.digest st' = BackupDomain.digest st ->
  BackupDomain.added st' = BackupDomain.added st ->
  BackupDomain.updated st' = BackupDomain.updated st ->
  (ChangesSpec.accounted digest0 server st -> ChangesSpec.accounted digest0 server st')
  /\ (forall k h, ChangesSpec.seen digest0 st k h -> ChangesSpec.seen digest0 st' k h).
Proof.
  unfold ChangesSpec.accounted, ChangesSpec.seen. by intros -> -> ->.
Qed.

Lemma loadChangesLoop_accounted digest0 server answers : forall idx st st',
  ChangesSpec.hashesDefined digest0 ->
  ChangesSpec.accounted digest0 server st ->
  (forall d, d ∈ BackupDomain.loaded answers ->
             server !! BackupDomain.id d = Some (BackupDomain.hash d)) ->
  BackupDomain.loadChangesLoop answers idx st = Some st' ->
  ChangesSpec.accounted digest0 server st'
  /\ (forall d, d ∈ BackupDomain.loaded answers ->
        ChangesSpec.seen digest0 st' (BackupDomain.id d) (BackupDomain.hash d))
  /\ (forall k h, ChangesSpec.seen digest0 st k h -> server !! k = Some h ->
                  ChangesSpec.seen digest0 st' k h).
Proof.
  induction answers as [|[|c] answers IH]; intros idx st st' Hdef Hacc Hdocs Hrun;
    simpl in Hrun; [done|..].
  - (* the call throws: the cursor is closed, the walk starts again *)
    set (st1 := match idx with
                | Some i => BackupDomain.closeChunk st i
                | None => st
                end) in *.
    destruct (accounted_maps digest0 server st st1) as [Hacc1 Hseen1];
      [by destruct idx..|].
    destruct (IH None st1 st' Hdef (Hacc1 Hacc) Hdocs Hrun) as (H1 & H2 & H3).
    split; [done|]. split; [done|]. intros k h Hs Hk. by apply H3; [apply Hseen1|].
  - simpl in Hdocs |- *.
    pose proof (chunkStep_maps st c) as Hmaps.
    pose proof (docs_accounted digest0 server (BackupDomain.docs c) st [] 0%Z Hdef Hacc
                  (fun d Hd => Hdocs d ltac:(apply elem_of_app; by left))) as Hstep.
    simpl in Hmaps, Hstep. destruct Hmaps as (Hm1 & Hm2 & Hm3).
    destruct Hstep as (Hacc1 & Hseen1 & Hkeep1).
    destruct (accounted_maps digest0 server _ (BackupDomain.chunkStep st c) Hm1 Hm2 Hm3)
      as [Hacc2 Hseen2].
    destruct (BackupDomain.finished c) eqn:Hfin.
    + injection Hrun as <-.
      destruct (accounted_maps digest0 server (BackupDomain.chunkStep st c)
                  (BackupDomain.closeChunk (BackupDomain.chunkStep st c)
                     (BackupDomain.idx c)) eq_refl eq_refl eq_refl) as [Hacc3 Hseen3].
      split; [by apply Hacc3, Hacc2|]. split.
      * intros d Hd. rewrite app_nil_r in Hd. by apply Hseen3, Hseen2, Hseen1.
      * intros k h Hs Hk. by apply Hseen3, Hseen2, Hkeep1.
    + destruct (IH _ _ st' Hdef (Hacc2 Hacc1)
                  (fun d Hd => Hdocs d ltac:(apply elem_of_app; by right)) Hrun)
        as (H1 & H2 & H3).
      split; [done|]. split.
      * intros d Hd. apply elem_of_app in Hd as [Hd|Hd]; [|by apply H2].
        apply H3; [by apply Hseen2, Hseen1|].
        apply Hdocs, elem_of_app. by left.
      * intros k h Hs Hk. by apply H3; [apply Hseen2, Hkeep1|].
Qed.

(** X4. [loadChangesFromServer] against a digest whose hashes are all
    defined: when its walk comes to an end, after any number of failed
    attempts, and the chunks it was given show the documents of the
    server as they are, each of them at least once, then replaying what
    it collected onto the digest it started from (the added entries, the
    updated entries, and as removed the ids left in the digest) gives
    exactly the documents of the server with their hashes. *)
Theorem X4_walk_replays_to_server answers digest0 server st :
  ChangesSpec.hashesDefined digest0 ->
  ChangesSpec.walkOf server answers ->
  BackupDomain.loadChangesFromServer answers digest0 = Some st ->
  ChangesSpec.replay digest0 st = ChangesSpec.serverDigest server.
Proof.
  intros Hdef [Hshown Hall] Hrun.
  assert (Hinit : ChangesSpec.accounted digest0 server (BackupDomain.initial digest0)).
  { unfold ChangesSpec.accounted. simpl. repeat split; try done.
    intros k v Hk Hn. unfold Backup.Hash in *. congruence. }
  destruct (loadChangesLoop_accounted digest0 server answers None _ st Hdef Hinit Hshown Hrun)
    as ((I1 & I2 & I3 & I4) & Hseen & _).
  apply map_eq. intros k.
  rewrite replay_lookup. unfold ChangesSpec.serverDigest. rewrite lookup_fmap.
  destruct (server !! k) as [h|] eqn:Hk; simpl.
  - (* a document of the server: the walk has met it *)
    destruct (Hall k ltac:(by rewrite Hk)) as (d & Hd & <-).
    destruct (Hseen d Hd) as [Hgone Hwhere].
    pose proof (Hshown d Hd) as Hh. rewrite Hk in Hh. injection Hh as ->.
    rewrite Hgone.
    destruct (BackupDomain.updated st !! BackupDomain.id d) as [h1|] eqn:Hu.
    { assert (h1 = BackupDomain.hash d) as -> by (apply I2 in Hu; congruence). done. }
    destruct (BackupDomain.added st !! BackupDomain.id d) as [h2|] eqn:Ha.
    { assert (h2 = BackupDomain.hash d) as -> by (apply I1 in Ha; congruence). done. }
    by destruct Hwhere as [?|[?|?]].
  - destruct (BackupDomain.digest st !! k) as [v|] eqn:Hdig; [done|].
    destruct (BackupDomain.updated st !! k) as [h1|] eqn:Hu.
    { apply I2 in Hu. congruence. }
    destruct (BackupDomain.added st !! k) as [h2|] eqn:Ha.
    { apply I1 in Ha. congruence. }
    destruct (digest0 !! k) as [v|] eqn:H0; [|done].
    destruct (I4 k v H0 Hdig) as (h & Hsrv & _). congruence.
Qed.

Lemma sampleAnswers_walk : ChangesSpec.walkOf sampleServer sampleAnswers.
Proof.
  split.
  - intros d Hd. simpl in Hd.
    repeat (apply elem_of_cons in Hd as [->|Hd]; [by vm_compute|]).
    by apply elem_of_nil in Hd.
  - intros k [h Hk]. unfold sampleServer in Hk.
    apply lookup_insert_Some in Hk as [[<- _]|[_ Hk]].
    { exists (sampleDoc "a" "h1"). split; [|done]. simpl. by left. }
    apply lookup_insert_Some in Hk as [[<- _]|[_ Hk]]; [|by rewrite lookup_empty in Hk].
    exists (sampleDoc "b" "h2"). split; [|done]. simpl. right. right. by left.
Qed.

Lemma sampleDigest_defined : ChangesSpec.hashesDefined sampleDigest.
Proof.
  intros k Hk. unfold sampleDigest in Hk.
  apply lookup_insert_Some in Hk as [[_ ?]|[_ Hk]]; [done|].
  apply lookup_insert_Some in Hk as [[_ ?]|[_ Hk]]; [done|].
  by rewrite lookup_empty in Hk.
Qed.

Lemma X4_walk_replays_to_server_witness :
  exists st,
    BackupDomain.loadChangesFromServer sampleAnswers sampleDigest = Some st
    /\ ChangesSpec.replay sampleDigest st = ChangesSpec.serverDigest sampleServer.
Proof.
  eexists. split; [reflexivity|].
  exact (X4_walk_replays_to_server sampleAnswers sampleDigest sampleServer _
           sampleDigest_defined sampleAnswers_walk eq_refl).
Defined.

Lemma queued_same st st' needRetrieve :
  BackupDomain.changed st' = BackupDomain.changed st ->
  BackupDomain.needRetrieveChunks st' = BackupDomain.needRetrieveChunks st ->
  BackupDomain.added st' = BackupDomain.added st ->
  BackupDomain.updated st' = BackupDomain.updated st ->
  ChangesSpec.queued st needRetrieve -> ChangesSpec.queued st' needRetrieve.
Proof. unfold ChangesSpec.queued. by intros -> -> -> ->. Qed.

Lemma queued_push st st' needRetrieve k :
  BackupDomain.changed st' = S (BackupDomain.changed st) ->
  BackupDomain.needRetrieveChunks st' = BackupDomain.needRetrieveChunks st ->
  (forall j, (is_Some (BackupDomain.added st' !! j)
              \/ is_Some (BackupDomain.updated st' !! j))
             <-> (j = k \/ is_Some (BackupDomain.added st !! j)
                  \/ is_Some (BackupDomain.updated st !! j))) ->
  ChangesSpec.queued st needRetrieve -> ChangesSpec.queued st' (needRetrieve ++ [k]).
Proof.
  unfold ChangesSpec.queued. intros -> -> Hmaps (Hcount & Hall & Hin).
  split; [|split; [done|]].
  - rewrite Hcount, !length_app. simpl. lia.
  - intros j. rewrite Hmaps, Hin, !elem_of_app, list_elem_of_singleton. tauto.
Qed.

Lemma queued_flush st st' needRetrieve :
  needRetrieve <> [] ->
  BackupDomain.changed st' = BackupDomain.changed st ->
  BackupDomain.needRetrieveChunks st' = BackupDomain.needRetrieveChunks st ++ [needRetrieve] ->
  BackupDomain.added st' = BackupDomain.added st ->
  BackupDomain.updated st' = BackupDomain.updated st ->
  ChangesSpec.queued st needRetrieve -> ChangesSpec.queued st' [].
Proof.
  unfold ChangesSpec.queued. intros Hne -> -> -> -> (Hcount & Hall & Hin).
  assert (Heq : concat (BackupDomain.needRetrieveChunks st ++ [needRetrieve]) ++ []
                = concat (BackupDomain.needRetrieveChunks st) ++ needRetrieve).
  { rewrite concat_app. simpl. by rewrite !app_nil_r. }
  rewrite Heq. split; [done|]. split; [|done].
  apply Forall_app. split; [done|]. by constructor.
Qed.

Lemma docStep_queued st needRetrieve sz d :
  ChangesSpec.queued st needRetrieve ->
  (needRetrieve = [] -> sz = 0%Z) ->
  let r := BackupDomain.docStep (st, needRetrieve, sz) d in
  ChangesSpec.queued r.1.1 r.1.2 /\ (r.1.2 = [] -> r.2 = 0%Z).
Proof.
  intros Hq Hsz.
  assert (Hflush : forall st1 nr1 sz1,
            ChangesSpec.queued st1 nr1 -> (nr1 = [] -> sz1 = 0%Z) ->
            let r := if (BackupDomain.retrieveChunkSize <? sz1)%Z
                     then ({| BackupDomain.digest := BackupDomain.digest st1;
                              BackupDomain.added := BackupDomain.added st1;
                              BackupDomain.updated := BackupDomain.updated st1;
                              BackupDomain.changed := BackupDomain.changed st1;
                              BackupDomain.needRetrieveChunks :=
                                BackupDomain.needRetrieveChunks st1 ++ [nr1];
                              BackupDomain.closed := BackupDomain.closed st1 |},
                           [], 0%Z)
                     else (st1, nr1, sz1) in
            ChangesSpec.queued r.1.1 r.1.2 /\ (r.1.2 = [] -> r.2 = 0%Z)).
  { intros st1 nr1 sz1 Hq1 Hsz1.
    destruct (Z.ltb_spec BackupDomain.retrieveChunkSize sz1) as [Hlt|Hge]; simpl; [|done].
    split; [|done]. apply (queued_flush st1 _ nr1); try done.
    intros Hnil. specialize (Hsz1 Hnil). unfold BackupDomain.retrieveChunkSize in Hlt. lia. }
  unfold BackupDomain.docStep.
  destruct (BackupDomain.digest st !! BackupDomain.id d) as [[kHash|]|] eqn:Hdig.
  - destruct (bool_decide (kHash ≠ BackupDomain.hash d)).
    + apply Hflush; [|intros Hnil; by destruct needRetrieve].
      apply (queued_push st); try done. simpl. intros j.
      rewrite lookup_insert_is_Some. destruct (decide (BackupDomain.id d = j)); naive_solver.
    + apply Hflush; [|done]. by apply (queued_same st).
  - apply Hflush; [|intros Hnil; by destruct needRetrieve].
    apply (queued_push st); try done. simpl. intros j.
    rewrite lookup_insert_is_Some. destruct (decide (BackupDomain.id d = j)); naive_solver.
  - apply Hflush; [|intros Hnil; by destruct needRetrieve].
    apply (queued_push st); try done. simpl. intros j.
    rewrite lookup_insert_is_Some. destruct (decide (BackupDomain.id d = j)); naive_solver.
Qed.

Lemma docs_queued docs : forall st needRetrieve sz,
  ChangesSpec.queued st needRetrieve ->
  (needRetrieve = [] -> sz = 0%Z) ->
  let r := foldl BackupDomain.docStep (st, needRetrieve, sz) docs in
  ChangesSpec.queued r.1.1 r.1.2.
Proof.
  induction docs as [|d docs IH]; intros st needRetrieve sz Hq Hsz; [done|].
  simpl. pose proof (docStep_queued st needRetrieve sz d Hq Hsz) as H.
  destruct (BackupDomain.docStep (st, needRetrieve, sz) d) as [[st1 nr1] sz1].
  simpl in H. destruct H as [Hq1 Hsz1]. by apply IH.
Qed.

Lemma chunkStep_queued st c :
  ChangesSpec.queued st [] -> ChangesSpec.queued (BackupDomain.chunkStep st c) [].
Proof.
  intros Hq. unfold BackupDomain.chunkStep.
  pose proof (docs_queued (BackupDomain.docs c) st [] 0%Z Hq (fun _ => eq_refl)) as H.
  destruct (foldl BackupDomain.docStep (st, [], 0%Z) (BackupDomain.docs c))
    as [[st1 nr1] sz1].
  simpl in H. destruct nr1 as [|k nr1]; [done|]. simpl.
  by apply (queued_flush st1 _ (k :: nr1)).
Qed.

Lemma loadChangesLoop_queued answers : forall idx st st',
  ChangesSpec.queued st [] ->
  BackupDomain.loadChangesLoop answers idx st = Some st' ->
  ChangesSpec.queued st' [].
Proof.
  induction answers as [|[|c] answers IH]; intros idx st st' Hq Hrun;
    simpl in Hrun; [done|..].
  - eapply IH; [|exact Hrun]. destruct idx; [|done].
    by apply (queued_same st).
  - pose proof (chunkStep_queued st c Hq) as Hq1.
    destruct (BackupDomain.finished c).
    + injection Hrun as <-. by apply (queued_same (BackupDomain.chunkStep st c)).
    + by eapply IH.
Qed.

(** X5. When the walk of [loadChangesFromServer] comes to an end, the
    chunks of ids it hands over for retrieval hold the ids of the added
    and updated entries and no other id; no chunk is empty; and [changed]
    counts the ids queued, an id once for every time a failed walk or the
    last one recorded it. *)
Theorem X5_walk_queues_changes answers digest0 st :
  BackupDomain.loadChangesFromServer answers digest0 = Some st ->
  BackupDomain.changed st = length (concat (BackupDomain.needRetrieveChunks st))
  /\ Forall (fun chunk => chunk <> []) (BackupDomain.needRetrieveChunks st)
  /\ forall k, (is_Some (BackupDomain.added st !! k)
                \/ is_Some (BackupDomain.updated st !! k))
               <-> k ∈ concat (BackupDomain.needRetrieveChunks st).
Proof.
  intros Hrun.
  assert (Hinit : ChangesSpec.queued (BackupDomain.initial digest0) []).
  { unfold ChangesSpec.queued. simpl. split; [done|]. split; [done|].
    intros k. rewrite !lookup_empty, elem_of_nil. split; [|done].
    intros [[? ?]|[? ?]]; done. }
  pose proof (loadChangesLoop_queued answers None _ st Hinit Hrun) as (H1 & H2 & H3).
  rewrite app_nil_r in H1. split; [done|]. split; [done|].
  intros k. rewrite (H3 k). by rewrite app_nil_r.
Qed.

Lemma X5_walk_queues_changes_witness :
  exists st,
    BackupDomain.loadChangesFromServer sampleAnswers sampleDigest = Some st
    /\ BackupDomain.changed st = length (concat (BackupDomain.needRetrieveChunks st)).
Proof.
  eexists. split; [reflexivity|].
  exact (proj1 (X5_walk_queues_changes sampleAnswers sampleDigest _ eq_refl)).
Defined.

Example walk_after_failure :
  (fun st => (BackupDomain.needRetrieveChunks st, BackupDomain.changed st,
              BackupDomain.closed st,
              (map_to_list (BackupDomain.digest st)).*1))
  <$> BackupDomain.loadChangesFromServer sampleAnswers sampleDigest
  = Some ([["a"; "b"]], 2, [0; 1], ["c"]).
Proof. vm_compute. reflexivity. Qed.

(** *** restore: the snapshots and the target digest *)

Lemma upTo_None ss : DigestSpec.upTo None ss = ss.
Proof.
  induction ss as [|s rest IH]; simpl; [done|].
  destruct (decide (None = Some (Backup.date s))); [done|]. by rewrite IH.
Qed.

Lemma upTo_idem target ss :
  DigestSpec.upTo target (DigestSpec.upTo target ss) = DigestSpec.upTo target ss.
Proof.
  induction ss as [|s rest IH]; simpl; [done|].
  destruct (decide (target = Some (Backup.date s))) as [Heq|Hne]; simpl; [done|].
  by rewrite IH.
Qed.

Lemma findIndex_upTo date ss :
  match Restore.findIndex date ss with
  | Some bk => take (bk + 1) ss = DigestSpec.upTo (Some date) ss
  | None => Forall (fun s => Backup.date s <> date) ss
  end.
Proof.
  induction ss as [|s rest IH]; simpl; [done|].
  destruct (Z.eqb_spec (Backup.date s) date) as [Heq|Hne].
  - simpl. rewrite decide_True by congruence. by rewrite take_0.
  - rewrite decide_False by congruence.
    destruct (Restore.findIndex date rest) as [bk|]; simpl.
    + by rewrite IH.
    + by constructor.
Qed.

Lemma loadDigest_upTo st ss c target :
  Backup.loadDigest st ss c target
  = Backup.loadDigest st (DigestSpec.upTo target ss) c None.
Proof.
  unfold Backup.loadDigest. by rewrite !loadDigestLoop_fold, upTo_None.
Qed.

(** X6. How [restore] chooses what it restores from.  With a date other
    than -1 it takes the snapshots up to and including the first one that
    carries that date, and throws when no snapshot does.  With -1 it takes
    all snapshots together with the date of the last one, and throws when
    there is none.  In both cases the target digest [loadDigest] then
    computes for a domain is that of the snapshots up to and including
    the first one that carries the date passed on. *)
Theorem X6_restore_selects_snapshots st ss date c :
  match Restore.selectSnapshots ss date with
  | Restore.Selected sel d =>
      Backup.loadDigest st sel c (Some d)
      = Backup.loadDigest st (DigestSpec.upTo (Some d) ss) c None
      /\ (date <> (-1)%Z -> d = date /\ sel = DigestSpec.upTo (Some date) ss)
      /\ (date = (-1)%Z -> sel = ss /\ last (Backup.date <$> ss) = Some d)
  | Restore.SnapshotMissing =>
      date <> (-1)%Z /\ Forall (fun s => Backup.date s <> date) ss
  | Restore.NoSnapshot => date = (-1)%Z /\ ss = []
  end.
Proof.
  unfold Restore.selectSnapshots.
  destruct (bool_decide_reflect (date ≠ (-1)%Z)) as [Hdate|Hlast].
  - pose proof (findIndex_upTo date ss) as Hfind.
    destruct (Restore.findIndex date ss) as [bk|]; [|done].
    rewrite Hfind. split; [|done].
    by rewrite (loadDigest_upTo st (DigestSpec.upTo (Some date) ss)), upTo_idem.
  - apply dec_stable in Hlast.
    destruct (last ss) as [s|] eqn:Hs.
    + split; [apply loadDigest_upTo|]. split; [done|].
      intros _. split; [done|]. by rewrite fmap_last, Hs.
    + split; [done|]. by apply last_None.
Qed.

(** *** restore: the difference with the server *)

Lemma JsMap_get_set {V} k v k' (m : list (string * V)) :
  JsMap.get k' (JsMap.set k v m) = if decide (k' = k) then Some v else JsMap.get k' m.
Proof.
  induction m as [|e rest IH]; simpl.
  - destruct (bool_decide_reflect (k = k')) as [->|Hne].
    + by rewrite decide_True.
    + by rewrite decide_False.
  - destruct (bool_decide_reflect (e.1 = k)) as [He|He]; simpl.
    + destruct (bool_decide_reflect (k = k')) as [->|Hne].
      * by rewrite decide_True.
      * rewrite decide_False by done.
        by rewrite bool_decide_eq_false_2 by congruence.
    + destruct (bool_decide_reflect (e.1 = k')) as [He'|He'].
      * by rewrite decide_False by congruence.
      * exact IH.
Qed.

Lemma JsMap_keys_set {V} k v (m : list (string * V)) :
  JsMap.keys (JsMap.set k v m)
  = if decide (k ∈ JsMap.keys m) then JsMap.keys m else JsMap.keys m ++ [k].
Proof.
  unfold JsMap.keys. induction m as [|e rest IH]; cbn [JsMap.set].
  - destruct (decide (k ∈ [])) as [Hin|_]; [by apply elem_of_nil in Hin|done].
  - rewrite !fmap_cons.
    destruct (bool_decide_reflect (e.1 = k)) as [He|He].
    + rewrite fmap_cons. simpl fst.
      destruct (decide (k ∈ e.1 :: rest.*1)) as [_|Hnin]; [by rewrite He|].
      exfalso. apply Hnin. rewrite He. by left.
    + rewrite fmap_cons, IH. destruct (decide (k ∈ rest.*1)) as [Hin|Hnin].
      * destruct (decide (k ∈ e.1 :: rest.*1)) as [_|Hnin]; [done|].
        exfalso. apply Hnin. by right.
      * destruct (decide (k ∈ e.1 :: rest.*1)) as [Hin|_]; [|done].
        apply elem_of_cons in Hin as [?|?]; congruence.
Qed.

Lemma JsMap_keys_get {V} k (m : list (string * V)) :
  k ∈ JsMap.keys m <-> is_Some (JsMap.get k m).
Proof.
  unfold JsMap.keys. induction m as [|e rest IH]; cbn [JsMap.get].
  - rewrite fmap_nil, elem_of_nil. split; [done|]. by intros [? ?].
  - rewrite fmap_cons, elem_of_cons.
    destruct (bool_decide_reflect (e.1 = k)) as [He|He].
    + split; [by eexists|]. intros _. by left.
    + rewrite <- IH. split; [intros [?|?]; [congruence|done]|by right].
Qed.

Lemma JsMap_get_lookup {V} k (m : list (string * V)) :
  JsMap.get k m = (list_to_map m : gmap string V) !! k.
Proof.
  induction m as [|[k' v] rest IH]; simpl; [by rewrite lookup_empty|].
  destruct (bool_decide_reflect (k' = k)) as [->|Hne].
  - by rewrite lookup_insert_eq.
  - by rewrite lookup_insert_ne.
Qed.

Lemma serverChangesetOf_snoc docs d :
  Restore.serverChangesetOf (docs ++ [d])
  = JsMap.set (BackupDomain.id d) (BackupDomain.hash d) (Restore.serverChangesetOf docs).
Proof. unfold Restore.serverChangesetOf. by rewrite foldl_app. Qed.

Lemma serverChangesetOf_keys docs : NoDup (JsMap.keys (Restore.serverChangesetOf docs)).
Proof.
  induction docs as [|d docs IH] using rev_ind; [constructor|].
  rewrite serverChangesetOf_snoc, JsMap_keys_set.
  destruct (decide _) as [Hin|Hnin]; [done|].
  apply NoDup_app. split; [done|]. split; [|apply NoDup_singleton].
  intros k Hk Hk'. apply list_elem_of_singleton in Hk' as ->. done.
Qed.

Lemma serverChangesetOf_get docs k :
  JsMap.get k (Restore.serverChangesetOf docs)
  = last (BackupDomain.hash
            <$> List.filter (fun d => bool_decide (BackupDomain.id d = k)) docs).
Proof.
  induction docs as [|d docs IH] using rev_ind; [done|].
  rewrite serverChangesetOf_snoc, JsMap_get_set, List.filter_app, fmap_app. simpl.
  destruct (bool_decide_reflect (BackupDomain.id d = k)) as [Hd|Hd]; simpl.
  - rewrite decide_True by done. by rewrite last_snoc.
  - rewrite decide_False by congruence. by rewrite app_nil_r.
Qed.

Lemma docsToRemove_elem sc (changeset : gmap string Backup.Hash) k :
  k ∈ Restore.docsToRemove sc changeset
  <-> is_Some (JsMap.get k sc) /\ changeset !! k = None.
Proof.
  unfold Restore.docsToRemove, Backup.docsToRemoveOf.
  rewrite list_elem_of_In, List.filter_In, <- list_elem_of_In, JsMap_keys_get.
  by rewrite bool_decide_eq_true.
Qed.

(** X7. The difference [restore] computes for a domain between the
    target digest and the server.  The server's hash of a document is the
    one of the last chunk entry that shows it.  [docsToRemove] lists, once
    each, the documents the server shows and the digest lacks.  A document
    the server holds with the digest's hash is neither added nor removed.
    And the difference is exact: once every document of [docsToAdd] is on
    the server with the digest's hash and every document of [docsToRemove]
    has been removed, the server holds the target digest. *)
Theorem X7_restore_diff_reconciles docs (changeset : gmap string Backup.Hash) :
  let serverChangeset := Restore.serverChangesetOf docs in
  (forall k,
      JsMap.get k serverChangeset
      = last (BackupDomain.hash
                <$> List.filter (fun d => bool_decide (BackupDomain.id d = k)) docs))
  /\ NoDup (Restore.docsToRemove serverChangeset changeset)
  /\ (forall k, k ∈ Restore.docsToRemove serverChangeset changeset
                <-> is_Some (JsMap.get k serverChangeset) /\ changeset !! k = None)
  /\ (forall k h,
        JsMap.get k serverChangeset = Some h -> changeset !! k = Some (Some h) ->
        Restore.docsToAdd serverChangeset changeset !! k = None
        /\ k ∉ Restore.docsToRemove serverChangeset changeset)
  /\ Backup.deleteAll (Restore.docsToRemove serverChangeset changeset)
       (Restore.docsToAdd serverChangeset changeset
        ∪ (Some <$> list_to_map serverChangeset))
     = changeset.
Proof.
  intros sc.
  split; [apply serverChangesetOf_get|].
  split.
  { unfold Restore.docsToRemove, Backup.docsToRemoveOf.
    apply NoDup_ListNoDup, List.NoDup_filter, NoDup_ListNoDup, serverChangesetOf_keys. }
  split; [apply docsToRemove_elem|].
  split.
  { intros k h Hget Hset. split.
    - apply map_lookup_filter_None. right. intros v Hv. simpl.
      unfold Restore.toAdd. rewrite Hget.
      assert (v = Some h) as -> by (unfold Backup.Hash in *; congruence).
      by rewrite bool_decide_eq_false_2 by (intros Hne; by apply Hne).
    - rewrite docsToRemove_elem. intros [_ Hnone].
      unfold Backup.Hash in *. congruence. }
  apply map_eq. intros k. rewrite deleteAll_lookup.
  destruct (decide (k ∈ Restore.docsToRemove sc changeset)) as [Hin|Hnin].
  - apply docsToRemove_elem in Hin as [_ Hnone]. by rewrite Hnone.
  - rewrite docsToRemove_elem in Hnin.
    destruct (changeset !! k) as [v|] eqn:Hk.
    + destruct (Restore.toAdd sc k v) eqn:Hadd.
      * apply lookup_union_Some_l, map_lookup_filter_Some. by split.
      * rewrite lookup_union_r.
        -- rewrite lookup_fmap, <- JsMap_get_lookup.
           unfold Restore.toAdd in Hadd.
           destruct (JsMap.get k sc) as [h|]; [|done].
           apply bool_decide_eq_false in Hadd. apply dec_stable in Hadd.
           by rewrite <- Hadd.
        -- apply map_lookup_filter_None. right. intros v' Hv'. simpl.
           assert (v' = v) as -> by (unfold Backup.Hash in *; congruence).
           by rewrite Hadd.
    + rewrite lookup_union_r.
      * rewrite lookup_fmap, <- JsMap_get_lookup.
        destruct (JsMap.get k sc) as [h|] eqn:Hget; [|done].
        exfalso. apply Hnin. split; [by eexists|done].
      * apply map_lookup_filter_None. left. done.
Qed.

(** *** restore: the uploads *)

Section Uploads.
Import Restore UploadSpec.
Context {Doc : Type}.
Variable docId : Doc -> string.
Variable clearHash : Doc -> Doc.
Variable recheck : bool.

Local Abbreviation sendChunk := (Restore.sendChunk docId clearHash recheck).
Local Abbreviation sendAll := (Restore.sendAll docId clearHash recheck).
Local Abbreviation prep := (fun e : Doc * Z => if recheck then clearHash e.1 else e.1).

Lemma total_snoc (part : list (Doc * Z)) e : total (part ++ [e]) = (total part + e.2)%Z.
Proof.
  unfold total. induction part as [|x part IH]; simpl; [lia|]. rewrite IH. lia.
Qed.

Lemma sendChunk_doc st parts cur e :
  sending prep st parts cur ->
  exists parts' cur',
    sending prep (sendChunk (Some e.1) e.2 st) parts' cur'
    /\ concat parts' ++ cur' = (concat parts ++ cur) ++ [e]
    /\ pendingAdd (sendChunk (Some e.1) e.2 st) = delete (docId e.1) (pendingAdd st).
Proof.
  intros (Hup & Hdocs & Hsize & Hle & Hcur & Hparts).
  assert (Hb : bounded (cur ++ [e])).
  { split; [by destruct cur|]. by rewrite removelast_last. }
  unfold Restore.sendChunk. simpl. rewrite orb_false_r, Hsize.
  destruct (Z.ltb_spec dataUploadSize (total cur + e.2)) as [Hlt|Hge].
  - exists (parts ++ [cur ++ [e]]), []. split; [|split; [|done]].
    + unfold sending. simpl.
      rewrite Hup, Hdocs, !map_app. simpl. rewrite map_app. simpl.
      split; [done|]. split; [done|]. split; [done|].
      split; [unfold dataUploadSize; lia|]. split; [by left|].
      apply Forall_app. split; [done|]. by constructor.
    + rewrite concat_app. simpl. by rewrite !app_nil_r, app_assoc.
  - exists parts, (cur ++ [e]). split; [|split; [|done]].
    + unfold sending. simpl. rewrite Hdocs, map_app, total_snoc. simpl.
      split; [done|]. split; [by destruct e|]. split; [done|].
      split; [done|]. split; [by right|done].
    + by rewrite app_assoc.
Qed.

Lemma sendChunk_end st parts cur :
  sending prep st parts cur ->
  exists parts',
    sending prep (sendChunk None 0 st) parts' []
    /\ concat parts' = concat parts ++ cur
    /\ pendingAdd (sendChunk None 0 st) = pendingAdd st.
Proof.
  intros (Hup & Hdocs & Hsize & Hle & Hcur & Hparts).
  unfold Restore.sendChunk. simpl. rewrite Hsize, Z.add_0_r.
  replace (dataUploadSize <? total cur)%Z with false by (symmetry; apply Z.ltb_ge; lia).
  simpl. rewrite Hdocs, length_map.
  destruct cur as [|e cur]; simpl.
  - exists parts. split; [|by rewrite app_nil_r].
    unfold sending. simpl. repeat split; auto.
  - exists (parts ++ [e :: cur]). split; [|split; [|done]].
    + unfold sending. simpl. rewrite Hup, map_app. simpl.
      repeat split; auto; [unfold dataUploadSize; lia|].
      apply Forall_app. split; [done|]. constructor; [|done].
      by destruct Hcur.
    + rewrite concat_app. simpl. by rewrite app_nil_r.
Qed.

Lemma sendChunks_docs found : forall st parts cur,
  sending prep st parts cur ->
  exists parts' cur',
    sending prep (foldl (fun st e => sendChunk (Some e.1) e.2 st) st found) parts' cur'
    /\ concat parts' ++ cur' = (concat parts ++ cur) ++ found
    /\ pendingAdd (foldl (fun st e => sendChunk (Some e.1) e.2 st) st found)
       = foldl (fun m e => delete (docId e.1) m) (pendingAdd st) found.
Proof.
  induction found as [|e found IH]; intros st parts cur Hs; simpl.
  - exists parts, cur. by rewrite app_nil_r.
  - destruct (sendChunk_doc st parts cur e Hs) as (parts1 & cur1 & Hs1 & Hcat1 & Hadd1).
    destruct (IH _ parts1 cur1 Hs1) as (parts2 & cur2 & Hs2 & Hcat2 & Hadd2).
    exists parts2, cur2. split; [done|]. split.
    + by rewrite Hcat2, Hcat1, <- app_assoc.
    + by rewrite Hadd2, Hadd1.
Qed.

(** X8. The uploads of [restore] for a domain, when [connection.upload]
    goes through: the documents found in the backup files are uploaded in
    the order they were found, each once and (with [recheck]) without its
    hash field, in batches none of which is empty and each of which stays
    within the upload size (2 MiB) up to its last document; after the
    closing call nothing is left waiting; and every document sent has been
    taken off [docsToAdd]. *)
Theorem X8_restore_uploads_in_batches (found : list (Doc * Z)) toAdd :
  let st := sendAll found {| pendingAdd := toAdd; docs := []; sendSize := 0; uploads := [] |} in
  (exists parts,
      concat parts = found
      /\ uploads st = map (map prep) parts
      /\ Forall bounded parts)
  /\ docs st = []
  /\ sendSize st = 0%Z
  /\ pendingAdd st = foldl (fun m e => delete (docId e.1) m) toAdd found.
Proof.
  set (st0 := {| pendingAdd := toAdd; docs := []; sendSize := 0; uploads := [] |}).
  assert (H0 : sending prep st0 [] []).
  { unfold sending. simpl. repeat split; auto. unfold dataUploadSize. lia. }
  destruct (sendChunks_docs found st0 [] [] H0) as (parts1 & cur1 & Hs1 & Hcat1 & Hadd1).
  destruct (sendChunk_end _ parts1 cur1 Hs1) as (parts2 & Hs2 & Hcat2 & Hadd2).
  unfold Restore.sendAll. cbv zeta.
  destruct Hs2 as (Hup & Hdocs & Hsize & _ & _ & Hparts).
  split; [|split; [done|split; [done|]]].
  - exists parts2. split; [|done]. by rewrite Hcat2, Hcat1.
  - by rewrite Hadd2, Hadd1.
Qed.

End Uploads.

Example restore_uploads :
  Restore.uploads
    (Restore.sendAll (fun d : string => d) (fun d => d) false
       [("a", 1500000%Z); ("b", 1000000%Z); ("c", 10%Z)]
       {| Restore.pendingAdd := ∅; Restore.docs := []; Restore.sendSize := 0;
          Restore.uploads := [] |})
  = [["a"; "b"]; ["c"]].
Proof. vm_compute. reflexivity. Qed.

(** *** restore: a domain the backup does not know, and the retries *)

Lemma chain_unknown st c ss :
  Forall (fun s => Backup.domains s !! c = None) ss ->
  DigestSpec.chain st c ss = Some [].
Proof.
  induction 1 as [|s ss Hs _ IH]; [done|].
  cbn [DigestSpec.chain]. unfold DigestSpec.changesOf, Backup.snapshotFiles.
  rewrite Hs. simpl. by rewrite IH.
Qed.

Lemma upTo_Forall (P : Backup.BackupSnapshot -> Prop) target ss :
  Forall P ss -> Forall P (DigestSpec.upTo target ss).
Proof.
  induction 1 as [|s ss Hs _ IH]; simpl; [done|].
  constructor; [done|]. by destruct (decide _).
Qed.

(** X9. A domain of the hierarchy that no snapshot knows is still gone
    through by [restore] (unless it is the fulltext domain or the options
    leave it out); its target digest is empty, so no document is uploaded
    and every document the server shows is to be removed.  Unless [merge]
    is set or the domain is the blob domain, a removal pass that has ended
    has emptied the domain, the ids being cleaned in batches of at most
    10000 (for the doc-index-state domain the fulltext domain is emptied
    first, in the same way), and the pass ends once [connection.clean] has
    stopped failing. *)
Theorem X9_restore_unknown_domain st ss allDomains include skip c date docs merge fuel clean :
  Forall (fun s => Backup.domains s !! c = None) ss ->
  c ∈ allDomains ->
  c <> Backup.DOMAIN_FULLTEXT_BLOB ->
  Restore.allowed include skip c = true ->
  c ∈ Restore.domainsToProcess ss allDomains include skip
  /\ (Backup.DOMAIN_FULLTEXT_BLOB ∉ Restore.domainsToProcess ss allDomains include skip)
  /\ Backup.loadDigest st ss c date = Some ∅
  /\ Restore.docsToAdd (Restore.serverChangesetOf docs) ∅ = ∅
  /\ Restore.docsToRemove (Restore.serverChangesetOf docs) ∅
     = JsMap.keys (Restore.serverChangesetOf docs)
  /\ (forall d, d ∈ docs ->
        BackupDomain.id d ∈ Restore.docsToRemove (Restore.serverChangesetOf docs) ∅)
  /\ (c <> Backup.DOMAIN_BLOB -> merge <> Some true ->
      (forall calls,
         Backup.removalPass fuel merge c
           (Restore.docsToRemove (Restore.serverChangesetOf docs) ∅) clean = Some calls ->
         exists calls1 calls2,
           calls = calls1 ++ calls2
           /\ Forall (fun call => Backup.cleanDomain call = Backup.DOMAIN_FULLTEXT_BLOB
                                  /\ (0 < Z.of_nat (length (Backup.cleanIds call)) <= 10000)%Z)
                     calls1
           /\ Backup.cleaned calls1
              ≡ₚ (if bool_decide (c = Backup.DOMAIN_DOC_INDEX_STATE)
                  then JsMap.keys (Restore.serverChangesetOf docs) else [])
           /\ Forall (fun call => Backup.cleanDomain call = c
                                  /\ (0 < Z.of_nat (length (Backup.cleanIds call)) <= 10000)%Z)
                     calls2
           /\ Backup.cleaned calls2 ≡ₚ JsMap.keys (Restore.serverChangesetOf docs))
      /\ (forall failures,
            (forall n, failures <= n -> clean n = true) ->
            failures + length (JsMap.keys (Restore.serverChangesetOf docs)) <= fuel ->
            is_Some (Backup.removalPass fuel merge c
                       (Restore.docsToRemove (Restore.serverChangesetOf docs) ∅) clean))).
Proof.
  intros Hunknown Hin Hft Hallowed.
  assert (Hrem : Restore.docsToRemove (Restore.serverChangesetOf docs) ∅
                 = JsMap.keys (Restore.serverChangesetOf docs)).
  { unfold Restore.docsToRemove, Backup.docsToRemoveOf.
    induction (JsMap.keys (Restore.serverChangesetOf docs)) as [|k ks IH]; [done|].
    simpl. rewrite lookup_empty, bool_decide_eq_true_2 by done. by rewrite IH. }
  split.
  { unfold Restore.domainsToProcess, Restore.domainsOf.
    rewrite elem_of_filter, elem_of_difference, elem_of_union, elem_of_list_to_set,
      not_elem_of_singleton.
    auto. }
  split.
  { unfold Restore.domainsToProcess, Restore.domainsOf.
    rewrite elem_of_filter, elem_of_difference, not_elem_of_singleton.
    intros (_ & _ & Hne). by apply Hne. }
  split.
  { unfold Backup.loadDigest. rewrite loadDigestLoop_fold.
    by rewrite (chain_unknown st c _ (upTo_Forall _ date ss Hunknown)). }
  split; [apply map_filter_empty|].
  split; [exact Hrem|].
  split.
  { intros d Hd. rewrite Hrem. apply JsMap_keys_get.
    rewrite serverChangesetOf_get.
    assert (Hd' : In d (List.filter (fun d' => bool_decide (BackupDomain.id d' = BackupDomain.id d))
                          docs)).
    { apply List.filter_In. split; [by apply list_elem_of_In|]. by apply bool_decide_eq_true. }
    destruct (List.filter _ docs) as [|x l] eqn:Hl using rev_ind; [done|].
    rewrite fmap_app. simpl. rewrite last_snoc. by eexists. }
  intros Hblob Hmerge. rewrite Hrem. split.
  - intros calls Hrun.
    destruct (removalPass_spec _ _ _ _ _ _ Hblob Hmerge Hrun)
      as (calls1 & calls2 & H1 & H2 & H3 & H4 & H5 & _).
    by exists calls1, calls2.
  - intros failures. apply removalPass_ends.
Qed.

Lemma X9_restore_unknown_domain_witness :
  "space" ∈ Restore.domainsToProcess sampleChain ["tx"; "space"] None None
  /\ Backup.loadDigest sampleStore sampleChain "space" None = Some ∅
  /\ Restore.docsToRemove (Restore.serverChangesetOf [sampleDoc "a" "h1"]) ∅ = ["a"]
  /\ is_Some (Backup.removalPass 2 None "space"
                (Restore.docsToRemove (Restore.serverChangesetOf [sampleDoc "a" "h1"]) ∅)
                (fun n => negb (n =? 0))).
Proof.
  assert (Hunknown : Forall (fun s => Backup.domains s !! "space" = None) sampleChain).
  { repeat constructor. }
  pose proof (X9_restore_unknown_domain sampleStore sampleChain ["tx"; "space"] None None
                "space" None [sampleDoc "a" "h1"] None 2 (fun n => negb (n =? 0))
                Hunknown ltac:(right; left) ltac:(discriminate) eq_refl) as H.
  destruct H as (H1 & _ & H3 & _ & H5 & _ & H7).
  split; [exact H1|]. split; [exact H3|]. split; [exact H5|].
  refine (proj2 (H7 _ _) 1 _ _).
  - discriminate.
  - discriminate.
  - intros [|n] Hn; [lia|reflexivity].
  - vm_compute. lia.
Defined.

Lemma retryLoop_spec attempt : forall retry delay k,
  let r := Restore.retryLoop retry delay attempt k in
  r.1.1 <= retry
  /\ (0 < retry \/ r.2 = true -> 0 < r.1.1)
  /\ r.1.2 = seq delay (r.1.1 - 1)
  /\ (forall j, j < r.1.1 - 1 -> attempt (k + j) = false)
  /\ (if r.2 then attempt (k + (r.1.1 - 1)) = true
      else r.1.1 = retry /\ forall j, j < retry -> attempt (k + j) = false).
Proof.
  induction retry as [|retry IH]; intros delay k; simpl.
  - split; [lia|]. split; [intros [?|?]; [lia|done]|]. split; [done|].
    split; [intros j Hj; lia|]. split; [done|]. intros j Hj. lia.
  - destruct (attempt k) eqn:Hk; simpl.
    + rewrite Nat.add_0_r.
      split; [lia|]. split; [lia|]. split; [done|]. split; [intros j Hj; lia|done].
    + specialize (IH (if retry =? 0 then delay else S delay) (S k)).
      destruct (Restore.retryLoop retry _ attempt (S k)) as [[calls waits] ok].
      simpl in *. destruct IH as (Hle & Hpos & Hwaits & Hfail & Hend).
      rewrite Nat.sub_0_r.
      destruct (Nat.eqb_spec retry 0) as [->|Hne].
      * assert (calls = 0) as -> by lia. simpl in *. subst waits.
        split; [lia|]. split; [lia|]. split; [done|]. split; [intros j Hj; lia|].
        destruct ok; [specialize (Hpos ltac:(by right)); lia|].
        split; [done|].
        intros j Hj. assert (j = 0) as -> by lia. by rewrite Nat.add_0_r.
      * specialize (Hpos ltac:(left; lia)).
        split; [lia|]. split; [lia|]. split.
        { rewrite Hwaits. destruct calls as [|calls]; [lia|]. simpl.
          by rewrite Nat.sub_0_r. }
        split.
        { intros [|j] Hj; [by rewrite Nat.add_0_r|].
          replace (k + S j) with (S (k + j)) by lia. apply Hfail. lia. }
        destruct ok.
        -- replace (k + calls) with (S (k + (calls - 1))) by lia. exact Hend.
        -- destruct Hend as [-> Hall]. split; [done|].
           intros [|j] Hj; [by rewrite Nat.add_0_r|].
           replace (k + S j) with (S (k + j)) by lia. apply Hall. lia.
Qed.

(** X10. [restore] calls [processDomain] for a domain until a call goes
    through, five times at most: the calls before the last one all
    failed, after the first failure it waits one second, after each
    further one a second more, and after the fifth failure it does not
    wait; it gives the domain up then, without an exception, so the other
    domains are still restored. *)
Theorem X10_restore_retries_domain attempt :
  let r := Restore.processWithRetry attempt in
  1 <= r.1.1 <= 5
  /\ r.1.2 = seq 1 (r.1.1 - 1)
  /\ (forall j, j < r.1.1 - 1 -> attempt j = false)
  /\ (r.2 = true -> attempt (r.1.1 - 1) = true)
  /\ (r.2 = false -> r.1.1 = 5 /\ forall j, j < 5 -> attempt j = false).
Proof.
  pose proof (retryLoop_spec attempt 5 1 0) as H.
  unfold Restore.processWithRetry. cbv zeta in *.
  destruct (Restore.retryLoop 5 1 attempt 0) as [[calls waits] ok].
  simpl in *. destruct H as (Hle & Hpos & Hwaits & Hfail & Hend).
  specialize (Hpos ltac:(left; lia)).
  split; [lia|]. split; [done|]. split; [done|].
  destruct ok; split; intros Hok; try done.
Qed.

Example restore_retry_backoff :
  Restore.processWithRetry (fun k => 3 <=? k) = (4, [1; 2; 3], true)
  /\ Restore.processWithRetry (fun _ => false) = (5, [1; 2; 3; 4], false).
Proof. split; reflexivity. Qed.

(** *** clone: cleanDomain over a live cursor *)

Section CleanDomain.
Import BackupClientOps.
Context {DocInfo : Type}.
Variable estimateDocSize : DocInfo -> Z.
Variable find : string -> bool -> list DocInfo.
Variable docId : DocInfo -> string.
Variable recheck : bool.

Local Abbreviation loadChunk := (BackupClientOps.loadChunk estimateDocSize find).
Local Abbreviation loadChunks := (BackupClientOps.loadChunks estimateDocSize find).
Local Abbreviation loadAll := (Clone.loadAll estimateDocSize find docId recheck).
Local Abbreviation cleanDomain := (Clone.cleanDomain estimateDocSize find docId recheck).

Lemma loadChunk_rIdx (st : State DocInfo) domain idx r :
  rIdx (loadChunk st domain (Some idx) r).2 = idx.
Proof.
  unfold BackupClientOps.loadChunk. simpl.
  destruct (chunkInfo st !! idx) as [chunk|]; simpl.
  - destruct (finished chunk); [done|].
    by destruct (BackupClientOps.fill _ _ _ _ _) as [[? ?] ?].
  - by destruct (BackupClientOps.fill _ _ _ _ _) as [[? ?] ?].
Qed.

Lemma loadAll_walk throws domain idx : forall rs k (st st' : State DocInfo) r fuel call ids,
  (forall c, throws c = false) ->
  loadChunks k st domain idx recheck = (st', rs ++ [r]) ->
  Forall (fun r => rFinished r = false) rs ->
  rFinished r = true ->
  k <= fuel ->
  loadAll fuel throws call st domain (Some idx) ids
  = Some (st', ids ++ map docId (concat (map rDocs (rs ++ [r])))).
Proof.
  induction rs as [|r0 rs IH]; intros k st st' r fuel call ids Hquiet Hload Hrs Hr Hk.
  - destruct k as [|k]; [done|]. simpl in Hload.
    destruct (loadChunk st domain (Some idx) recheck) as [st1 r1] eqn:H1.
    destruct (loadChunks k st1 domain idx recheck) as [st2 rs2] eqn:H2.
    injection Hload as <- <- Hnil. symmetry in Hnil.
    destruct k; [|simpl in H2;
                   destruct (loadChunk st1 domain (Some idx) recheck);
                   destruct (BackupClientOps.loadChunks _ _ _ _ _ _ _); by injection H2 as _ <-].
    injection H2 as <- _.
    destruct fuel as [|fuel]; [lia|]. simpl. rewrite Hquiet, H1, Hr. simpl.
    by rewrite app_nil_r.
  - destruct k as [|k]; [done|]. simpl in Hload.
    destruct (loadChunk st domain (Some idx) recheck) as [st1 r1] eqn:H1.
    destruct (loadChunks k st1 domain idx recheck) as [st2 rs2] eqn:H2.
    injection Hload as <- <- ->.
    apply Forall_cons in Hrs as [Hr1 Hrs].
    destruct fuel as [|fuel]; [lia|]. simpl. rewrite Hquiet, H1, Hr1.
    pose proof (loadChunk_rIdx st domain idx recheck) as Hidx. rewrite H1 in Hidx.
    simpl in Hidx. rewrite Hidx.
    rewrite (IH k st1 st2 r fuel (S call) _ Hquiet H2 Hrs Hr ltac:(lia)).
    simpl. by rewrite (map_app docId (rDocs r1)), app_assoc.
Qed.

Lemma loadChunks_frame domain idx r : forall k (st st' : State DocInfo) rs,
  loadChunks k st domain idx r = (st', rs) ->
  idIndex st' = idIndex st
  /\ forall j, j <> idx -> chunkInfo st' !! j = chunkInfo st !! j.
Proof.
  induction k as [|k IH]; intros st st' rs Hload; simpl in Hload.
  - by injection Hload as <- <-.
  - pose proof (loadChunk_result estimateDocSize find st domain (Some idx) r) as H1.
    destruct (loadChunk st domain (Some idx) r) as [st1 r1].
    destruct (loadChunks k st1 domain idx r) as [st2 rs2] eqn:H2.
    injection Hload as <- <-. simpl in H1. destruct H1 as (_ & Hcount & _ & Hframe & _).
    destruct (IH st1 st2 rs2 H2) as [Hcount2 Hframe2].
    split; [congruence|]. intros j Hj. by rewrite Hframe2, Hframe.
Qed.

Lemma loadChunk_fresh (st : State DocInfo) domain r :
  loadChunk st domain None r
  = loadChunk {| idIndex := S (idIndex st); chunkInfo := chunkInfo st |} domain
      (Some (idIndex st)) r.
Proof. reflexivity. Qed.

Lemma cleanBatches_spec cleanOk : forall fuel i ids,
  length ids <= fuel ->
  let r := Clone.cleanBatches fuel cleanOk i ids in
  Forall (fun part => 0 < length part <= 5000) r.1
  /\ (exists rest, ids = concat r.1 ++ rest /\ (r.2 = true -> rest = []))
  /\ ((forall j, cleanOk j = true) -> r.2 = true).
Proof.
  induction fuel as [|fuel IH]; intros i ids Hfuel.
  - destruct ids; [|simpl in Hfuel; lia]. simpl.
    split; [done|]. split; [by exists []|done].
  - simpl Clone.cleanBatches.
    destruct (Nat.ltb_spec 0 (length ids)) as [Hpos|Hempty].
    + unfold Js.splice0.
      set (n := Z.to_nat (Z.max 0 5000)).
      assert (Hn : n = 5000) by (subst n; lia).
      assert (Htake : 0 < length (take n ids) <= 5000).
      { rewrite length_take. lia. }
      assert (Hdrop : length (drop n ids) <= fuel).
      { rewrite length_drop. lia. }
      assert (Hsplit : take n ids ++ drop n ids = ids) by apply take_drop.
      destruct (cleanOk i) eqn:Hok.
      * specialize (IH (S i) (drop n ids) Hdrop).
        destruct (Clone.cleanBatches fuel cleanOk (S i) (drop n ids)) as [parts ok].
        simpl in *. destruct IH as (Hall & (rest & Hrest & Hdone) & Hquiet).
        split; [by constructor|]. split; [|done].
        exists rest. split; [|done]. by rewrite <- app_assoc, <- Hrest.
      * simpl. split; [constructor; [done|constructor]|]. split.
        { exists (drop n ids). split; [by rewrite app_nil_r|done]. }
        intros Hall. specialize (Hall i). congruence.
    + assert (ids = []) as -> by (destruct ids; [done|simpl in Hempty; lia]).
      simpl. split; [done|]. split; [by exists []|done].
Qed.

(** X11. [cleanDomain] against a server whose cursors are all below its
    counter, when no call throws: the walk ends, at the latest with the
    call after as many calls as the domain has documents, and
    [connection.clean] is handed the ids of exactly the documents the
    domain's iterator yields, each once and in that order, in batches of
    at most 5000.  The walk takes a new cursor, and leaves it, finished,
    with the server: [closeChunk] is not called. *)
Theorem X11_cleanDomain_cleans_domain throws cleanOk (st : State DocInfo) domain fuel :
  CursorSpec.allocated st ->
  (forall c, throws c = false) ->
  (forall i, cleanOk i = true) ->
  length (find domain recheck) < fuel ->
  exists st' parts,
    cleanDomain fuel throws cleanOk st domain = Some (st', parts, true)
    /\ concat parts = map docId (find domain recheck)
    /\ Forall (fun part => 0 < length part <= 5000) parts
    /\ idIndex st' = S (idIndex st)
    /\ (forall j, j <> idIndex st -> chunkInfo st' !! j = chunkInfo st !! j)
    /\ exists chunk, chunkInfo st' !! idIndex st = Some chunk /\ finished chunk = true.
Proof.
  intros Halloc Hquiet Hclean Hfuel.
  set (st0 := {| idIndex := S (idIndex st); chunkInfo := chunkInfo st |}).
  assert (Hfree : chunkInfo st !! idIndex st = None).
  { destruct (chunkInfo st !! idIndex st) eqn:Hc; [|done].
    specialize (Halloc (idIndex st) ltac:(by rewrite Hc)). lia. }
  assert (Hun : unfinished st0 (idIndex st)).
  { unfold unfinished. simpl. by rewrite Hfree. }
  assert (Hrem : BackupClientOps.remaining find st0 domain (idIndex st) recheck
                 = find domain recheck).
  { unfold BackupClientOps.remaining. simpl. by rewrite Hfree. }
  destruct (loadChunks_reach_finished estimateDocSize find domain (idIndex st) recheck fuel
              st0 Hun ltac:(by rewrite Hrem))
    as (k & st' & rs & r & Hk & Hload & Hlen & Hrs & Hr & Hcat & chunk & Hchunk & Hfin).
  rewrite Hrem in Hcat.
  assert (Hall : loadAll fuel throws 0 st domain None []
                 = Some (st', map docId (find domain recheck))).
  { destruct fuel as [|fuel']; [lia|].
    destruct k as [|k]; [lia|].
    simpl in Hload |- *. rewrite Hquiet, loadChunk_fresh. fold st0.
    destruct (loadChunk st0 domain (Some (idIndex st)) recheck) as [st1 r1] eqn:H1.
    destruct (loadChunks k st1 domain (idIndex st) recheck) as [st2 rs2] eqn:H2.
    injection Hload as <- Hrs2.
    pose proof (loadChunk_rIdx st0 domain (idIndex st) recheck) as Hidx.
    rewrite H1 in Hidx. simpl in Hidx.
    destruct rs as [|r0 rs]; simpl in Hrs2.
    - injection Hrs2 as <- Hnil. rewrite Hr. simpl in Hcat. rewrite app_nil_r in Hcat.
      destruct k; [by injection H2 as <- _; rewrite Hcat|].
      simpl in H2. destruct (loadChunk st1 domain (Some (idIndex st)) recheck).
      destruct (BackupClientOps.loadChunks _ _ _ _ _ _ _). by injection H2 as _ <-.
    - injection Hrs2 as <- ->. apply Forall_cons in Hrs as [Hr0 Hrs]. rewrite Hr0, Hidx.
      rewrite (loadAll_walk throws domain (idIndex st) rs k st1 st2 r fuel' 1 _
                 Hquiet H2 Hrs Hr ltac:(lia)).
      simpl in Hcat. by rewrite <- map_app, Hcat. }
  pose proof (cleanBatches_spec cleanOk (length (map docId (find domain recheck))) 0
                (map docId (find domain recheck)) (le_n _)) as Hb.
  unfold Clone.cleanDomain. rewrite Hall.
  destruct (Clone.cleanBatches _ cleanOk 0 (map docId (find domain recheck))) as [parts ok].
  simpl in Hb. destruct Hb as (Hparts & (rest & Hrest & Hdone) & Hok).
  specialize (Hok Hclean). subst ok. specialize (Hdone eq_refl). subst rest.
  rewrite app_nil_r in Hrest.
  destruct (loadChunks_frame domain (idIndex st) recheck k st0 st' _ Hload)
    as [Hcount Hframe].
  exists st', parts. split; [done|]. split; [done|]. split; [done|].
  split; [done|]. split; [done|]. by exists chunk.
Qed.

End CleanDomain.

Lemma X11_cleanDomain_cleans_domain_witness :
  exists st' parts,
    Clone.cleanDomain (fun n : nat => Z.of_nat n) (fun _ _ => [1; 2; 3]) Js.numberToString
      false 4 (fun _ => false) (fun _ => true)
      {| BackupClientOps.idIndex := 0; BackupClientOps.chunkInfo := ∅ |} "tx"
    = Some (st', parts, true)
    /\ concat parts = ["1"; "2"; "3"].
Proof.
  destruct (X11_cleanDomain_cleans_domain (fun n : nat => Z.of_nat n) (fun _ _ => [1; 2; 3])
              Js.numberToString false (fun _ => false) (fun _ => true)
              {| BackupClientOps.idIndex := 0; BackupClientOps.chunkInfo := ∅ |} "tx" 4)
    as (st' & parts & Hrun & Hids & _).
  - intros k Hk. simpl in Hk. rewrite lookup_empty in Hk. by destruct Hk.
  - done.
  - done.
  - simpl. lia.
  - exists st', parts. split; [exact Hrun|exact Hids].
Defined.

(** *** The session manager keeps its two maps consistent *)

Section Invariant.
Import SessionManager ManagerSpec InvariantSpec.

Lemma close_unregisters m k wsid :
  Consistent m -> ownedBy m k wsid ->
  forall W S r, hasSession (close m k wsid) W S r -> socket r <> k.
Proof.
  intros [Hreg Huniq] Hown W S r Hhas Hk.
  pose proof (hasSession_close _ _ _ _ _ _ Hhas) as Hm.
  destruct (Hreg _ _ _ Hm) as (r' & Hr' & Hid & _).
  rewrite Hk in Hr'.
  assert (W = wsid) as -> by by apply (Hown W S r).
  destruct Hhas as (w & Hw & Hs).
  pose proof (close_removes m k wsid r' w Hr' Hw) as Hgone.
  rewrite Hid in Hgone. congruence.
Qed.

Lemma close_consistent m k wsid :
  Consistent m -> ownedBy m k wsid -> Consistent (close m k wsid).
Proof.
  intros Hcons Hown.
  pose proof (close_unregisters m k wsid Hcons Hown) as Hgone.
  destruct Hcons as [Hreg Huniq]. split.
  - intros W S r Hhas.
    pose proof (hasSession_close _ _ _ _ _ _ Hhas) as Hm.
    destruct (Hreg _ _ _ Hm) as (r' & Hr' & Hid & Hsock).
    exists r'. split; [|done].
    destruct (sessions m !! k) as [ref|] eqn:Hs.
    + destruct (sessions_close m k wsid ref Hs) as [-> _].
      rewrite lookup_delete_ne; [done|]. intros Heq. by apply (Hgone W S r).
    + unfold close. by rewrite Hs.
  - intros W1 S1 r1 W2 S2 r2 H1 H2 Heq.
    apply (Huniq W1 S1 r1 W2 S2 r2); [by eapply hasSession_close..|done].
Qed.

Lemma close_fresh m k wsid k' :
  freshSocket m k' -> freshSocket (close m k wsid) k'.
Proof.
  intros [Hk Hnone]. split.
  - destruct (sessions (close m k wsid) !! k') as [r|] eqn:Hr; [|done].
    apply sessions_close_sub in Hr. congruence.
  - intros W S r Hhas. apply (Hnone W S r). by eapply hasSession_close.
Qed.

(** X12. [close(ws, wsid)], called with the workspace the socket was
    added to, keeps the manager's two maps consistent (every session a
    workspace holds is registered under its socket, no two sessions share
    a socket), and afterwards the socket is nowhere: it is not registered
    and no workspace holds a session on it.  A socket that was not in use
    before is not in use afterwards. *)
Theorem X12_close_keeps_consistent m k wsid :
  Consistent m -> ownedBy m k wsid ->
  Consistent (close m k wsid)
  /\ freshSocket (close m k wsid) k
  /\ forall k', freshSocket m k' -> freshSocket (close m k wsid) k'.
Proof.
  intros Hcons Hown.
  split; [by apply close_consistent|]. split; [|intros k'; apply close_fresh].
  split; [|by apply close_unregisters].
  destruct (sessions m !! k) as [ref|] eqn:Hs.
  - destruct (sessions_close m k wsid ref Hs) as [-> _]. apply lookup_delete_eq.
  - unfold close. by rewrite Hs.
Qed.

End Invariant.

Lemma sampleManager_owned u : InvariantSpec.ownedBy (sampleManager u) "sock1" "ws1".
Proof.
  intros W S r (w & Hw & Hs) _. unfold sampleManager in Hw. simpl in Hw.
  apply lookup_singleton_Some in Hw as [<- _]. done.
Qed.

Lemma X12_close_keeps_consistent_witness :
  ManagerSpec.Consistent (SessionManager.close (sampleManager "user@example.org") "sock1" "ws1")
  /\ InvariantSpec.freshSocket
       (SessionManager.close (sampleManager "user@example.org") "sock1" "ws1") "sock1".
Proof.
  destruct (X12_close_keeps_consistent (sampleManager "user@example.org") "sock1" "ws1"
              (sampleManager_consistent _) (sampleManager_owned _)) as (H1 & H2 & _).
  exact (conj H1 H2).
Defined.

Section TickInvariant.
Import SessionManager ManagerSpec.
Variable systemAccountEmail : string.

Local Abbreviation handleInterval := (SessionManager.handleInterval systemAccountEmail).
Local Abbreviation runTicks := (SessionManager.runTicks systemAccountEmail).

Lemma handleInterval_shrinks_sessions now m :
  (forall wsId sid r', hasSession (handleInterval now m) wsId sid r' ->
     exists r, hasSession m wsId sid r /\ sameRef r r').
Proof.
  destruct (wsLoop_shrinks systemAccountEmail now (map_to_list (workspaces m)) m)
    as (Hs & _).
  intros wsId sid r' Hhas. by apply Hs.
Qed.

Lemma handleInterval_consistent now m :
  Consistent m -> Consistent (handleInterval now m).
Proof.
  intros Hcons. pose proof Hcons as [Hreg Huniq]. split.
  - intros W S r' Hhas'.
    destruct (handleInterval_shrinks_sessions now m W S r' Hhas') as (r & Hhas & Hsame).
    destruct (consistent_alive W S r m Hcons Hhas) as [Hal Hap].
    destruct ((SessionManager.hangTimeout systemAccountEmail (user (session r))
               <? now - lastRequest (session r))%Z
              && (ticks m mod 10 =? 0)) eqn:Hhang.
    + destruct (handleInterval_closes systemAccountEmail W S r now m Hal Hap Hhang)
        as (Hgone & _).
      destruct Hhas' as (w & Hw & Hs). specialize (Hgone w Hw). congruence.
    + destruct (handleInterval_alive systemAccountEmail W S r now m Hal Hap Hhang)
        as [[_ (r'' & Hr'' & Hid & Hsock)] _].
      destruct Hsame as (Hsocket & _). rewrite <- Hsocket.
      by exists r''.
  - intros W1 S1 r1' W2 S2 r2' H1 H2 Heq.
    destruct (handleInterval_shrinks_sessions now m _ _ _ H1) as (r1 & Hr1 & (Hs1 & _)).
    destruct (handleInterval_shrinks_sessions now m _ _ _ H2) as (r2 & Hr2 & (Hs2 & _)).
    apply (Huniq W1 S1 r1 W2 S2 r2 Hr1 Hr2). congruence.
Qed.

(** X13. The ticks keep the manager's two maps consistent: after any
    number of calls of [handleInterval], whatever the clock shows, every
    session a workspace holds is still registered under its socket with
    its session id, and no two sessions share a socket. *)
Theorem X13_ticks_keep_consistent nows m :
  Consistent m -> Consistent (runTicks nows m).
Proof.
  revert m. unfold SessionManager.runTicks.
  induction nows as [|now nows IH]; intros m Hcons; [done|].
  simpl. apply IH. by apply handleInterval_consistent.
Qed.

End TickInvariant.

Lemma X13_ticks_keep_consistent_witness :
  ManagerSpec.Consistent
    (SessionManager.runTicks sampleSystemEmail [70000%Z; 71000%Z]
       (sampleManager "user@example.org")).
Proof.
  exact (X13_ticks_keep_consistent sampleSystemEmail [70000%Z; 71000%Z]
           (sampleManager "user@example.org") (sampleManager_consistent _)).
Defined.

Section AddSessionInvariant.
Import SessionManager ManagerSpec InvariantSpec.
Variable systemAccountEmail : string.
Variable versionToString : Version -> string.

Local Abbreviation addSession := (SessionManager.addSession systemAccountEmail versionToString).

Lemma narrow_keeps m m' k :
  sessions m' = sessions m ->
  (forall W S r, hasSession m' W S r -> hasSession m W S r) ->
  Consistent m /\ freshSocket m k -> Consistent m' /\ freshSocket m' k.
Proof.
  intros Hs Hsub [[Hreg Huniq] [Hk Hnone]]. split; [split|split].
  - intros W S r Hhas. rewrite Hs. by apply (Hreg W S r), Hsub.
  - intros W1 S1 r1 W2 S2 r2 H1 H2. apply Huniq; by apply Hsub.
  - by rewrite Hs.
  - intros W S r Hhas. by apply (Hnone W S r), Hsub.
Qed.

Lemma emit_keeps m e k :
  Consistent m /\ freshSocket m k -> Consistent (emit m e) /\ freshSocket (emit m e) k.
Proof. by apply narrow_keeps. Qed.

Lemma create_keeps m ws w k :
  wsSessions w = ∅ ->
  Consistent m /\ freshSocket m k ->
  Consistent (setWorkspaces m (<[ws := w]> (workspaces m)))
  /\ freshSocket (setWorkspaces m (<[ws := w]> (workspaces m))) k.
Proof.
  intros Hempty. apply narrow_keeps; [done|].
  intros W S r (w' & Hw' & Hr). simpl in Hw'.
  destruct (decide (ws = W)) as [->|Hne].
  - rewrite lookup_insert_eq in Hw'. injection Hw' as <-.
    rewrite Hempty, lookup_empty in Hr. done.
  - rewrite lookup_insert_ne in Hw' by done. by exists w'.
Qed.

Lemma notices_frame (l : list (string * SessionRef)) : forall m,
  workspaces (foldl (fun m entry => emit (emit m (SentUpgrade (socket entry.2)))
                                         (SocketClosed (socket entry.2))) m l)
  = workspaces m
  /\ sessions (foldl (fun m entry => emit (emit m (SentUpgrade (socket entry.2)))
                                          (SocketClosed (socket entry.2))) m l)
     = sessions m.
Proof.
  induction l as [|e l IH]; intros m; simpl; [done|].
  destruct (IH (emit (emit m (SentUpgrade (socket e.2))) (SocketClosed (socket e.2))))
    as [-> ->]. done.
Qed.

Lemma closeAllForUpgrade_keeps m ws w k :
  Consistent m /\ freshSocket m k ->
  (Consistent (closeAllForUpgrade m ws w) /\ freshSocket (closeAllForUpgrade m ws w) k)
  /\ workspaces (closeAllForUpgrade m ws w) !! ws = Some (setWsSessions w ∅).
Proof.
  intros HP. unfold closeAllForUpgrade.
  destruct (notices_frame (map_to_list (wsSessions w))
              (setWorkspaces m (<[ws := setWsSessions w ∅]> (workspaces m))))
    as [Hw Hs].
  split.
  - pose proof (create_keeps m ws (setWsSessions w ∅) k eq_refl HP) as HP1.
    revert HP1. apply narrow_keeps; [done|].
    intros W S r (w' & Hw' & Hr). rewrite Hw in Hw'. by exists w'.
  - rewrite Hw. simpl. apply lookup_insert_eq.
Qed.

Lemma insert_session_keeps m ws w sid ref k :
  workspaces m !! ws = Some w ->
  socket ref = k ->
  sessionId (session ref) = sid ->
  Consistent m /\ freshSocket m k ->
  let m' := setWorkspaces (setSessions m (<[k := ref]> (sessions m)))
              (<[ws := setWsSessions w (<[sid := ref]> (wsSessions w))]>
                 (workspaces (setSessions m (<[k := ref]> (sessions m))))) in
  Consistent m' /\ hasSession m' ws sid ref /\ sessions m' !! k = Some ref.
Proof.
  intros Hw Hsock Hid [[Hreg Huniq] [Hk Hnone]] m'.
  assert (Hnew : hasSession m' ws sid ref).
  { eexists. subst m'. simpl. rewrite lookup_insert_eq. split; [done|].
    simpl. apply lookup_insert_eq. }
  assert (Hold : forall W S r, hasSession m' W S r ->
                   (W = ws /\ S = sid /\ r = ref) \/ hasSession m W S r).
  { intros W S r (w' & Hw' & Hr). subst m'. simpl in Hw'.
    destruct (decide (ws = W)) as [->|Hne].
    - rewrite lookup_insert_eq in Hw'. injection Hw' as <-. simpl in Hr.
      destruct (decide (sid = S)) as [->|Hne].
      + rewrite lookup_insert_eq in Hr. injection Hr as <-. by left.
      + rewrite lookup_insert_ne in Hr by done. right. by exists w.
    - rewrite lookup_insert_ne in Hw' by done. right. by exists w'. }
  split; [split|split; [done|]].
  - intros W S r Hhas. destruct (Hold W S r Hhas) as [(-> & -> & ->)|Hm].
    + exists ref. subst m'. simpl. rewrite Hsock, lookup_insert_eq. done.
    + destruct (Hreg W S r Hm) as (r' & Hr' & Hr'id & Hr'sock).
      exists r'. subst m'. simpl. rewrite lookup_insert_ne; [done|].
      intros Heq. by apply (Hnone W S r).
  - intros W1 S1 r1 W2 S2 r2 H1 H2 Heq.
    destruct (Hold _ _ _ H1) as [(-> & -> & ->)|Hm1];
      destruct (Hold _ _ _ H2) as [(-> & -> & ->)|Hm2]; [done|..].
    + exfalso. apply (Hnone W2 S2 r2 Hm2). congruence.
    + exfalso. apply (Hnone W1 S1 r1 Hm1). congruence.
    + by apply (Huniq W1 S1 r1 W2 S2 r2).
  - subst m'. simpl. apply lookup_insert_eq.
Qed.

Lemma enterWorkspace_keeps m env socketId token sessionIdArg :
  (forall m1, Consistent m1 /\ freshSocket m1 socketId ->
     Consistent (awaitClosing env m1) /\ freshSocket (awaitClosing env m1) socketId) ->
  Consistent m /\ freshSocket m socketId ->
  let r := enterWorkspace m env socketId token sessionIdArg in
  Consistent r.1
  /\ match r.2 with
     | SessionResult s ws =>
         ws = workspace token
         /\ hasSession r.1 ws (sessionId s) {| session := s; socket := socketId |}
         /\ sessions r.1 !! socketId = Some {| session := s; socket := socketId |}
     | _ => freshSocket r.1 socketId
     end.
Proof.
  intros Hawait HP0. unfold enterWorkspace. cbv zeta.
  set (ws := workspace token).
  set (m1 := match workspaces m !! ws with
             | Some w => if closing w then awaitClosing env m else m
             | None => m
             end).
  assert (HP1 : Consistent m1 /\ freshSocket m1 socketId).
  { subst m1. destruct (workspaces m !! ws) as [w|]; [|done].
    destruct (closing w); [by apply Hawait|done]. }
  clearbody m1. clear m HP0.
  set (oldSession := sessionIdArg ≫= _).
  set (m2 := match oldSession with Some old => close m1 (socket old) ws | None => m1 end).
  assert (HP2 : Consistent m2 /\ freshSocket m2 socketId).
  { subst m2. destruct oldSession as [old|] eqn:Hold; [|done].
    destruct HP1 as [Hcons Hfresh]. split; [|by apply close_fresh].
    apply close_consistent; [done|].
    subst oldSession. destruct sessionIdArg as [sid0|]; [|done]. simpl in Hold.
    destruct (workspaces m1 !! ws) as [w|] eqn:Hw; [|done]. simpl in Hold.
    intros W S r Hhas Hsock.
    destruct Hcons as [_ Huniq].
    destruct (Huniq W S r ws sid0 old Hhas) as [HW _]; [by exists w|done|done]. }
  clearbody m2. clear m1 HP1 oldSession.
  set (upgradeToken := bool_decide (extraModel token = Some "upgrade")).
  set (backupToken := bool_decide (extraMode token = Some "backup")).
  set (p := match workspaces m2 !! ws with Some w => (m2, w) | None => _ end).
  assert (HP3 : (Consistent p.1 /\ freshSocket p.1 socketId)
                /\ workspaces p.1 !! ws = Some p.2).
  { subst p. destruct (workspaces m2 !! ws) as [w|] eqn:Hw; [done|]. simpl. split.
    - apply emit_keeps. by apply create_keeps.
    - apply lookup_insert_eq. }
  clearbody p. destruct p as [m3 w3]. simpl in HP3. destruct HP3 as [HP3 Hw3].
  clear m2 HP2.
  set (entered := if upgradeToken then _ else _).
  assert (HP4 : match entered with
                | Some (m4, w4) => (Consistent m4 /\ freshSocket m4 socketId)
                                   /\ workspaces m4 !! ws = Some w4
                | None => True
                end).
  { subst entered. destruct upgradeToken.
    - destruct (upgrade w3); [done|].
      match goal with |- context [closeAllForUpgrade m3 ws ?w] =>
        destruct (closeAllForUpgrade_keeps m3 ws w socketId HP3) as [HP Hw] end.
      split; [by apply emit_keeps|done].
    - by destruct (upgrade w3). }
  destruct entered as [[m4 w4]|]; [|done].
  destruct HP4 as [HP4 Hw4].
  destruct (pipelineThrows env) as [err|]; [done|].
  match goal with |- context [<[socketId := ?ref]> (sessions m4)] =>
    destruct (insert_session_keeps m4 ws w4 _ ref socketId Hw4 eq_refl eq_refl HP4)
      as (H1 & H2 & H3) end.
  simpl. split; [exact H1|]. split; [done|]. split; [exact H2|exact H3].
Qed.

(** X14. [addSession] keeps the manager's two maps consistent. Called for a
    socket that is not in use, on a consistent manager, it leaves the
    manager consistent whatever it answers. When it answers with a session,
    the session is the one of the token's workspace under its own id and
    the socket is registered with it; in every other case (an error, an
    upgrade notice, a throw) the socket is still not in use. The wait for a
    close in flight is assumed to keep both. *)
Theorem X14_addSession_keeps_consistent m env socketId token sessionIdArg :
  Consistent m -> freshSocket m socketId ->
  (forall m1, Consistent m1 /\ freshSocket m1 socketId ->
     Consistent (awaitClosing env m1) /\ freshSocket (awaitClosing env m1) socketId) ->
  Consistent (addSession m env socketId token sessionIdArg).1
  /\ match (addSession m env socketId token sessionIdArg).2 with
     | SessionResult s ws =>
         ws = workspace token
         /\ hasSession (addSession m env socketId token sessionIdArg).1 ws (sessionId s)
              {| session := s; socket := socketId |}
         /\ sessions (addSession m env socketId token sessionIdArg).1 !! socketId
            = Some {| session := s; socket := socketId |}
     | _ => freshSocket (addSession m env socketId token sessionIdArg).1 socketId
     end.
Proof.
  intros Hcons Hfresh Hawait.
  pose proof (enterWorkspace_keeps m env socketId token sessionIdArg Hawait
                (conj Hcons Hfresh)) as Henter.
  cbv zeta in Henter.
  unfold SessionManager.addSession.
  destruct (resolveInfo env token 5 0) as [err|info]; [done|].
  destruct (_ && _); [done|].
  destruct (_ && _); [done|].
  cbv zeta.
  destruct (version (default (wsFromToken token) info)) as [v|]; [|exact Henter].
  destruct (_ && _); [|exact Henter].
  simpl. split; [|by apply emit_keeps]. by apply (emit_keeps m _ socketId).
Qed.

End AddSessionInvariant.

Lemma sampleManager_fresh u : InvariantSpec.freshSocket (sampleManager u) "sock2".
Proof.
  split; [done|].
  intros W S r (w & Hw & Hs). unfold sampleManager in Hw. simpl in Hw.
  apply lookup_singleton_Some in Hw as [<- <-]. simpl in Hs.
  by apply lookup_singleton_Some in Hs as [<- <-].
Qed.

Lemma X14_addSession_keeps_consistent_witness :
  ManagerSpec.Consistent
    (SessionManager.addSession sampleSystemEmail sampleVersionToString
       (sampleManager "user@example.org") (sampleAddEnv false) "sock2"
       (sampleToken (Some backupClaim)) None).1
  /\ SessionManager.sessions
       (SessionManager.addSession sampleSystemEmail sampleVersionToString
          (sampleManager "user@example.org") (sampleAddEnv false) "sock2"
          (sampleToken (Some backupClaim)) None).1 !! "sock2"
     = Some {| SessionManager.session :=
                 {| SessionManager.sessionId := "s2";
                    SessionManager.user := "user@example.org";
                    SessionManager.lastRequest := 0; SessionManager.requests := [];
                    SessionManager.currentFind := 0; SessionManager.currentTx := 0;
                    SessionManager.mins5Find := 0; SessionManager.mins5Tx := 0 |};
               SessionManager.socket := "sock2" |}.
Proof.
  pose proof (X14_addSession_keeps_consistent sampleSystemEmail sampleVersionToString
                (sampleManager "user@example.org") (sampleAddEnv false) "sock2"
                (sampleToken (Some backupClaim)) None
                (sampleManager_consistent _) (sampleManager_fresh _)
                (fun m1 H => H)) as H.
  split; [exact (proj1 H)|]. exact (proj2 (proj2 (proj2 H))).
Defined.

Section Countdown.
Import SessionManager Maintenance MaintenanceSpec.

Lemma filter_all {A} (f : A -> bool) (l : list A) :
  (forall x, f x = true) -> List.filter f l = l.
Proof. intros Hf. induction l as [|x l IH]; simpl; [done|]. by rewrite Hf, IH. Qed.

Lemma broadcastAll_everyone w :
  broadcastAll w None None = if upgrade w then [] else (map_to_list (wsSessions w)).*2.
Proof.
  unfold broadcastAll. destruct (upgrade w); [done|].
  apply filter_all. intros x. simpl. done.
Qed.

Lemma send_each (n : Z) (l : list SessionRef) : forall st,
  timeMinutes st = n ->
  foldl (fun st r => push st (Sent r (timeMinutes st))) st l
  = {| timeMinutes := n; maintenanceTimer := maintenanceTimer st;
       trace := trace st ++ ((fun r => Sent r n) <$> l) |}.
Proof.
  induction l as [|r l IH]; intros st Hn; simpl.
  - rewrite app_nil_r. by destruct st; simpl in *; subst.
  - rewrite IH by done. simpl. by rewrite Hn, <- app_assoc.
Qed.

Lemma sendMaintenanceWarning_spec ws st :
  timeMinutes st <> 0%Z ->
  sendMaintenanceWarning ws st
  = {| timeMinutes := timeMinutes st; maintenanceTimer := maintenanceTimer st;
       trace := trace st ++ announce (timeMinutes st) ws |}.
Proof.
  intros Hn. unfold sendMaintenanceWarning, announce, everyone.
  rewrite bool_decide_false by done.
  generalize ((map_to_list ws).*2). intros l.
  remember (timeMinutes st) as n eqn:Hst. clear Hn.
  revert st Hst. induction l as [|w l IH]; intros st Hst; simpl.
  - rewrite app_nil_r. by destruct st; simpl in *; subst.
  - rewrite broadcastAll_everyone, (send_each n) by done.
    rewrite IH by done. simpl. by rewrite fmap_app, app_assoc.
Qed.

Lemma run_countdown (k : nat) : forall n wss st,
  Z.of_nat k = (n - 1)%Z ->
  S k <= length wss ->
  timeMinutes st = n ->
  maintenanceTimer st = Some 60000%Z ->
  timeMinutes (run wss st) = 0%Z
  /\ maintenanceTimer (run wss st) = None
  /\ trace (run wss st) = trace st ++ countdown k n wss ++ [Timeout 60000].
Proof.
  induction k as [|k IH]; intros n wss st Hk Hlen Hn Htimer;
    destruct wss as [|ws rest]; simpl in Hlen; try lia.
  - simpl. rewrite Htimer. unfold showMaintenance. simpl.
    assert (n = 1%Z) as -> by lia. rewrite Hn. simpl.
    unfold sendMaintenanceWarning. simpl.
    destruct rest; done.
  - cbn [run]. rewrite Htimer. unfold showMaintenance. cbn [push setTimer timeMinutes].
    rewrite Hn. destruct (Z.ltb_spec 1 n); [|lia].
    rewrite sendMaintenanceWarning_spec by (simpl; lia).
    cbn [setTimer setMinutes timeMinutes maintenanceTimer trace nextTime].
    set (st1 := {| timeMinutes := (n - 1)%Z |}).
    destruct (IH (n - 1)%Z rest st1) as (H1 & H2 & H3); [lia|lia|done|..].
    { subst st1. cbn. unfold nextTime. cbn.
      destruct (Z.ltb_spec 1 (n - 1)); [done|].
      assert (n = 2%Z) as -> by lia. done. }
    split; [done|]. split; [done|].
    rewrite H3. subst st1. cbn. rewrite <- !app_assoc. done.
Qed.

(** X15. The maintenance countdown. [scheduleMaintenance(n)] for a whole
    number of minutes n >= 1 tells every session of every workspace that is
    not being upgraded that n minutes are left, at once; then, a minute
    apart, that n - 1, ..., 1 minutes are left, each time to the sessions
    of that moment; the timer that fires after the last minute announces
    nothing, sets [timeMinutes] to 0 and leaves no timer behind. *)
Theorem X15_maintenance_countdown (n : Z) ws0 wss st :
  (1 <= n)%Z ->
  Z.to_nat n <= length wss ->
  let st' := run wss (scheduleMaintenance ws0 n st) in
  timeMinutes st' = 0%Z
  /\ maintenanceTimer st' = None
  /\ trace st' = trace st ++ announce n ws0
                 ++ countdown (Z.to_nat (n - 1)) n wss ++ [Timeout 60000].
Proof.
  intros Hn Hlen st'. subst st'. unfold scheduleMaintenance. cbv zeta.
  rewrite sendMaintenanceWarning_spec by (simpl; lia).
  cbn [setMinutes timeMinutes maintenanceTimer trace].
  set (st1 := setTimer _ _).
  destruct (run_countdown (Z.to_nat (n - 1)) n wss st1) as (H1 & H2 & H3);
    [lia|lia|done|..].
  { subst st1. unfold nextTime. cbn.
    destruct (Z.ltb_spec 1 n); [done|]. assert (n = 1%Z) as -> by lia. done. }
  split; [done|]. split; [done|].
  rewrite H3. subst st1. cbn. by rewrite <- app_assoc.
Qed.

End Countdown.

Lemma X15_maintenance_countdown_witness :
  Maintenance.timeMinutes
    (Maintenance.run [SessionManager.workspaces (sampleManager "user@example.org"); ∅]
       (Maintenance.scheduleMaintenance
          (SessionManager.workspaces (sampleManager "user@example.org")) 2 idle)) = 0%Z
  /\ Maintenance.trace
       (Maintenance.run [SessionManager.workspaces (sampleManager "user@example.org"); ∅]
          (Maintenance.scheduleMaintenance
             (SessionManager.workspaces (sampleManager "user@example.org")) 2 idle))
     = [Maintenance.Sent (sampleRef "user@example.org") 2; Maintenance.Timeout 60000;
        Maintenance.Sent (sampleRef "user@example.org") 1; Maintenance.Timeout 60000].
Proof.
  pose proof (X15_maintenance_countdown 2
                (SessionManager.workspaces (sampleManager "user@example.org"))
                [SessionManager.workspaces (sampleManager "user@example.org"); ∅] idle
                ltac:(lia) ltac:(simpl; lia)) as H.
  split; [exact (proj1 H)|].
  etransitivity; [exact (proj2 (proj2 H))|]. vm_compute. reflexivity.
Defined.

(** Asked for no minutes at all, the manager announces nothing: the timer
    fires at once and finds nothing to do. *)
Example maintenance_zero ws0 ws1 :
  Maintenance.run [ws1] (Maintenance.scheduleMaintenance ws0 0 idle)
  = {| Maintenance.timeMinutes := 0; Maintenance.maintenanceTimer := None;
       Maintenance.trace := [Maintenance.Timeout 0] |}.
Proof. reflexivity. Qed.
